(** * Tesseract: the combinatorial encoding engine of RubikSockDrive

    A shallow embedding of [Tesseract/_util.py], [Tesseract/macaulay.py]
    and [Tesseract/Multiset.py].  Python integers are [Z]; a Python
    [set] of integers is a [gset Z]; a call that may raise returns an
    [outcome]; [while] loops and loops over unbounded iterators take a
    [fuel] argument and answer [OutOfFuel] when it runs out. *)

From stdpp Require Import gmap sorting list strings.
From Stdlib Require Import ZArith Lia ZifyBool.

Local Open Scope Z_scope.
Set Warnings "-register-all".

(** ** Outcomes of a Python call *)

Inductive exn : Set :=
| ValueError | TypeError | NameError | AssertionError
| AttributeError | KeyError | IndexError | ZeroDivisionError.

Inductive outcome (A : Type) : Type :=
| Ret (a : A)
| Raise (e : exn)
| OutOfFuel.

Arguments Ret {A} a.
Arguments Raise {A} e.
Arguments OutOfFuel {A}.

#[global] Instance outcome_ret : MRet outcome := @Ret.
#[global] Instance outcome_bind : MBind outcome := λ A B f m,
  match m with
  | Ret a => f a
  | Raise e => Raise e
  | OutOfFuel => OutOfFuel
  end.

#[global] Instance exn_eq_dec : EqDecision exn.
Proof. solve_decision. Defined.

(** ** [math.comb] *)

(** Pascal's triangle on naturals: the reference definition. *)
Fixpoint binomial (n k : nat) {struct n} : nat :=
  match n, k with
  | _, O => 1
  | O, S _ => 0
  | S n', S k' => binomial n' k' + binomial n' (S k')
  end%nat.

(** The multiplicative recurrence C(n,k) = C(n-1,k-1) * n / k, which
    evaluates on large [n]. *)
Fixpoint comb_mul (n : Z) (k : nat) : Z :=
  match k with
  | O => 1
  | S k' => (comb_mul (n - 1) k' * n) `div` Z.of_nat k
  end.

(** [math.comb(n, k)]: raises [ValueError] on a negative argument. *)
Definition comb (n k : Z) : outcome Z :=
  if (n <? 0) || (k <? 0) then Raise ValueError
  else Ret (comb_mul n (Z.to_nat k)).

(** * [Tesseract/_util.py] *)

Module Util.

(** The second argument of [fit_to_epoch]: a callable, mapped over
    [itertools.count()], or an iterable of sizes. *)
Inductive epochs_arg : Type :=
| Callable (f : Z → outcome Z)
| Iterable (l : list Z).

(** What the iterator yields at position [epoch_index]; [None] once a
    finite iterable is exhausted. *)
Definition epochs_next (epochs : epochs_arg) (epoch_index : nat)
  : option (outcome Z) :=
  match epochs with
  | Callable f => Some (f (Z.of_nat epoch_index))
  | Iterable l => Ret <$> l !! epoch_index
  end.

(** The [for ... else] loop of [fit_to_epoch]. *)
Fixpoint fit_loop (fuel : nat) (i : Z) (epochs : epochs_arg)
    (epoch_index : nat) (epoch_offset : Z) {struct fuel} : outcome (Z * Z) :=
  match epochs_next epochs epoch_index with
  | None => Raise ValueError
  | Some cur =>
      current_epoch_offset ← cur;
      if i - epoch_offset >? current_epoch_offset then
        match fuel with
        | O => OutOfFuel
        | S fuel' =>
            fit_loop fuel' i epochs (S epoch_index)
              (epoch_offset + current_epoch_offset)
        end
      else Ret (Z.of_nat epoch_index, epoch_offset)
  end.

Definition fit_to_epoch (fuel : nat) (i : Z) (epochs : epochs_arg)
  : outcome (Z * Z) :=
  fit_loop fuel i epochs 0 0.

(** [sys.maxsize] of a 64-bit interpreter. *)
Definition sys_maxsize : Z := 2 ^ 63 - 1.

(** The default [_increasefunc]: [lambda n, base=sys.maxsize+1: n*base]. *)
Definition default_increasefunc (n : Z) : Z := n * (sys_maxsize + 1).

(** Step 1 of [search_maxsatisfying]: the exponential approach. *)
Fixpoint approach (fuel : nat) (predicate : Z → outcome bool)
    (increasefunc : Z → Z) (lower_bound upper_bound : Z)
  : outcome (Z * Z) :=
  b ← predicate upper_bound;
  if b : bool then
    match fuel with
    | O => OutOfFuel
    | S fuel' =>
        approach fuel' predicate increasefunc
          upper_bound (increasefunc upper_bound)
    end
  else Ret (lower_bound, upper_bound).

(** Step 2: the binary search; returns [guess]. *)
Fixpoint bisect (fuel : nat) (predicate : Z → outcome bool)
    (lower_bound upper_bound guess : Z) : outcome Z :=
  if upper_bound - lower_bound >? 1 then
    match fuel with
    | O => OutOfFuel
    | S fuel' =>
        let guess := lower_bound + (upper_bound - lower_bound) `div` 2 in
        b ← predicate guess;
        if negb b then bisect fuel' predicate lower_bound guess lower_bound
        else bisect fuel' predicate guess upper_bound guess
    end
  else Ret guess.

(** [search_maxsatisfying(predicate, initial=..., _increasefunc=...)].
    The branch for a negative [initial] calls [_search_maxsatisfying],
    a name that [_util] never binds (only [macaulay] imports the
    function under that alias), so the call raises [NameError]. *)
Definition search_maxsatisfying_with (increasefunc : Z → Z) (fuel : nat)
    (predicate : Z → outcome bool) (initial : Z) : outcome Z :=
  if initial <? 0 then
    Raise NameError
  else
    let lower_bound := initial in
    let upper_bound := lower_bound + 1 in
    b ← predicate lower_bound;
    if negb b then Raise ValueError
    else
      '(lower_bound, upper_bound) ←
        approach fuel predicate increasefunc lower_bound upper_bound;
      guess ← bisect fuel predicate lower_bound upper_bound lower_bound;
      b1 ← predicate guess;
      if negb b1 then Raise AssertionError
      else
        b2 ← predicate (guess + 1);
        if b2 : bool then Raise AssertionError else Ret guess.

Definition search_maxsatisfying : nat → (Z → outcome bool) → Z → outcome Z :=
  search_maxsatisfying_with default_increasefunc.

(** *** [MixedBase] *)

(** [divmod] on integers: floor division, as [Z.div] and [Z.modulo]. *)
Definition py_divmod (a b : Z) : outcome (Z * Z) :=
  if b =? 0 then Raise ZeroDivisionError else Ret (a `div` b, a `mod` b).

(** The two objects [from_int] binds to its local [value]. *)
Inductive pyobject : Type :=
| Ellipsis
| PyList (l : list Z).

(** [value.append(digit)]: the ellipsis object has no such attribute. *)
Definition append (value : pyobject) (digit : Z) : outcome pyobject :=
  match value with
  | PyList l => Ret (PyList (l ++ [digit]))
  | Ellipsis => Raise AttributeError
  end.

Module MixedBase.

Record t : Type := MixedBase { base : list Z }.

(** [math.prod(self.base)] *)
Definition order (self : t) : Z := foldr Z.mul 1 (base self).

(** The loop of [to_int] over [zip(reversed(self.base), value,
    strict=True)]; a length mismatch makes [zip] raise [ValueError]. *)
Fixpoint to_int_loop (bs value : list Z) (i : Z) : outcome Z :=
  match bs, value with
  | [], [] => Ret i
  | b :: bs', digit :: value' =>
      if (0 <=? digit) && (digit <? b)
      then to_int_loop bs' value' (i * b + digit)
      else Raise ValueError
  | _, _ => Raise ValueError
  end.

Definition to_int (self : t) (value : list Z) : outcome Z :=
  to_int_loop (reverse (base self)) value 0.

(** The loop of [from_int]: [i, digit = divmod(i, b); value.append(digit)]. *)
Fixpoint from_int_loop (bs : list Z) (i : Z) (value : pyobject)
  : outcome (Z * pyobject) :=
  match bs with
  | [] => Ret (i, value)
  | b :: bs' =>
      '(i', digit) ← py_divmod i b;
      value' ← append value digit;
      from_int_loop bs' i' value'
  end.

(** [from_int]: the local [value] starts as [...], the ellipsis. *)
Definition from_int (self : t) (i : Z) : outcome (list Z) :=
  '(i, value) ← from_int_loop (base self) i Ellipsis;
  if negb (i =? 0) then Raise ValueError
  else
    match value with
    | PyList l => Ret (reverse l)
    | Ellipsis => Raise AttributeError
    end.

(** [self.max] *)
Definition max (self : t) : Z := order self - 1.

End MixedBase.

(** *** [last_qualified]

    The iterable is a finite sequence; [predicate] may raise. *)

(** The [for cur in iterator: ... else: ...] loop; [prev] is the last
    item that qualified.  When the loop ends by exhaustion the name
    [cur] still holds the last item drawn, which is [prev]. *)
Fixpoint last_qualified_loop {A} (predicate : A → outcome bool)
    (iterator : list A) (prev : A) (return_if_exhausted : bool) : outcome A :=
  match iterator with
  | [] => if return_if_exhausted then Ret prev else Raise ValueError
  | cur :: iterator' =>
      b ← predicate cur;
      if negb b then Ret prev
      else last_qualified_loop predicate iterator' cur return_if_exhausted
  end.

Definition last_qualified {A} (predicate : A → outcome bool)
    (iterable : list A) (return_if_exhausted : bool) : outcome A :=
  match iterable with
  | [] => Raise ValueError
  | cur :: iterator =>
      b ← predicate cur;
      if negb b then Raise ValueError
      else last_qualified_loop predicate iterator cur return_if_exhausted
  end.

(** *** The bijection between integers and strings

    A string is the sequence of what [ord] makes of its items. *)

(** The loop of [string_rank] over [enumerate(map(ord, s))]. *)
Fixpoint string_rank_loop {A} (ord : A → outcome Z) (s : list A) (k : Z)
    (j i offset : Z) : outcome Z :=
  match s with
  | [] => Ret (i + offset)
  | a :: s' =>
      c ← ord a;
      if (0 <=? c) && (c <? k)
      then string_rank_loop ord s' k (j + 1) (i * k + c) (offset + k ^ j)
      else Raise AssertionError
  end.

Definition string_rank {A} (ord : A → outcome Z) (s : list A) (k : Z)
  : outcome Z :=
  string_rank_loop ord s k 0 0 0.

(** The loop [for j in range(length): i, c = divmod(i, k); l.append(c)]. *)
Fixpoint string_unrank_loop (length : nat) (i k : Z) (l : list Z)
  : outcome (Z * list Z) :=
  match length with
  | O => Ret (i, l)
  | S length' =>
      '(i', c) ← py_divmod i k;
      string_unrank_loop length' i' k (l ++ [c])
  end.

Definition string_unrank {B} (t : list Z → outcome B) (fuel : nat) (i k : Z)
  : outcome B :=
  '(length, offset) ← fit_to_epoch fuel i (Callable (λ l, Ret (k ^ l)));
  let i := i - offset in
  '(i, l) ← string_unrank_loop (Z.to_nat length) i k [];
  if negb (i =? 0) then Raise AssertionError
  else t (reverse l).

(** [int(c)] of an item of a [bytes] object, which is an integer. *)
Definition py_int (c : Z) : outcome Z := Ret c.

(** [bytes(l)] of a list of integers: each must be in [range(256)]. *)
Definition py_bytes (l : list Z) : outcome (list Z) :=
  if forallb (λ c, (0 <=? c) && (c <? 256)) l then Ret l
  else Raise ValueError.

(** [rank_octetstring]; a [bytes] object is the list of its octets. *)
Definition rank_octetstring (s : list Z) : outcome Z :=
  string_rank py_int s (2 ^ 8).

Definition unrank_octetstring (fuel : nat) (i : Z) : outcome (list Z) :=
  string_unrank py_bytes fuel i (2 ^ 8).

End Util.

(** * [Tesseract/Multiset.py] *)

Module Multiset.

(** ** Python values stored in a multiset

    Integers, tuples, strings, and plain hashable objects.  [PStr h s]
    is the [str] [s], [h] being its hash in the running interpreter
    (string hashes are salted per process).  [PObj h id] is an instance
    of a class that defines [__hash__] and nothing else: the object of
    identity [id], whose hash is [h]; its [==] is identity, [<] is
    unsupported and it is not iterable.

    The numbers of this model are the integers.  A [float] is not a
    value of it: with [float('nan')], which [==] finds equal to
    nothing and [<] places neither below nor above any number, the
    keys are not totally ordered and the sorted list is outside its
    contract.  What is stated below about numbers is stated about
    integers. *)
Inductive pyval : Type :=
| PInt (z : Z)
| PTuple (xs : list pyval)
| PStr (h : Z) (s : string)
| PObj (h : Z) (id : nat).

(** Comparison of two tuples, item by item. *)
Section Tuples.
Context {A : Type}.

(** [==]: the same length and equal items. *)
Fixpoint tuple_eqb (eqb : A → A → bool) (xs ys : list A) : bool :=
  match xs, ys with
  | [], [] => true
  | a :: xs', b :: ys' => eqb a b && tuple_eqb eqb xs' ys'
  | _, _ => false
  end.

(** [<]: the items at the first position where the tuples differ
    decide; with no such position the shorter tuple is the lesser. *)
Fixpoint tuple_lt (eqb : A → A → bool) (lt : A → A → outcome bool)
    (xs ys : list A) : outcome bool :=
  match xs, ys with
  | [], [] => Ret false
  | [], _ :: _ => Ret true
  | _ :: _, [] => Ret false
  | a :: xs', b :: ys' =>
      if eqb a b then tuple_lt eqb lt xs' ys' else lt a b
  end.

(** The same order as a three-way comparison. *)
Fixpoint lex_compare (cmp : A → A → comparison) (xs ys : list A)
  : comparison :=
  match xs, ys with
  | [], [] => Eq
  | [], _ :: _ => Lt
  | _ :: _, [] => Gt
  | x :: xs', y :: ys' =>
      match cmp x y with
      | Eq => lex_compare cmp xs' ys'
      | c => c
      end
  end.
End Tuples.

(** Python [==] on these values. *)
Fixpoint pyval_eqb (x y : pyval) {struct x} : bool :=
  match x, y with
  | PInt a, PInt b => a =? b
  | PTuple xs, PTuple ys => tuple_eqb pyval_eqb xs ys
  | PStr _ s, PStr _ s' => String.eqb s s'
  | PObj h i, PObj h' i' => (h =? h') && (i =? i')%nat
  | _, _ => false
  end.

(** Python [<] on these values: integers numerically, tuples item by
    item, strings lexicographically; anything else raises [TypeError]. *)
Fixpoint py_lt (x y : pyval) {struct x} : outcome bool :=
  match x, y with
  | PInt a, PInt b => Ret (a <? b)
  | PTuple xs, PTuple ys => tuple_lt pyval_eqb py_lt xs ys
  | PStr _ s, PStr _ s' => Ret (String.ltb s s')
  | _, _ => Raise TypeError
  end.

(** ** The universal key

    [hashable_universal_key] returns the tuples [(0, obj)],
    [(1, tuple(keys))] and [(2, hash(obj))]; [KNum], [KSeq] and [KHash]
    stand for them. *)
Inductive ukey : Type :=
| KNum (z : Z)
| KSeq (ks : list ukey)
| KHash (h : Z).

Fixpoint hashable_universal_key (obj : pyval) : ukey :=
  match obj with
  | PInt z => KNum z
  | PTuple xs => KSeq (map hashable_universal_key xs)
  | PStr h _ => KHash h
  | PObj h _ => KHash h
  end.

(** Comparison of two key tuples: the tags first, then the payloads. *)
Fixpoint ukey_compare (a b : ukey) {struct a} : comparison :=
  match a, b with
  | KNum x, KNum y => x ?= y
  | KNum _, _ => Lt
  | KSeq _, KNum _ => Gt
  | KSeq xs, KSeq ys => lex_compare ukey_compare xs ys
  | KSeq _, KHash _ => Lt
  | KHash x, KHash y => x ?= y
  | KHash _, _ => Gt
  end.

(** [key(x) < key(y)], the only comparison a keyed sort performs. *)
Definition key_lt (x y : pyval) : bool :=
  match ukey_compare (hashable_universal_key x) (hashable_universal_key y) with
  | Lt => true
  | _ => false
  end.

(** ** [sortedcontainers.SortedList(key=hashable_universal_key)]

    The external container, by its contract: the values in
    non-decreasing key order, a new value going to the right of the
    values whose key is equal. *)

(** [SortedKeyList.add] *)
Fixpoint insort (x : pyval) (l : list pyval) : list pyval :=
  match l with
  | [] => [x]
  | y :: l' => if key_lt x y then x :: l else y :: insort x l'
  end.

(** [SortedKeyList.update] *)
Definition sortedlist_update (l iterable : list pyval) : list pyval :=
  foldl (λ acc x, insort x acc) l iterable.

(** [SortedKeyList.remove]: [ValueError] when the value is absent. *)
Fixpoint sortedlist_remove (l : list pyval) (value : pyval)
  : outcome (list pyval) :=
  match l with
  | [] => Raise ValueError
  | y :: l' =>
      if pyval_eqb y value then Ret l'
      else l'' ← sortedlist_remove l' value; Ret (y :: l'')
  end.

(** ** Generators

    What a generator yields before it ends, and how it ends: exhausted
    ([Ret ()]) or by an exception. *)
Record gen (A : Type) : Type := Gen { yielded : list A; finish : outcome unit }.
Arguments Gen {A} yielded finish.
Arguments yielded {A} g.
Arguments finish {A} g.

Definition gen_cons {A} (x : A) (g : gen A) : gen A :=
  Gen (x :: yielded g) (finish g).

Definition gen_fail {A} (o : outcome unit) : gen A := Gen [] o.

(** A generator expression [(expr for x in g if cond)]: [f x] is
    [Ret None] when the condition fails, [Ret (Some y)] for a yielded
    value, and an exception ends the generator. *)
Fixpoint gen_filter_map_list {A B} (f : A → outcome (option B))
    (l : list A) (fin : outcome unit) : gen B :=
  match l with
  | [] => Gen [] fin
  | x :: l' =>
      match f x with
      | Ret (Some y) => gen_cons y (gen_filter_map_list f l' fin)
      | Ret None => gen_filter_map_list f l' fin
      | Raise e => gen_fail (Raise e)
      | OutOfFuel => gen_fail OutOfFuel
      end
  end.

Definition gen_filter_map {A B} (f : A → outcome (option B)) (g : gen A)
  : gen B :=
  gen_filter_map_list f (yielded g) (finish g).

(** [list(g)], and any other consumer that drains the generator. *)
Definition gen_collect {A} (g : gen A) : outcome (list A) :=
  _ ← finish g; Ret (yielded g).

(** [any(g)] over items that are all truthy (non-empty tuples): stops
    at the first item. *)
Definition gen_any {A} (g : gen A) : outcome bool :=
  match yielded g with
  | _ :: _ => Ret true
  | [] => _ ← finish g; Ret false
  end.

(** ** Module-level helpers *)

Definition soft_diff (a b : Z) : Z := Z.max 0 (a - b).

Definition symm_diff (a b : Z) : Z := Z.abs (a - b).

(** [min], [max] and [reduce(f, ...)] of a tuple of counts. *)
Definition py_reduce (f : Z → Z → Z) (counts : list Z) : outcome Z :=
  match counts with
  | [] => Raise TypeError
  | c :: cs => Ret (foldl f c cs)
  end.

Definition py_max (counts : list Z) : outcome Z :=
  match counts with
  | [] => Raise ValueError
  | c :: cs => Ret (foldl Z.max c cs)
  end.

Definition py_min (counts : list Z) : outcome Z :=
  match counts with
  | [] => Raise ValueError
  | c :: cs => Ret (foldl Z.min c cs)
  end.

(** [counts[0]] *)
Definition first_count (counts : list Z) : outcome Z :=
  match counts with
  | [] => Raise IndexError
  | c :: _ => Ret c
  end.

(** *** [joint_groupby], called with [key=None] and [ordered=True]

    [buffer[i]] is the head of the i-th iterator, [None] standing for
    the [stop] sentinel.  [_choice] is [min] under the key
    [(0, val)] / [(1,)], so two buffered values are compared with the
    values' own [<]. *)
Definition choice_key_lt (a b : option pyval) : outcome bool :=
  match a, b with
  | Some x, Some y => if pyval_eqb x y then Ret false else py_lt x y
  | Some _, None => Ret true
  | None, _ => Ret false
  end.

Fixpoint min_from (best : option pyval) (vals : list (option pyval))
  : outcome (option pyval) :=
  match vals with
  | [] => Ret best
  | v :: vals' =>
      b ← choice_key_lt v best;
      min_from (if b : bool then v else best) vals'
  end.

Definition _choice (buffer : list (option pyval)) : outcome (option pyval) :=
  match buffer with
  | [] => Ret None
  | v :: vals => min_from v vals
  end.

(** [_grouper(i, tgtkey)], drained: the run of leading values equal to
    the target, and what is left of the iterator. *)
Fixpoint _grouper (tgtkey : pyval) (it : list pyval)
  : list pyval * list pyval :=
  match it with
  | [] => ([], [])
  | x :: it' =>
      if pyval_eqb x tgtkey
      then let '(g, r) := _grouper tgtkey it' in (x :: g, r)
      else ([], it)
  end.

(** The main loop; every round consumes at least one value, so the
    total number of values bounds the number of rounds. *)
Fixpoint joint_groupby_loop (fuel : nat) (iterables : list (list pyval))
  : gen (pyval * list (list pyval)) :=
  match _choice (map head iterables) with
  | Raise e => gen_fail (Raise e)
  | OutOfFuel => gen_fail OutOfFuel
  | Ret None => Gen [] (Ret ())
  | Ret (Some tgtval) =>
      match fuel with
      | O => gen_fail OutOfFuel
      | S fuel' =>
          let groupers := map (_grouper tgtval) iterables in
          gen_cons (tgtval, map fst groupers)
            (joint_groupby_loop fuel' (map snd groupers))
      end
  end.

Definition joint_groupby (iterables : list (list pyval))
  : gen (pyval * list (list pyval)) :=
  joint_groupby_loop (length (concat iterables)) iterables.

Definition joint_group_count (iterables : list (list pyval))
  : gen (pyval * list Z) :=
  gen_filter_map
    (λ '(x, groups), Ret (Some (x, map (λ group, Z.of_nat (length group)) groups)))
    (joint_groupby iterables).

(** ** The class [Multiset]: its state is the private sorted list. *)
Abbreviation Multiset := (list pyval) (only parsing).

Definition extend (self : Multiset) (iterable : list pyval) : Multiset :=
  sortedlist_update self iterable.

(** [Multiset(iterable)] *)
Definition __init__ (iterable : list pyval) : Multiset := extend [] iterable.

(** [__iter__] *)
Definition __iter__ (self : Multiset) : list pyval := self.

(** [__len__] *)
Definition __len__ (self : Multiset) : Z := Z.of_nat (length self).

Definition count (self : Multiset) (elem : pyval) : Z :=
  Z.of_nat (length (filter (λ y, pyval_eqb y elem = true) self)).

Definition add (self : Multiset) (elem : pyval) : Multiset :=
  extend self [elem].

Definition discard (self : Multiset) (elem : pyval) : Multiset :=
  filter (λ y, pyval_eqb y elem = false) self.

Definition pop (self : Multiset) : outcome (pyval * Multiset) :=
  match self with
  | [] => Raise KeyError
  | x :: l => Ret (x, l)
  end.

Definition clear (self : Multiset) : Multiset := [].

Definition copy (self : Multiset) : Multiset := __init__ (__iter__ self).

(** [from_multiplicities]: [chain.from_iterable(starmap(repeat, items))]
    fed to the constructor. *)
Definition from_multiplicities (items : gen (pyval * Z)) : outcome Multiset :=
  l ← gen_collect items;
  Ret (__init__ (concat (map (λ '(elem, n), replicate (Z.to_nat n) elem) l))).

Definition __union_items (self : Multiset) (others : list Multiset)
    (delta : bool) : gen (pyval * Z) :=
  let it := joint_group_count (__iter__ self :: map __iter__ others) in
  if negb delta then
    gen_filter_map (λ '(elem, counts),
        m ← py_max counts;
        Ret (if m >? 0 then Some (elem, m) else None)) it
  else
    gen_filter_map (λ '(elem, counts),
        m ← py_max counts;
        c0 ← first_count counts;
        Ret (if m >? c0 then Some (elem, m - c0) else None)) it.

Definition __intersection_items (self : Multiset) (others : list Multiset)
    (delta : bool) : gen (pyval * Z) :=
  let it := joint_group_count (__iter__ self :: map __iter__ others) in
  if negb delta then
    gen_filter_map (λ '(elem, counts),
        m ← py_min counts;
        Ret (if m >? 0 then Some (elem, m) else None)) it
  else
    gen_filter_map (λ '(elem, counts),
        m ← py_min counts;
        c0 ← first_count counts;
        Ret (if m <? c0 then Some (elem, c0 - m) else None)) it.

Definition __difference_items (self : Multiset) (others : list Multiset)
    (delta : bool) : gen (pyval * Z) :=
  let it := joint_group_count (__iter__ self :: map __iter__ others) in
  if negb delta then
    gen_filter_map (λ '(elem, counts),
        m ← py_reduce soft_diff counts;
        Ret (if m >? 0 then Some (elem, m) else None)) it
  else
    gen_filter_map (λ '(elem, counts),
        m ← py_reduce soft_diff counts;
        c0 ← first_count counts;
        Ret (if m <? c0 then Some (elem, c0 - m) else None)) it.

(** With [delta=True] the yielded expression reads [counts[0]], and no
    [counts] is bound in that generator: the first item that passes
    the filter raises [NameError]. *)
Definition __symmetric_difference_items (self other : Multiset)
    (delta : bool) : gen (pyval * Z) :=
  let it := joint_group_count [__iter__ self; __iter__ other] in
  if negb delta then
    gen_filter_map (λ '(elem, counts),
        match counts with
        | [self_count; other_count] =>
            Ret (if negb (self_count =? other_count)
                 then Some (elem, symm_diff self_count other_count)
                 else None)
        | _ => Raise ValueError
        end) it
  else
    gen_filter_map (λ '(elem, counts),
        match counts with
        | [self_count; other_count] =>
            if other_count >? 0 then Raise NameError else Ret None
        | _ => Raise ValueError
        end) it.

Definition isdisjoint (self other : Multiset) : outcome bool :=
  b ← gen_any (__intersection_items self [other] false); Ret (negb b).

Definition issubset (self other : Multiset) : outcome bool :=
  b ← gen_any (__intersection_items self [other] true); Ret (negb b).

Definition issuperset (self other : Multiset) : outcome bool :=
  b ← gen_any (__union_items self [other] true); Ret (negb b).

Definition union (self : Multiset) (others : list Multiset)
  : outcome Multiset :=
  from_multiplicities (__union_items self others false).

Definition intersection (self : Multiset) (others : list Multiset)
  : outcome Multiset :=
  from_multiplicities (__intersection_items self others false).

Definition difference (self : Multiset) (others : list Multiset)
  : outcome Multiset :=
  from_multiplicities (__difference_items self others false).

Definition symmetric_difference (self other : Multiset) : outcome Multiset :=
  from_multiplicities (__symmetric_difference_items self other false).

(** [__eq__] between two multisets *)
Definition __eq__ (self other : Multiset) : outcome bool :=
  b ← gen_any (__symmetric_difference_items self other false); Ret (negb b).

(** [__add_quantity] *)
Definition __add_quantity (self : Multiset) (elem : pyval) (n : Z) : Multiset :=
  extend self (replicate (Z.to_nat n) elem).

(** [__remove_quantity]: [map_immed_noretval(remove, repeat(elem, count),
    splat=True)] runs [starmap], which unpacks every item, here [elem]
    itself, into the argument list of [remove].  The call goes through
    when the unpacking gives exactly one argument: a tuple of one item,
    or a string of one character (that character is the string). *)
Definition starmap_args (item : pyval) : outcome pyval :=
  match item with
  | PTuple [value] => Ret value
  | PStr h s => if (String.length s =? 1)%nat then Ret (PStr h s)
                else Raise TypeError
  | _ => Raise TypeError
  end.

Fixpoint __remove_quantity_loop (n : nat) (self : Multiset) (elem : pyval)
  : outcome Multiset :=
  match n with
  | O => Ret self
  | S n' =>
      value ← starmap_args elem;
      self' ← sortedlist_remove self value;
      __remove_quantity_loop n' self' elem
  end.

Definition __remove_quantity (self : Multiset) (elem : pyval) (n : Z)
  : outcome Multiset :=
  __remove_quantity_loop (Z.to_nat n) self elem.

(** [__include_quantity] *)
Definition __include_quantity (self : Multiset) (elem : pyval) (n : Z)
  : outcome Multiset :=
  if n <? 0 then __remove_quantity self elem (- n)
  else Ret (__add_quantity self elem n).

(** [map_immed_noretval(f, deltas, splat=True)] over a list of
    [(elem, count)] pairs, threading the mutated multiset. *)
Fixpoint apply_deltas (f : Multiset → pyval → Z → outcome Multiset)
    (self : Multiset) (deltas : list (pyval * Z)) : outcome Multiset :=
  match deltas with
  | [] => Ret self
  | (elem, n) :: deltas' =>
      self' ← f self elem n; apply_deltas f self' deltas'
  end.

Definition update (self : Multiset) (others : list Multiset)
  : outcome Multiset :=
  deltas ← gen_collect (__union_items self others true);
  apply_deltas (λ s e n, Ret (__add_quantity s e n)) self deltas.

Definition intersection_update (self : Multiset) (others : list Multiset)
  : outcome Multiset :=
  deltas ← gen_collect (__intersection_items self others true);
  apply_deltas __remove_quantity self deltas.

Definition difference_update (self : Multiset) (others : list Multiset)
  : outcome Multiset :=
  deltas ← gen_collect (__difference_items self others true);
  apply_deltas __remove_quantity self deltas.

Definition symmetric_difference_update (self other : Multiset)
  : outcome Multiset :=
  deltas ← gen_collect (__symmetric_difference_items self other true);
  apply_deltas __include_quantity self deltas.


(** [SortedKeyList.__contains__], by its contract: the list holds a
    value equal to [value] (equal values have equal keys). *)
Definition sortedlist_contains (l : list pyval) (value : pyval) : bool :=
  existsb (λ y, pyval_eqb y value) l.

(** [SortedKeyList.discard]: takes one occurrence out, if there is one. *)
Fixpoint sortedlist_discard (l : list pyval) (value : pyval) : list pyval :=
  match l with
  | [] => []
  | y :: l' =>
      if pyval_eqb y value then l' else y :: sortedlist_discard l' value
  end.

(** [__contains__] *)
Definition __contains__ (self : Multiset) (elem : pyval) : bool :=
  sortedlist_contains self elem.

(** The loop of [discard] as written:
    [while elem in self: self.__sortedlist.discard(elem)]. *)
Fixpoint discard_loop (fuel : nat) (self : Multiset) (elem : pyval)
  : outcome Multiset :=
  if __contains__ self elem then
    match fuel with
    | O => OutOfFuel
    | S fuel' => discard_loop fuel' (sortedlist_discard self elem) elem
    end
  else Ret self.

(** [__add__]: [result = self.copy(); result.extend(other)] *)
Definition __add__ (self other : Multiset) : Multiset :=
  extend (copy self) (__iter__ other).

(** [__iadd__] *)
Definition __iadd__ (self other : Multiset) : Multiset :=
  extend self (__iter__ other).

(** [__le__] and [__ge__] *)
Definition __le__ (self other : Multiset) : outcome bool := issubset self other.

Definition __ge__ (self other : Multiset) : outcome bool :=
  issuperset self other.

(** [self != other]: the negation of [__eq__]. *)
Definition __ne__ (self other : Multiset) : outcome bool :=
  b ← __eq__ self other; Ret (negb b).

(** [__lt__]: [self <= other and self != other] *)
Definition __lt__ (self other : Multiset) : outcome bool :=
  b ← __le__ self other;
  if b : bool then __ne__ self other else Ret false.

(** [__gt__]: [self >= other and self != other] *)
Definition __gt__ (self other : Multiset) : outcome bool :=
  b ← __ge__ self other;
  if b : bool then __ne__ self other else Ret false.

(** [d[k] = v] on a dictionary kept as its items in insertion order: a
    key that is present keeps its place and takes the new value. *)
Fixpoint dict_setitem (d : list (pyval * Z)) (k : pyval) (v : Z)
  : list (pyval * Z) :=
  match d with
  | [] => [(k, v)]
  | (k', v') :: d' =>
      if pyval_eqb k' k then (k', v) :: d'
      else (k', v') :: dict_setitem d' k v
  end.

(** [_asdict]: the dictionary comprehension over the items of
    [__difference_items(delta=False)] with no other operand. *)
Definition _asdict (self : Multiset) : outcome (list (pyval * Z)) :=
  items ← gen_collect (__difference_items self [] false);
  Ret (foldl (λ d '(elem, n), dict_setitem d elem n) [] items).

(** [from_counter(counter)]: [from_multiplicities(counter.items())] *)
Definition from_counter (counter : list (pyval * Z)) : outcome Multiset :=
  from_multiplicities (Gen counter (Ret ())).

End Multiset.

(** * [Tesseract/macaulay.py]

    The name [Multiset] that the module imports from the package is
    taken to be the class of [Multiset.py]. *)

Module Macaulay.

Import Multiset.

(** [range(k, 0, -1)]: [k, k-1, ..., 1] *)
Definition range_down (k : Z) : list Z :=
  (λ t, Z.of_nat t) <$> reverse (seq 1 (Z.to_nat k)).

(** [range(k)]: [0, 1, ..., k-1] *)
Definition range (k : Z) : list Z :=
  (λ t, Z.of_nat t) <$> seq 0 (Z.to_nat k).

(** [sorted] of integers *)
Definition sorted (l : list Z) : list Z := merge_sort Z.le l.

(** [enumerate(l, start)] *)
Fixpoint enumerate {A} (start : Z) (l : list A) : list (Z * A) :=
  match l with
  | [] => []
  | x :: l' => (start, x) :: enumerate (start + 1) l'
  end.

(** [sum] of a generator of fallible terms *)
Fixpoint py_sum {A} (f : A → outcome Z) (l : list A) : outcome Z :=
  match l with
  | [] => Ret 0
  | x :: l' => c ← f x; rest ← py_sum f l'; Ret (c + rest)
  end.

(** The predicate handed to the search: [lambda n: not comb(n, j) > remainder] *)
Definition fits (j remainder n : Z) : outcome bool :=
  c ← comb n j; Ret (negb (c >? remainder)).

(** The [for j in range(k, 0, -1)] loop of [integer_to_combination];
    returns the set and the remainder it leaves. *)
Fixpoint integer_to_combination_loop (fuel : nat) (js : list Z)
    (remainder : Z) (s : gset Z) : outcome (gset Z * Z) :=
  match js with
  | [] => Ret (s, remainder)
  | j :: js' =>
      elem ← Util.search_maxsatisfying fuel (fits j remainder) 0;
      if decide (elem ∈ s) then Raise AssertionError
      else
        c ← comb elem j;
        integer_to_combination_loop fuel js' (remainder - c) ({[elem]} ∪ s)
  end.

Definition integer_to_combination (fuel : nat) (i k : Z) : outcome (gset Z) :=
  if i <? 0 then Raise ValueError
  else if (k <? 1) && (i >? 0) then Raise ValueError
  else
    '(s, remainder) ← integer_to_combination_loop fuel (range_down k) i ∅;
    if negb (remainder =? 0) then Raise AssertionError else Ret s.

Definition combination_to_integer (s : gset Z) : outcome Z :=
  py_sum (λ '(j, elem), comb elem j) (enumerate 1 (sorted (elements s))).

(** The integers held by a multiset; any other element makes
    [sorted(ms)] or [elem + offset] raise [TypeError]. *)
Fixpoint as_integers (l : list pyval) : outcome (list Z) :=
  match l with
  | [] => Ret []
  | PInt z :: l' => zs ← as_integers l'; Ret (z :: zs)
  | _ :: _ => Raise TypeError
  end.

Definition combination_to_multiset (s : gset Z) : list pyval :=
  __init__ ((λ '(offset, elem), PInt (elem - offset))
          <$> enumerate 0 (sorted (elements s))).

Definition multiset_to_combination (ms : list pyval) : outcome (gset Z) :=
  zs ← as_integers (__iter__ ms);
  Ret (list_to_set ((λ '(offset, elem), elem + offset)
                      <$> enumerate 0 (sorted zs))).

Definition multicomb (n k : Z) : outcome Z := comb (n + k - 1) k.

Definition multiset_to_integer (ms : list pyval) : outcome Z :=
  s ← multiset_to_combination ms; combination_to_integer s.

Definition integer_to_multiset (fuel : nat) (i k : Z) : outcome (list pyval) :=
  s ← integer_to_combination fuel i k; Ret (combination_to_multiset s).

Definition integer_to_varmultiset (fuel : nat) (i n : Z)
  : outcome (list pyval) :=
  '(k, offset) ← Util.fit_to_epoch fuel i (Util.Callable (λ k, multicomb n k));
  integer_to_multiset fuel (i - offset) k.

Definition varmultiset_to_integer (ms : list pyval) (n : Z) : outcome Z :=
  let k := __len__ ms in
  offset ← py_sum (λ k, multicomb n k) (range k);
  r ← multiset_to_integer ms;
  Ret (r + offset).

Definition integer_to_varcombination (fuel : nat) (i n : Z)
  : outcome (gset Z) :=
  '(k, epoch_offset) ← Util.fit_to_epoch fuel i (Util.Callable (λ k, comb n k));
  integer_to_combination fuel (i - epoch_offset) k.

End Macaulay.

(** * Notions used in the statements *)

(** The cumulative size of the epochs before [e]. *)
Fixpoint prefix_sum (sizes : nat → Z) (e : nat) : Z :=
  match e with
  | O => 0
  | S e' => prefix_sum sizes e' + sizes e'
  end.

(** C(x, j) on integers. *)
Definition choose (x : Z) (j : nat) : Z :=
  Z.of_nat (binomial (Z.to_nat x) j).

(** The place of an ascending list in the combinatorial number system:
    the sum of C(element, position), the first position being [start]. *)
Fixpoint rank (start : nat) (l : list Z) : Z :=
  match l with
  | [] => 0
  | x :: l' => choose x start + rank (S start) l'
  end.

(** The digit ranges as the specification words them: digit [j] below
    radix [j]. *)
Definition digits_in_range (bs ds : list Z) : Prop :=
  Forall2 (λ b d, 0 ≤ d < b) bs ds.

(** The most-significant-first fold [acc = acc*b + d] over paired
    radixes and digits. *)
Definition msd_first_value (bs ds : list Z) : Z :=
  foldl (λ acc '(b, d), acc * b + d) 0 (zip bs ds).

(** [key(x) <= key(y)], that is, not [key(y) < key(x)]. *)
Definition key_le (x y : Multiset.pyval) : Prop := Multiset.key_lt y x = false.

(** Iteration in non-decreasing universal-key order. *)
Definition canonical (self : list Multiset.pyval) : Prop := Sorted key_le self.

(** No two distinct elements of [l] share a universal key. *)
Definition key_injective_on (l : list Multiset.pyval) : Prop :=
  ∀ x y, x ∈ l → y ∈ l →
    Multiset.hashable_universal_key x = Multiset.hashable_universal_key y →
    x = y.

(** Values built from integers and tuples only. *)
Fixpoint object_free (x : Multiset.pyval) : bool :=
  match x with
  | Multiset.PInt _ => true
  | Multiset.PTuple xs => forallb object_free xs
  | Multiset.PStr _ _ => false
  | Multiset.PObj _ _ => false
  end.


(** The strings ["a"] and ["b"] in an interpreter whose salt hashes
    ["b"] below ["a"]. *)
Definition str_a : Multiset.pyval := Multiset.PStr 2 "a".
Definition str_b : Multiset.pyval := Multiset.PStr 1 "b".

(** Two distinct objects whose class hashes every instance to 0. *)
Definition twin_a : Multiset.pyval := Multiset.PObj 0 1.
Definition twin_b : Multiset.pyval := Multiset.PObj 0 2.

(** The lesser of two buffered integers, [None] being the [stop]
    sentinel. *)
Definition omin (best v : option Z) : option Z :=
  match v, best with
  | Some x, Some y => if x <? y then v else best
  | Some _, None => v
  | None, _ => best
  end.

(** The number of times [x] occurs in a list of integers. *)
Definition occurrences (zs : list Z) (x : Z) : Z :=
  Z.of_nat (length (filter (λ z, z = x) zs)).

(** Whether a list has an item. *)
Definition nonempty {A} (l : list A) : bool :=
  match l with
  | [] => false
  | _ :: _ => true
  end.

(** The distinct integers of several lists, ascending. *)
Definition distinct_keys (zss : list (list Z)) : list Z :=
  Macaulay.sorted (elements (list_to_set (concat zss) : gset Z)).

(** The value of a digit string in radix [k], first digit most
    significant. *)
Definition string_value (k : Z) (s : list Z) : Z :=
  foldl (λ acc c, acc * k + c) 0 s.

(** The number of strings shorter than [n] over [k] symbols. *)
Definition shorter_strings (k : Z) (n : nat) : Z :=
  prefix_sum (λ l, k ^ Z.of_nat l) n.

(** What follows the items that [last_qualified] accepts: an item that
    does not qualify, or nothing when [return_if_exhausted] is set. *)
Definition run_ends {A} (p : A → bool) (post : list A)
    (return_if_exhausted : bool) : Prop :=
  match post with
  | [] => return_if_exhausted = true
  | y :: _ => p y = false
  end.

(** A combination as a multiset, on ascending lists: the j-th element
    less j; and back. *)
Definition shift_down (start : Z) (l : list Z) : list Z :=
  (λ '(offset, elem), elem - offset) <$> Macaulay.enumerate start l.

Definition shift_up (start : Z) (l : list Z) : list Z :=
  (λ '(offset, elem), elem + offset) <$> Macaulay.enumerate start l.

(** The number of multisets of [j] elements over [n] symbols. *)
Definition multisets_of_size (n : Z) (j : nat) : Z :=
  choose (n + Z.of_nat j - 1) j.

(** A combination used to exercise the round trip: its rank is 72. *)
Definition sample_combination : gset Z := {[0; 1; 3; 6; 8]}.

(** * Properties *)

(** ** Binomial coefficients *)

Section Binomial.
Local Open Scope nat_scope.

Lemma binomial_0_r n : binomial n 0 = 1.
Proof. by destruct n. Qed.

Lemma binomial_succ n k :
  binomial (S n) (S k) = binomial n k + binomial n (S k).
Proof. reflexivity. Qed.

Lemma binomial_small n : ∀ k, n < k → binomial n k = 0.
Proof.
  induction n as [|n IH]; intros [|k] Hlt; try lia; [done|].
  rewrite binomial_succ, !IH by lia. done.
Qed.

Lemma binomial_diag n : binomial n n = 1.
Proof.
  induction n as [|n IH]; [done|].
  rewrite binomial_succ, IH, binomial_small by lia. done.
Qed.

Lemma binomial_1_r n : binomial n 1 = n.
Proof.
  induction n as [|n IH]; [done|].
  rewrite binomial_succ, IH, binomial_0_r. lia.
Qed.

Lemma binomial_pos n : ∀ k, k ≤ n → 1 ≤ binomial n k.
Proof.
  induction n as [|n IH]; intros [|k] Hle; simpl; try lia.
  specialize (IH k). lia.
Qed.

Lemma binomial_step n k : binomial n k ≤ binomial (S n) k.
Proof. destruct k; [by rewrite !binomial_0_r|]. rewrite binomial_succ. lia. Qed.

Lemma binomial_mono n m k : n ≤ m → binomial n k ≤ binomial m k.
Proof.
  induction 1 as [|m _ IH]; [done|].
  etrans; [exact IH|apply binomial_step].
Qed.

Lemma binomial_lower n : ∀ k, 1 ≤ k ≤ n → n - k + 1 ≤ binomial n k.
Proof.
  induction n as [|n IH]; intros [|k] Hk; try lia.
  rewrite binomial_succ.
  destruct (decide (k = n)) as [->|Hne].
  - pose proof (binomial_pos n n). lia.
  - pose proof (binomial_pos n k). specialize (IH (S k)). lia.
Qed.

(** Absorption: (k+1) C(n+1,k+1) = (n+1) C(n,k). *)
Lemma binomial_absorb n : ∀ k,
  S k * binomial (S n) (S k) = S n * binomial n k.
Proof.
  induction n as [|n IH]; intros k.
  - destruct k as [|k]; [done|].
    rewrite binomial_succ. simpl. lia.
  - destruct k as [|k].
    + rewrite binomial_1_r, binomial_0_r. lia.
    + rewrite (binomial_succ (S n) (S k)).
      pose proof (IH k) as H1. pose proof (IH (S k)) as H2.
      pose proof (binomial_succ n k) as H3.
      assert (S n * binomial (S n) (S k)
              = S n * binomial n k + S n * binomial n (S k)) as H4
        by (rewrite H3; lia).
      lia.
Qed.

(** The closed form behind [math.comb]: C(n+k, k) = (n+k)! / (k! n!). *)
Lemma binomial_factorial k : ∀ n,
  binomial (n + k) k * fact k * fact n = fact (n + k).
Proof.
  induction k as [|k IH]; intros n.
  - rewrite Nat.add_0_r, binomial_0_r. cbn. lia.
  - replace (n + S k) with (S (n + k)) by lia.
    pose proof (binomial_absorb (n + k) k) as Habs.
    pose proof (IH n) as Hrec.
    change (fact (S k)) with (S k * fact k).
    change (fact (S (n + k))) with (S (n + k) * fact (n + k)).
    rewrite <-Hrec. 
    transitivity (S k * binomial (S (n + k)) (S k) * (fact k * fact n)); [lia|].
    rewrite Habs. lia.
Qed.

End Binomial.

Lemma comb_mul_binomial k : ∀ n : nat,
  comb_mul (Z.of_nat n) k = Z.of_nat (binomial n k).
Proof.
  induction k as [|k IH]; intros n.
  - by rewrite binomial_0_r.
  - cbn [comb_mul]. destruct n as [|n].
    + by rewrite Z.mul_0_r.
    + replace (Z.of_nat (S n) - 1) with (Z.of_nat n) by lia.
      rewrite IH. symmetry. apply Z.div_unique_exact; [lia|].
      pose proof (binomial_absorb n k). nia.
Qed.

(** [math.comb] on non-negative arguments is the binomial coefficient. *)
Lemma comb_binomial (n k : nat) :
  comb (Z.of_nat n) (Z.of_nat k) = Ret (Z.of_nat (binomial n k)).
Proof.
  unfold comb. rewrite !(proj2 (Z.ltb_ge _ 0)) by lia. cbn.
  by rewrite Nat2Z.id, comb_mul_binomial.
Qed.

Lemma comb_nonneg (n k : Z) :
  0 ≤ n → 0 ≤ k →
  comb n k = Ret (Z.of_nat (binomial (Z.to_nat n) (Z.to_nat k))).
Proof.
  intros Hn Hk. rewrite <-comb_binomial. by rewrite !Z2Nat.id.
Qed.

(** ** [search_maxsatisfying] *)

Section Search.

Import Util.

Variable predicate : Z → outcome bool.
Variable p : Z → bool.
Variables initial N : Z.
Hypothesis Hinitial : 0 ≤ initial.
Hypothesis Hpure : ∀ n, initial ≤ n → predicate n = Ret (p n).
Hypothesis Hfalse : ∀ n, N ≤ n → p n = false.

Lemma approach_spec fuel : ∀ lower upper,
  initial ≤ lower → lower < upper → 1 ≤ upper → p lower = true →
  upper - lower ≤ Z.max 1 (N * 2 ^ 63) →
  N - upper < Z.of_nat fuel →
  ∃ lo up,
    approach fuel predicate default_increasefunc lower upper = Ret (lo, up)
    ∧ initial ≤ lo ∧ lo < up ∧ p lo = true ∧ p up = false
    ∧ up - lo ≤ Z.max 1 (N * 2 ^ 63).
Proof.
  induction fuel as [|fuel IH]; intros lower upper Hlo Hlt Hup Hp Hgap Hfuel.
  - cbn [approach]. rewrite Hpure by lia. cbn.
    destruct (p upper) eqn:Hpu.
    + destruct (Z.le_gt_cases N upper) as [HN|HN];
        [rewrite Hfalse in Hpu by done; done | lia].
    + exists lower, upper. done.
  - cbn [approach]. rewrite Hpure by lia. cbn.
    destruct (p upper) eqn:Hpu.
    + assert (upper < N) as HN.
      { destruct (Z.le_gt_cases N upper) as [HN|HN]; [|lia].
        rewrite Hfalse in Hpu by done. done. }
      unfold default_increasefunc at 2, sys_maxsize.
      apply IH; first [lia|done].
    + exists lower, upper. done.
Qed.

Lemma bisect_spec fuel : ∀ lo up,
  initial ≤ lo → lo < up → p lo = true → p up = false →
  up - lo ≤ 2 ^ Z.of_nat fuel →
  ∃ g, bisect fuel predicate lo up lo = Ret g
       ∧ initial ≤ g ∧ p g = true ∧ p (g + 1) = false.
Proof.
  induction fuel as [|fuel IH]; intros lo up Hlo Hlt Hp Hq Hgap.
  - cbn [bisect]. change (2 ^ Z.of_nat 0) with 1 in Hgap.
    assert ((up - lo >? 1) = false) as -> by lia.
    exists lo. replace (lo + 1) with up by lia. done.
  - cbn [bisect]. destruct (up - lo >? 1) eqn:Hwide.
    + rewrite Nat2Z.inj_succ, Z.pow_succ_r in Hgap by lia.
      set (guess := lo + (up - lo) `div` 2).
      assert (lo < guess < up ∧ guess - lo ≤ 2 ^ Z.of_nat fuel
              ∧ up - guess ≤ 2 ^ Z.of_nat fuel) as (Hg & Hl & Hr)
        by (subst guess; clear IH; Z.div_mod_to_equations; lia).
      rewrite Hpure by lia. cbn.
      destruct (p guess) eqn:Hpg; cbn; apply IH; first [lia|done].
    + exists lo. replace (lo + 1) with up by lia. done.
Qed.

(** With enough fuel the search returns, and what it returns sits on
    the boundary of the predicate. *)
Lemma search_maxsatisfying_boundary fuel :
  p initial = true →
  (Z.to_nat N + 64 ≤ fuel)%nat →
  ∃ g, search_maxsatisfying fuel predicate initial = Ret g
       ∧ initial ≤ g ∧ p g = true ∧ p (g + 1) = false.
Proof.
  intros Hp Hfuel.
  assert (initial < N) as HN.
  { destruct (Z.le_gt_cases N initial) as [H|H]; [|lia].
    rewrite Hfalse in Hp by done. done. }
  unfold search_maxsatisfying, search_maxsatisfying_with.
  assert ((initial <? 0) = false) as -> by lia.
  rewrite Hpure by lia. cbn. rewrite Hp. cbn.
  destruct (approach_spec fuel initial (initial + 1))
    as (lo & up & -> & Hlo & Hlt & Hplo & Hpup & Hgap); try lia; try done.
  cbn.
  destruct (bisect_spec fuel lo up) as (g & -> & Hg & Hpg & Hpg1);
    try done.
  { etrans; [exact Hgap|]. apply Z.max_lub.
    - apply (Z.pow_le_mono_r 2 0); lia.
    - trans (2 ^ N * 2 ^ 63).
      + apply Z.mul_le_mono_nonneg_r; [lia|].
        pose proof (Z.pow_gt_lin_r 2 N). lia.
      + rewrite <-Z.pow_add_r by lia. apply Z.pow_le_mono_r; lia. }
  cbn. rewrite !Hpure by lia. cbn. rewrite Hpg. cbn. rewrite Hpg1.
  exists g. done.
Qed.

(** X2. From a non-negative [initial] at which the predicate is false
    the search raises [ValueError] before it probes anything else. *)
Lemma search_maxsatisfying_precondition fuel :
  p initial = false →
  search_maxsatisfying fuel predicate initial = Raise ValueError.
Proof.
  intros Hp. unfold search_maxsatisfying, search_maxsatisfying_with.
  assert ((initial <? 0) = false) as -> by lia.
  rewrite Hpure by lia. cbn. by rewrite Hp.
Qed.

(** X1. From a non-negative [initial] at which the predicate holds,
    and for a predicate that is false from some [N] on and never turns
    true again, the search returns the greatest satisfying integer;
    the predicate holds there and fails at the next integer. *)
Lemma search_maxsatisfying_greatest fuel :
  (∀ n m, initial ≤ n → n ≤ m → p m = true → p n = true) →
  p initial = true →
  (Z.to_nat N + 64 ≤ fuel)%nat →
  ∃ g, search_maxsatisfying fuel predicate initial = Ret g
       ∧ initial ≤ g ∧ p g = true ∧ p (g + 1) = false
       ∧ ∀ n, initial ≤ n → p n = true → n ≤ g.
Proof.
  intros Hmono Hp Hfuel.
  destruct (search_maxsatisfying_boundary fuel Hp Hfuel)
    as (g & Hrun & Hg & Hpg & Hpg1).
  exists g. repeat split; try done.
  intros n Hn Hpn. destruct (Z.le_gt_cases n g) as [|Hgt]; [done|].
  rewrite (Hmono (g + 1) n) in Hpg1; [done|lia|lia|done].
Qed.

End Search.

Lemma search_maxsatisfying_greatest_witness :
  ∃ g, Util.search_maxsatisfying 100 (λ n, Ret (n * n <=? 50)) 0 = Ret g
       ∧ 0 ≤ g ∧ (g * g <=? 50) = true ∧ ((g + 1) * (g + 1) <=? 50) = false
       ∧ ∀ n, 0 ≤ n → (n * n <=? 50) = true → n ≤ g.
Proof.
  apply (search_maxsatisfying_greatest
           (λ n, Ret (n * n <=? 50)) (λ n, n * n <=? 50) 0 8).
  - lia.
  - done.
  - intros n Hn. nia.
  - intros n m Hn Hnm Hm. nia.
  - reflexivity.
  - simpl. lia.
Defined.

Lemma search_maxsatisfying_precondition_witness :
  Util.search_maxsatisfying 100 (λ n, Ret (n * n <=? 50)) 8 = Raise ValueError.
Proof.
  apply (search_maxsatisfying_precondition _ (λ n, n * n <=? 50)).
  - lia.
  - done.
  - reflexivity.
Defined.

(** C7. A negative [initial] takes the offset branch, whose call goes
    through the unbound name [_search_maxsatisfying]: the search raises
    [NameError] instead of returning the greatest satisfying integer. *)
Theorem search_maxsatisfying_negative_initial fuel predicate initial :
  initial < 0 →
  Util.search_maxsatisfying fuel predicate initial = Raise NameError.
Proof.
  intros Hneg. unfold Util.search_maxsatisfying, Util.search_maxsatisfying_with.
  by assert ((initial <? 0) = true) as -> by lia.
Qed.

Lemma search_maxsatisfying_negative_initial_witness :
  -1 < 0 ∧
  Util.search_maxsatisfying 100 (λ n, Ret (n <=? 0)) (-1) = Raise NameError.
Proof.
  split; [lia|]. apply search_maxsatisfying_negative_initial. lia.
Defined.

(** The scenario of the specification: the greatest [n] with
    [n*n <= 50], searched from 0. *)
Example search_maxsatisfying_square :
  Util.search_maxsatisfying 100 (λ n, Ret (n * n <=? 50)) 0 = Ret 7.
Proof. vm_compute. reflexivity. Qed.

(** ** [fit_to_epoch] *)

Section FitToEpoch.

Import Util.

Variable epochs : epochs_arg.
Variable sizes : nat → Z.

Lemma fit_loop_spec i e d : ∀ fuel idx,
  (∀ n, (n ≤ e)%nat → epochs_next epochs n = Some (Ret (sizes n))) →
  (idx + d = e)%nat → (d ≤ fuel)%nat →
  (∀ e', (idx ≤ e' < e)%nat → prefix_sum sizes (S e') < i) →
  i ≤ prefix_sum sizes (S e) →
  fit_loop fuel i epochs idx (prefix_sum sizes idx)
  = Ret (Z.of_nat e, prefix_sum sizes e).
Proof.
  induction d as [|d IH]; intros fuel idx Hnext Hid Hfuel Hbefore Hfit.
  - replace idx with e by lia.
    destruct fuel; cbn [fit_loop]; rewrite Hnext by done; cbn;
      cbn [prefix_sum] in Hfit;
      by assert ((i - prefix_sum sizes e >? sizes e) = false) as -> by lia.
  - destruct fuel as [|fuel]; [lia|].
    cbn [fit_loop]. rewrite Hnext by lia. cbn.
    pose proof (Hbefore idx ltac:(lia)) as Hidx. cbn [prefix_sum] in Hidx.
    assert ((i - prefix_sum sizes idx >? sizes idx) = true) as -> by lia.
    apply (IH fuel (S idx)); [done|lia|lia| |done].
    intros e' He'. apply Hbefore. lia.
Qed.

Lemma fit_loop_exhausted i e d : ∀ fuel idx,
  (∀ n, (n < e)%nat → epochs_next epochs n = Some (Ret (sizes n))) →
  epochs_next epochs e = None →
  (idx + d = e)%nat → (d ≤ fuel)%nat →
  (∀ e', (idx ≤ e' < e)%nat → prefix_sum sizes (S e') < i) →
  fit_loop fuel i epochs idx (prefix_sum sizes idx) = Raise ValueError.
Proof.
  induction d as [|d IH]; intros fuel idx Hnext Hend Hid Hfuel Hbefore.
  - replace idx with e by lia. destruct fuel; cbn [fit_loop]; by rewrite Hend.
  - destruct fuel as [|fuel]; [lia|].
    cbn [fit_loop]. rewrite Hnext by lia. cbn.
    pose proof (Hbefore idx ltac:(lia)) as Hidx. cbn [prefix_sum] in Hidx.
    assert ((i - prefix_sum sizes idx >? sizes idx) = true) as -> by lia.
    apply (IH fuel (S idx)); [done|done|lia|lia|].
    intros e' He'. apply Hbefore. lia.
Qed.

(** X3. What [fit_to_epoch] computes: the first epoch [e] whose
    cumulative end reaches [i], the end itself included, with the
    cumulative size of the epochs before it. *)
Lemma fit_to_epoch_spec fuel i e :
  (∀ n, (n ≤ e)%nat → epochs_next epochs n = Some (Ret (sizes n))) →
  (e ≤ fuel)%nat →
  (∀ e', (e' < e)%nat → prefix_sum sizes (S e') < i) →
  i ≤ prefix_sum sizes (S e) →
  fit_to_epoch fuel i epochs = Ret (Z.of_nat e, prefix_sum sizes e).
Proof.
  intros Hnext Hfuel Hbefore Hfit.
  apply (fit_loop_spec i e e fuel 0%nat); [done|lia|done| |done].
  intros e' He'. apply Hbefore. lia.
Qed.

(** X4. [fit_to_epoch] raises [ValueError] once the iterator ends with
    every cumulative end strictly below [i]. *)
Lemma fit_to_epoch_exhausted fuel i e :
  (∀ n, (n < e)%nat → epochs_next epochs n = Some (Ret (sizes n))) →
  epochs_next epochs e = None →
  (e ≤ fuel)%nat →
  (∀ e', (e' < e)%nat → prefix_sum sizes (S e') < i) →
  fit_to_epoch fuel i epochs = Raise ValueError.
Proof.
  intros Hnext Hend Hfuel Hbefore.
  apply (fit_loop_exhausted i e e fuel 0%nat); [done|done|lia|done|].
  intros e' He'. apply Hbefore. lia.
Qed.

End FitToEpoch.

Lemma fit_to_epoch_spec_witness :
  Util.fit_to_epoch 10 5 (Util.Callable (λ k, Ret (k + 1)))
  = Ret (Z.of_nat 2, prefix_sum (λ n, Z.of_nat n + 1) 2).
Proof.
  apply fit_to_epoch_spec.
  - done.
  - lia.
  - intros e' He'. assert (e' = 0 ∨ e' = 1)%nat as [->| ->] by lia; cbn; lia.
  - cbn. lia.
Defined.

Lemma fit_to_epoch_exhausted_witness :
  Util.fit_to_epoch 10 5 (Util.Iterable [1; 1]) = Raise ValueError.
Proof.
  apply (fit_to_epoch_exhausted _ (λ _, 1) 10 5 2).
  - intros [|[|n]] Hn; [done|done|lia].
  - done.
  - lia.
  - intros e' He'. assert (e' = 0 ∨ e' = 1)%nat as [->| ->] by lia; cbn; lia.
Defined.

(** C2. An index that equals the cumulative end of an epoch is placed
    in that epoch: for the sizes 1, 1, 1, ... the index 1 is reported
    in epoch 0 at offset 0, although [1 < 0 + 1] fails; and on the
    finite sequence [1], whose total never exceeds 1, the call returns
    instead of raising. *)
Theorem fit_to_epoch_end_inclusive :
  Util.fit_to_epoch 10 1 (Util.Callable (λ _, Ret 1)) = Ret (0, 0)
  ∧ ¬ (1 < 0 + 1)
  ∧ Util.fit_to_epoch 10 1 (Util.Iterable [1]) = Ret (0, 0).
Proof. split; [reflexivity|]. split; [lia|reflexivity]. Qed.

(** ** The combinatorial number system *)

Section CNS.

Import Util Macaulay.

Lemma choose_nonneg x j : 0 ≤ choose x j.
Proof. unfold choose. lia. Qed.

Lemma choose_0_r x : choose x 0 = 1.
Proof. unfold choose. by rewrite binomial_0_r. Qed.

Lemma choose_0_l j : (1 ≤ j)%nat → choose 0 j = 0.
Proof. unfold choose. intros. by rewrite binomial_small by (simpl; lia). Qed.

Lemma choose_1_r x : 0 ≤ x → choose x 1 = x.
Proof. unfold choose. intros. rewrite binomial_1_r. lia. Qed.

Lemma choose_mono x y j : x ≤ y → choose x j ≤ choose y j.
Proof.
  intros Hxy. unfold choose. apply inj_le, binomial_mono. lia.
Qed.

Lemma choose_lt_inv x y j : choose x j < choose y j → x < y.
Proof.
  intros Hlt. destruct (Z.le_gt_cases y x) as [Hle|]; [|lia].
  pose proof (choose_mono y x j Hle). lia.
Qed.

Lemma choose_pascal x j :
  0 ≤ x → choose (x + 1) (S j) = choose x j + choose x (S j).
Proof.
  intros Hx. unfold choose.
  replace (Z.to_nat (x + 1)) with (S (Z.to_nat x)) by lia.
  rewrite binomial_succ. lia.
Qed.

Lemma choose_large r j x :
  (1 ≤ j)%nat → 0 ≤ r → r + Z.of_nat j ≤ x → r < choose x j.
Proof.
  intros Hj Hr Hx. unfold choose.
  pose proof (binomial_lower (Z.to_nat x) j ltac:(lia)). lia.
Qed.

Lemma comb_choose x j : 0 ≤ x → comb x (Z.of_nat j) = Ret (choose x j).
Proof.
  intros Hx. rewrite comb_nonneg by lia. by rewrite Nat2Z.id.
Qed.

(** One digit: the search finds the [m] with C(m,j) <= r < C(m+1,j). *)
Lemma cns_digit fuel (j : nat) r :
  (1 ≤ j)%nat → 0 ≤ r → (Z.to_nat r + j + 64 ≤ fuel)%nat →
  ∃ m, search_maxsatisfying fuel (fits (Z.of_nat j) r) 0 = Ret m
       ∧ 0 ≤ m ∧ choose m j ≤ r < choose (m + 1) j.
Proof.
  intros Hj Hr Hfuel.
  destruct (search_maxsatisfying_boundary (fits (Z.of_nat j) r)
              (λ n, negb (choose n j >? r)) 0 (r + Z.of_nat j))
    with (fuel := fuel) as (g & Hrun & Hg & Hpg & Hpg1).
  - lia.
  - intros n Hn. unfold fits. by rewrite comb_choose.
  - intros n Hn. pose proof (choose_large r j n Hj Hr Hn). lia.
  - rewrite choose_0_l by done. lia.
  - lia.
  - exists g. split; [done|]. lia.
Qed.

Lemma range_down_0 : range_down 0 = [].
Proof. reflexivity. Qed.

Lemma range_down_succ (K : nat) :
  range_down (Z.of_nat (S K)) = Z.of_nat (S K) :: range_down (Z.of_nat K).
Proof.
  unfold range_down. rewrite !Nat2Z.id.
  rewrite seq_S, reverse_snoc. reflexivity.
Qed.

Lemma range_down_nonpos k : k ≤ 0 → range_down k = [].
Proof. intros. unfold range_down. by replace (Z.to_nat k) with 0%nat by lia. Qed.

Lemma rank_app l1 : ∀ start l2,
  rank start (l1 ++ l2) = rank start l1 + rank (start + length l1) l2.
Proof.
  induction l1 as [|x l1 IH]; intros start l2; cbn [rank app length].
  - by rewrite Nat.add_0_r.
  - rewrite IH. replace (S start + length l1)%nat
      with (start + S (length l1))%nat by lia. lia.
Qed.

Lemma rank_nonneg l : ∀ start, 0 ≤ rank start l.
Proof.
  induction l as [|x l IH]; intros start; cbn [rank]; [done|].
  pose proof (choose_nonneg x start). specialize (IH (S start)). lia.
Qed.

Lemma py_sum_rank l : ∀ start : nat,
  Forall (λ x, 0 ≤ x) l →
  py_sum (λ '(j, elem), comb elem j) (enumerate (Z.of_nat start) l)
  = Ret (rank start l).
Proof.
  induction l as [|x l IH]; intros start Hl; [done|].
  apply Forall_cons in Hl as [Hx Hl].
  cbn [enumerate py_sum rank]. rewrite comb_choose by done. cbn.
  replace (Z.of_nat start + 1) with (Z.of_nat (S start)) by lia.
  by rewrite IH.
Qed.

Lemma sorted_perm l : sorted l ≡ₚ l.
Proof. apply merge_sort_Permutation. Qed.

Lemma sorted_Sorted l : Sorted Z.le (sorted l).
Proof. apply (Sorted_merge_sort Z.le). Qed.

Lemma sorted_insert_min (m : Z) (s : gset Z) :
  (∀ x, x ∈ s → m < x) →
  sorted (elements ({[m]} ∪ s)) = m :: sorted (elements s).
Proof.
  intros Hmin.
  assert (m ∉ s) as Hnotin by (intros Hin; specialize (Hmin m Hin); lia).
  apply (Sorted_unique Z.le).
  - apply sorted_Sorted.
  - constructor; [apply sorted_Sorted|].
    pose proof (sorted_perm (elements s)) as Hperm.
    destruct (sorted (elements s)) as [|y l]; constructor.
    assert (y ∈ s) as Hy.
    { apply elem_of_elements. rewrite <-Hperm. left. }
    specialize (Hmin y Hy). lia.
  - rewrite !sorted_perm. by apply elements_union_singleton.
Qed.

Lemma sorted_elements_empty : sorted (elements (∅ : gset Z)) = [].
Proof. by rewrite elements_empty. Qed.

(** Decoding: the loop over the places [K, K-1, ..., 1] leaves the
    remainder 0, and the values it adds, taken in ascending order, are
    the places of [r]. *)
Lemma loop_decode fuel (K : nat) : ∀ r (s : gset Z),
  0 ≤ r →
  (∀ x, x ∈ s → 0 ≤ x ∧ r < choose x K) →
  (K = 0%nat → r = 0) →
  (Z.to_nat r + K + 64 ≤ fuel)%nat →
  ∃ s' D,
    integer_to_combination_loop fuel (range_down (Z.of_nat K)) r s
    = Ret (s', 0)
    ∧ sorted (elements s') = D ++ sorted (elements s)
    ∧ length D = K ∧ Forall (λ x, 0 ≤ x) D ∧ rank 1 D = r.
Proof.
  induction K as [|K IH]; intros r s Hr Hs HK0 Hfuel.
  - exists s, []. rewrite (HK0 eq_refl). done.
  - rewrite range_down_succ. cbn [integer_to_combination_loop].
    destruct (cns_digit fuel (S K) r) as (m & -> & Hm0 & Hm); [lia|done|lia|].
    cbn. rewrite decide_False; last first.
    { intros Hin. destruct (Hs m Hin). lia. }
    rewrite comb_choose by done. cbn.
    rewrite choose_pascal in Hm by done.
    destruct (IH (r - choose m (S K)) ({[m]} ∪ s))
      as (s' & D & Hrun & Hsorted & Hlen & Hnonneg & Hrank).
    + lia.
    + intros x [->%elem_of_singleton|Hx]%elem_of_union; [lia|].
      destruct (Hs x Hx) as [Hx0 Hxr]. split; [done|].
      assert (m < x) by (apply (choose_lt_inv m x (S K)); lia).
      pose proof (choose_mono m x K ltac:(lia)). lia.
    + intros ->. rewrite choose_0_r in Hm. lia.
    + pose proof (choose_nonneg m (S K)). lia.
    + exists s', (D ++ [m]). split; [done|].
      rewrite Hsorted, sorted_insert_min; last first.
      { intros x Hx. destruct (Hs x Hx).
        apply (choose_lt_inv m x (S K)). lia. }
      split; [by rewrite <-app_assoc|].
      split; [rewrite length_app; simpl; lia|].
      split; [apply Forall_app; split; [done|by constructor]|].
      rewrite rank_app, Hrank, Hlen. cbn [rank].
      change (1 + K)%nat with (S K). lia.
Qed.

(** An ascending list below [c] ranks below C(c, length). *)
Lemma rank_bound l : ∀ c,
  StronglySorted Z.lt l → Forall (λ x, 0 ≤ x ∧ x < c) l →
  rank 1 l < choose c (length l).
Proof.
  induction l as [|x l IH] using rev_ind; intros c Hsorted Hl.
  - rewrite choose_0_r. done.
  - apply StronglySorted_app in Hsorted as (Hlt & Hsl & _).
    apply Forall_app in Hl as [Hl [[Hx0 Hxc] _]%Forall_cons].
    rewrite rank_app, length_app. cbn [rank length].
    replace (length l + 1)%nat with (S (length l)) by lia.
    replace (1 + length l)%nat with (S (length l)) by lia.
    assert (rank 1 l < choose x (length l)) as Hrec.
    { apply IH; [done|]. apply Forall_forall. intros y Hy.
      split; [by apply (proj1 (Forall_forall _ _) Hl)|].
      apply Hlt; [done|left]. }
    pose proof (choose_pascal x (length l) Hx0).
    pose proof (choose_mono (x + 1) c (S (length l)) ltac:(lia)). lia.
Qed.

(** Decoding the rank of a known combination rebuilds it. *)
Lemma loop_decode_known fuel l : ∀ (s0 : gset Z),
  StronglySorted Z.lt l → Forall (λ x, 0 ≤ x) l →
  (∀ x y, x ∈ l → y ∈ s0 → x < y) →
  (Z.to_nat (rank 1 l) + length l + 64 ≤ fuel)%nat →
  integer_to_combination_loop fuel (range_down (Z.of_nat (length l)))
    (rank 1 l) s0
  = Ret (list_to_set l ∪ s0, 0).
Proof.
  induction l as [|c l IH] using rev_ind; intros s0 Hsorted Hl Hs0 Hfuel.
  - cbn. by rewrite (left_id_L ∅ (∪)).
  - apply StronglySorted_app in Hsorted as (Hlt & Hsl & _).
    apply Forall_app in Hl as [Hl [Hc0 _]%Forall_cons].
    rewrite length_app in Hfuel |- *. cbn [length] in Hfuel |- *.
    replace (length l + 1)%nat with (S (length l)) in Hfuel |- * by lia.
    rewrite range_down_succ. cbn [integer_to_combination_loop].
    rewrite rank_app in Hfuel |- *. cbn [rank] in Hfuel |- *.
    replace (1 + length l)%nat with (S (length l)) in Hfuel |- * by lia.
    pose proof (rank_nonneg l 1) as Hrl.
    pose proof (choose_nonneg c (S (length l))) as Hcl.
    assert (rank 1 l < choose c (length l)) as Hbound.
    { apply rank_bound; [done|]. apply Forall_forall. intros y Hy.
      split; [by apply (proj1 (Forall_forall _ _) Hl)|].
      apply Hlt; [done|left]. }
    destruct (cns_digit fuel (S (length l))
                (rank 1 l + (choose c (S (length l)) + 0)))
      as (m & -> & Hm0 & Hm); [lia|lia|lia|].
    assert (m = c) as ->.
    { pose proof (choose_pascal c (length l) Hc0).
      assert (m < c + 1) by (apply (choose_lt_inv m (c + 1) (S (length l))); lia).
      assert (c < m + 1) by (apply (choose_lt_inv c (m + 1) (S (length l))); lia).
      lia. }
    cbn. rewrite decide_False; last first.
    { intros Hin. specialize (Hs0 c c). 
      assert (c < c); [|lia]. apply Hs0; [|done].
      apply elem_of_app. right. left. }
    rewrite comb_choose by done. cbn.
    replace (rank 1 l + (choose c (S (length l)) + 0) - choose c (S (length l)))
      with (rank 1 l) by lia.
    rewrite IH; [| done | done | | lia].
    + by rewrite list_to_set_snoc_L, (assoc_L (∪)).
    + intros x y Hx [->%elem_of_singleton|Hy]%elem_of_union.
      * apply Hlt; [done|left].
      * apply Hs0; [|done]. apply elem_of_app. by left.
Qed.

Lemma StronglySorted_le_lt l :
  StronglySorted Z.le l → NoDup l → StronglySorted Z.lt l.
Proof.
  induction 1 as [|a l Hl IH Ha]; intros Hnd; [constructor|].
  apply NoDup_cons in Hnd as [Hnotin Hnd].
  constructor; [by apply IH|].
  apply Forall_forall. intros x Hx.
  pose proof (proj1 (Forall_forall _ _) Ha x Hx).
  assert (a ≠ x) by (by intros ->). lia.
Qed.

Lemma sorted_elements_strict (s : gset Z) :
  StronglySorted Z.lt (sorted (elements s)).
Proof.
  apply StronglySorted_le_lt.
  - apply Sorted_StronglySorted; [apply _|apply sorted_Sorted].
  - rewrite sorted_perm. apply NoDup_elements.
Qed.

Lemma sorted_elements_set (s : gset Z) : list_to_set (sorted (elements s)) = s.
Proof. rewrite sorted_perm. apply list_to_set_elements_L. Qed.

Lemma sorted_elements_length (s : gset Z) :
  length (sorted (elements s)) = size s.
Proof. by rewrite sorted_perm. Qed.

Lemma sorted_elements_Forall (P : Z → Prop) (s : gset Z) :
  Forall P (sorted (elements s)) ↔ set_Forall P s.
Proof.
  rewrite Forall_forall. unfold set_Forall.
  split; intros H x Hx; apply H.
  - rewrite sorted_perm. by apply elem_of_elements.
  - rewrite sorted_perm in Hx. by apply elem_of_elements.
Qed.

(** Decoding [i] into [k] places, in full. *)
Lemma integer_to_combination_decode fuel i k :
  0 ≤ i → (1 ≤ k ∨ i = 0) →
  (Z.to_nat i + Z.to_nat k + 64 ≤ fuel)%nat →
  ∃ s, integer_to_combination_loop fuel (range_down k) i ∅ = Ret (s, 0)
       ∧ integer_to_combination fuel i k = Ret s
       ∧ size s = Z.to_nat k
       ∧ set_Forall (λ x, 0 ≤ x) s
       ∧ rank 1 (sorted (elements s)) = i.
Proof.
  intros Hi Hk Hfuel.
  assert (∃ s, integer_to_combination_loop fuel (range_down k) i ∅ = Ret (s, 0)
               ∧ size s = Z.to_nat k
               ∧ set_Forall (λ x, 0 ≤ x) s
               ∧ rank 1 (sorted (elements s)) = i)
    as (s & Hrun & Hsize & Hnonneg & Hrank).
  { destruct (Z.le_gt_cases 1 k) as [Hk1|Hk0].
    - destruct (loop_decode fuel (Z.to_nat k) i ∅)
        as (s & D & Hrun & Hsorted & Hlen & Hnonneg & Hrank);
        [done|set_solver|lia|lia|].
      rewrite Z2Nat.id in Hrun by lia.
      rewrite sorted_elements_empty, app_nil_r in Hsorted.
      exists s. split; [done|].
      rewrite <-sorted_elements_length, <-sorted_elements_Forall, Hsorted.
      done.
    - assert (i = 0) as -> by lia.
      exists ∅. rewrite range_down_nonpos by lia.
      split; [done|]. rewrite size_empty, sorted_elements_empty.
      split; [lia|]. split; [|done]. intros x Hx. set_solver. }
  exists s. split; [done|]. split; [|done].
  unfold integer_to_combination.
  assert ((i <? 0) = false) as -> by lia.
  assert (((k <? 1) && (i >? 0)) = false) as -> by lia.
  by rewrite Hrun.
Qed.

Lemma combination_to_integer_rank (s : gset Z) :
  set_Forall (λ x, 0 ≤ x) s →
  combination_to_integer s = Ret (rank 1 (sorted (elements s))).
Proof.
  intros Hs. unfold combination_to_integer.
  apply (py_sum_rank _ 1%nat). by apply sorted_elements_Forall.
Qed.

End CNS.

(** C9. Under the preconditions ([i >= 0], and [k >= 1] or [i = 0]) the
    loop of [integer_to_combination] ends with the remainder 0 and the
    function returns: no assertion fails. *)
Theorem integer_to_combination_remainder_zero fuel i k :
  0 ≤ i → (1 ≤ k ∨ i = 0) →
  (Z.to_nat i + Z.to_nat k + 64 ≤ fuel)%nat →
  ∃ s, Macaulay.integer_to_combination_loop fuel (Macaulay.range_down k) i ∅
       = Ret (s, 0)
       ∧ Macaulay.integer_to_combination fuel i k = Ret s.
Proof.
  intros Hi Hk Hfuel.
  destruct (integer_to_combination_decode fuel i k Hi Hk Hfuel)
    as (s & Hloop & Hrun & _).
  by exists s.
Qed.

Lemma integer_to_combination_remainder_zero_witness :
  ∃ s, Macaulay.integer_to_combination_loop 141 (Macaulay.range_down 5) 72 ∅
       = Ret (s, 0)
       ∧ Macaulay.integer_to_combination 141 72 5 = Ret s.
Proof. apply integer_to_combination_remainder_zero; lia. Defined.

(** C3. The size-k round trip, both ways: decoding [i >= 0] into
    [k >= 1] places and encoding the result gives [i] back; encoding a
    set of [k] distinct non-negative integers and decoding the rank
    into [k] places gives the set back. *)
Theorem combination_roundtrip :
  (∀ fuel i k,
     0 ≤ i → 1 ≤ k → (Z.to_nat i + Z.to_nat k + 64 ≤ fuel)%nat →
     ∃ s, Macaulay.integer_to_combination fuel i k = Ret s
          ∧ size s = Z.to_nat k
          ∧ set_Forall (λ x, 0 ≤ x) s
          ∧ Macaulay.combination_to_integer s = Ret i)
  ∧ (∀ (s : gset Z),
       set_Forall (λ x, 0 ≤ x) s →
       ∃ i, Macaulay.combination_to_integer s = Ret i
            ∧ 0 ≤ i
            ∧ ∀ fuel, (Z.to_nat i + size s + 64 ≤ fuel)%nat →
                Macaulay.integer_to_combination fuel i (Z.of_nat (size s))
                = Ret s).
Proof.
  split.
  - intros fuel i k Hi Hk Hfuel.
    destruct (integer_to_combination_decode fuel i k Hi (or_introl Hk) Hfuel)
      as (s & _ & Hrun & Hsize & Hnonneg & Hrank).
    exists s. split; [done|]. split; [done|]. split; [done|].
    by rewrite combination_to_integer_rank, Hrank.
  - intros s Hs.
    exists (rank 1 (Macaulay.sorted (elements s))).
    split; [by apply combination_to_integer_rank|].
    split; [apply rank_nonneg|].
    intros fuel Hfuel. unfold Macaulay.integer_to_combination.
    pose proof (rank_nonneg (Macaulay.sorted (elements s)) 1) as Hr.
    assert ((rank 1 (Macaulay.sorted (elements s)) <? 0) = false) as -> by lia.
    destruct (decide (size s = 0%nat)) as [Hempty|Hne].
    + apply size_empty_inv in Hempty. apply leibniz_equiv in Hempty as ->.
      rewrite size_empty, sorted_elements_empty. reflexivity.
    + assert (((Z.of_nat (size s) <? 1)
               && (rank 1 (Macaulay.sorted (elements s)) >? 0)) = false)
        as -> by lia.
      rewrite <-sorted_elements_length.
      rewrite loop_decode_known.
      * cbn. by rewrite sorted_elements_set, (right_id_L ∅ (∪)).
      * apply sorted_elements_strict.
      * by apply sorted_elements_Forall.
      * set_solver.
      * rewrite sorted_elements_length. lia.
Qed.

Lemma combination_roundtrip_witness :
  (∃ s, Macaulay.integer_to_combination 141 72 5 = Ret s
        ∧ size s = Z.to_nat 5
        ∧ set_Forall (λ x, 0 ≤ x) s
        ∧ Macaulay.combination_to_integer s = Ret 72)
  ∧ (∃ i, Macaulay.combination_to_integer sample_combination = Ret i
          ∧ 0 ≤ i
          ∧ ∀ fuel,
              (Z.to_nat i + size sample_combination + 64 ≤ fuel)%nat →
              Macaulay.integer_to_combination fuel i
                (Z.of_nat (size sample_combination))
              = Ret sample_combination).
Proof.
  split.
  - apply (proj1 combination_roundtrip); lia.
  - apply (proj2 combination_roundtrip).
    intros x Hx. unfold sample_combination in Hx. set_unfold in Hx. lia.
Defined.

Example sample_combination_rank :
  Macaulay.combination_to_integer sample_combination = Ret 72
  ∧ Macaulay.integer_to_combination 141 72 5 = Ret sample_combination.
Proof. split; vm_compute; reflexivity. Qed.

(** The boundary case of the specification: the rank 0 decodes to the
    least combination. *)
Example integer_to_combination_zero :
  Macaulay.integer_to_combination 70 0 3 = Ret ({[0; 1; 2]} : gset Z).
Proof. vm_compute. reflexivity. Qed.

(** ** The variable-cardinality bijection *)

(** C1. The index 1 is the cumulative end of the first epoch (one
    multiset of size 0), so [fit_to_epoch] reports it in epoch [k = 0];
    [integer_to_combination(1, 0)] then raises [ValueError].  The
    multiset [{0}] over the alphabet encodes to 1: neither round trip
    holds there. *)
Theorem integer_to_varmultiset_one fuel n :
  1 ≤ n →
  Macaulay.integer_to_varmultiset fuel 1 n = Raise ValueError
  ∧ Macaulay.varmultiset_to_integer [Multiset.PInt 0] n = Ret 1.
Proof.
  intros Hn.
  assert (Macaulay.multicomb n 0 = Ret 1) as Hsize.
  { unfold Macaulay.multicomb, comb.
    by assert (((n + 0 - 1 <? 0) || (0 <? 0)) = false) as -> by lia. }
  split.
  - unfold Macaulay.integer_to_varmultiset, Util.fit_to_epoch.
    destruct fuel; cbn [Util.fit_loop Util.epochs_next];
      change (Z.of_nat 0) with 0; rewrite Hsize; reflexivity.
  - unfold Macaulay.varmultiset_to_integer.
    change (Macaulay.range (Multiset.__len__ [Multiset.PInt 0])) with [0].
    cbn [Macaulay.py_sum]. rewrite Hsize. vm_compute. reflexivity.
Qed.

Lemma integer_to_varmultiset_one_witness :
  1 ≤ 6 ∧
  Macaulay.integer_to_varmultiset 100 1 6 = Raise ValueError
  ∧ Macaulay.varmultiset_to_integer [Multiset.PInt 0] 6 = Ret 1.
Proof. split; [lia|]. apply integer_to_varmultiset_one. lia. Defined.

(** Away from that index the result can leave the alphabet: over six
    symbols the integer 7 decodes to [{6}], and the multiset [{0, 0}]
    that encodes to 7 is not recovered. *)
Example integer_to_varmultiset_seven :
  Macaulay.integer_to_varmultiset 100 7 6 = Ret [Multiset.PInt 6]
  ∧ Macaulay.varmultiset_to_integer [Multiset.PInt 0; Multiset.PInt 0] 6 = Ret 7.
Proof. split; vm_compute; reflexivity. Qed.

(** ** [MixedBase] *)

Section MixedBaseFacts.

Import Util Util.MixedBase.

Lemma to_int_loop_in_range bs : ∀ ds i,
  digits_in_range bs ds →
  to_int_loop bs ds i = Ret (foldl (λ acc '(b, d), acc * b + d) i (zip bs ds)).
Proof.
  induction bs as [|b bs IH]; intros ds i Hds.
  - by apply Forall2_nil_inv_l in Hds as ->.
  - apply Forall2_cons_inv_l in Hds as (d & ds' & Hd & Hds & ->).
    cbn [to_int_loop zip zip_with foldl].
    assert (((0 <=? d) && (d <? b)) = true) as -> by lia.
    by apply IH.
Qed.

Lemma to_int_loop_out_of_range bs : ∀ ds i,
  ¬ digits_in_range bs ds → to_int_loop bs ds i = Raise ValueError.
Proof.
  induction bs as [|b bs IH]; intros ds i Hds.
  - destruct ds; [|done]. destruct Hds. constructor.
  - destruct ds as [|d ds]; [done|]. cbn [to_int_loop].
    destruct ((0 <=? d) && (d <? b)) eqn:Hd; [|done].
    apply IH. intros Hrest. apply Hds. constructor; [lia|done].
Qed.

(** [from_int] never returns: its accumulator is the ellipsis, which
    has neither [append] nor [reverse]. *)
Lemma from_int_raises self i : ∀ l, from_int self i ≠ Ret l.
Proof.
  intros l. unfold from_int.
  destruct (base self) as [|b bs]; cbn.
  - by destruct (i =? 0).
  - unfold py_divmod. by destruct (b =? 0).
Qed.

End MixedBaseFacts.

(** C6, as amended.  [to_int] pairs the digits, in order, with the
    radixes in reverse order of declaration (the digit [j] with the
    radix [m-1-j]): when every digit is within its paired radix it
    returns the fold [acc = acc*b + d], first digit most significant;
    otherwise (a digit out of range, or a tuple of another length) it
    raises [ValueError]. *)
Theorem to_int_reversed_radixes (bs ds : list Z) :
  (digits_in_range (reverse bs) ds →
   Util.MixedBase.to_int (Util.MixedBase.MixedBase bs) ds
   = Ret (msd_first_value (reverse bs) ds))
  ∧ (¬ digits_in_range (reverse bs) ds →
     Util.MixedBase.to_int (Util.MixedBase.MixedBase bs) ds
     = Raise ValueError).
Proof.
  split; intros Hds; unfold Util.MixedBase.to_int; cbn.
  - by apply to_int_loop_in_range.
  - by apply to_int_loop_out_of_range.
Qed.

Lemma to_int_reversed_radixes_witness :
  Util.MixedBase.to_int (Util.MixedBase.MixedBase [2; 3]) [2; 1]
  = Ret (msd_first_value (reverse [2; 3]) [2; 1])
  ∧ Util.MixedBase.to_int (Util.MixedBase.MixedBase [2; 3]) [0; 2]
    = Raise ValueError.
Proof.
  split.
  - apply (proj1 (to_int_reversed_radixes [2; 3] [2; 1])).
    repeat constructor; lia.
  - apply (proj2 (to_int_reversed_radixes [2; 3] [0; 2])).
    intros H. apply Forall2_cons_1 in H as [_ H].
    apply Forall2_cons_1 in H as [H _]. lia.
Defined.

(** C6, as stated, fails: under the radixes (2, 3) the digits (0, 2)
    are each below their own radix and their most-significant-first
    value is 2, yet [to_int] raises the range error; and [from_int]
    returns no digits for 2. *)
Lemma to_int_declared_order_counterexample :
  digits_in_range [2; 3] [0; 2]
  ∧ msd_first_value [2; 3] [0; 2] = 2
  ∧ Util.MixedBase.to_int (Util.MixedBase.MixedBase [2; 3]) [0; 2]
    = Raise ValueError
  ∧ Util.MixedBase.from_int (Util.MixedBase.MixedBase [2; 3]) 2
    = Raise AttributeError.
Proof.
  split; [repeat constructor; lia|]. repeat split.
Qed.

(** ** The universal key is a total preorder *)

Section KeyOrder.

Import Multiset.

Lemma ukey_nested_ind (P : ukey → Prop) :
  (∀ z, P (KNum z)) →
  (∀ ks, Forall P ks → P (KSeq ks)) →
  (∀ h, P (KHash h)) →
  ∀ k, P k.
Proof.
  intros Hnum Hseq Hhash. fix IH 1.
  intros [z|ks|h]; [apply Hnum| |apply Hhash].
  apply Hseq. induction ks as [|k ks IHks]; constructor; [apply IH|apply IHks].
Qed.

Lemma lex_compare_refl {A} (cmp : A → A → comparison) xs :
  Forall (λ x, cmp x x = Eq) xs → lex_compare cmp xs xs = Eq.
Proof. induction 1 as [|x xs Hx _ IH]; cbn; [done|by rewrite Hx]. Qed.

Lemma lex_compare_eq {A} (cmp : A → A → comparison) xs :
  Forall (λ x, ∀ y, cmp x y = Eq → x = y) xs →
  ∀ ys, lex_compare cmp xs ys = Eq → xs = ys.
Proof.
  induction 1 as [|x xs Hx _ IH]; intros [|y ys]; cbn; try done.
  destruct (cmp x y) eqn:Hxy; try done.
  intros Hrest. by rewrite (Hx y Hxy), (IH ys Hrest).
Qed.

Lemma lex_compare_antisym {A} (cmp : A → A → comparison) xs :
  Forall (λ x, ∀ y, cmp y x = CompOpp (cmp x y)) xs →
  ∀ ys, lex_compare cmp ys xs = CompOpp (lex_compare cmp xs ys).
Proof.
  induction 1 as [|x xs Hx _ IH]; intros [|y ys]; cbn; try done.
  rewrite (Hx y). destruct (cmp x y); cbn; [apply IH|done|done].
Qed.

Lemma lex_compare_trans {A} (cmp : A → A → comparison) xs :
  (∀ y z, cmp y z = Eq → y = z) →
  Forall (λ x, ∀ y z, cmp x y = Lt → cmp y z = Lt → cmp x z = Lt) xs →
  ∀ ys zs, lex_compare cmp xs ys = Lt → lex_compare cmp ys zs = Lt →
           lex_compare cmp xs zs = Lt.
Proof.
  intros Heq. induction 1 as [|x xs Hx _ IH]; intros [|y ys] [|z zs]; cbn;
    try done.
  destruct (cmp x y) eqn:Hxy; try done.
  - apply Heq in Hxy as <-. destruct (cmp x z); try done. apply IH.
  - intros _. destruct (cmp y z) eqn:Hyz; try done.
    + apply Heq in Hyz as <-. by rewrite Hxy.
    + by rewrite (Hx y z Hxy Hyz).
Qed.

Lemma ukey_compare_refl k : ukey_compare k k = Eq.
Proof.
  induction k as [z|ks IH|h] using ukey_nested_ind; cbn.
  - apply Z.compare_refl.
  - by apply lex_compare_refl.
  - apply Z.compare_refl.
Qed.

Lemma ukey_compare_eq a : ∀ b, ukey_compare a b = Eq → a = b.
Proof.
  induction a as [z|ks IH|h] using ukey_nested_ind; intros [z'|ks'|h']; cbn;
    try done.
  - by intros ->%Z.compare_eq.
  - by intros ->%(lex_compare_eq _ _ IH).
  - by intros ->%Z.compare_eq.
Qed.

Lemma ukey_compare_antisym a : ∀ b,
  ukey_compare b a = CompOpp (ukey_compare a b).
Proof.
  induction a as [z|ks IH|h] using ukey_nested_ind; intros [z'|ks'|h']; cbn;
    try done.
  - apply Z.compare_antisym.
  - by apply lex_compare_antisym.
  - apply Z.compare_antisym.
Qed.

Lemma ukey_compare_trans a : ∀ b c,
  ukey_compare a b = Lt → ukey_compare b c = Lt → ukey_compare a c = Lt.
Proof.
  induction a as [z|ks IH|h] using ukey_nested_ind;
    intros [z'|ks'|h'] [z''|ks''|h'']; cbn; try done.
  - rewrite !Z.compare_lt_iff. lia.
  - apply lex_compare_trans; [|done]. intros y z. apply ukey_compare_eq.
  - rewrite !Z.compare_lt_iff. lia.
Qed.

Lemma key_lt_asym x y : key_lt x y = true → key_lt y x = false.
Proof.
  unfold key_lt. rewrite (ukey_compare_antisym (hashable_universal_key x)).
  by destruct (ukey_compare _ _).
Qed.

Lemma key_le_refl x : key_le x x.
Proof. unfold key_le, key_lt. by rewrite ukey_compare_refl. Qed.

Lemma key_le_total x y : key_le x y ∨ key_le y x.
Proof.
  unfold key_le. destruct (key_lt x y) eqn:Hxy; [|by right].
  left. by apply key_lt_asym.
Qed.

#[local] Instance key_le_transitive : Transitive key_le.
Proof.
  intros x y z. unfold key_le, key_lt.
  pose proof (ukey_compare_antisym (hashable_universal_key y)
                (hashable_universal_key z)) as Hzy.
  destruct (ukey_compare (hashable_universal_key y) (hashable_universal_key x))
    eqn:Hyx; try done; intros _;
    destruct (ukey_compare (hashable_universal_key z) (hashable_universal_key y))
      eqn:Hzy';
    try done; intros _.
  - apply ukey_compare_eq in Hyx as <-. by rewrite Hzy'.
  - apply ukey_compare_eq in Hyx as <-. by rewrite Hzy'.
  - apply ukey_compare_eq in Hzy' as ->. by rewrite Hyx.
  - destruct (ukey_compare (hashable_universal_key z) (hashable_universal_key x))
      eqn:Hzx; try done.
    pose proof (ukey_compare_antisym (hashable_universal_key z)
                  (hashable_universal_key y)) as Hyz.
    rewrite Hzy' in Hyz. cbn in Hyz.
    by rewrite (ukey_compare_trans _ _ _ Hyz Hzx) in Hyx.
Qed.

Lemma key_le_antisym x y :
  key_le x y → key_le y x →
  hashable_universal_key x = hashable_universal_key y.
Proof.
  unfold key_le, key_lt.
  rewrite (ukey_compare_antisym (hashable_universal_key x)).
  destruct (ukey_compare (hashable_universal_key x) (hashable_universal_key y))
    eqn:Hxy; cbn; try done.
  intros _ _. by apply ukey_compare_eq.
Qed.

(** *** The sorted list stays sorted *)

Lemma insort_perm x l : insort x l ≡ₚ x :: l.
Proof.
  induction l as [|y l IH]; cbn; [done|].
  destruct (key_lt x y); [done|]. by rewrite IH, Permutation_swap.
Qed.

Lemma insort_canonical x l : canonical l → canonical (insort x l).
Proof.
  induction 1 as [|y l Hl IH Hy]; cbn.
  - repeat constructor.
  - destruct (key_lt x y) eqn:Hxy.
    + constructor; [by constructor|]. constructor. by apply key_lt_asym.
    + constructor; [done|].
      destruct l as [|z l]; cbn.
      * by constructor.
      * destruct (key_lt x z); constructor; [done|]. by inversion Hy.
Qed.

Lemma sortedlist_update_perm iterable : ∀ l,
  sortedlist_update l iterable ≡ₚ l ++ iterable.
Proof.
  unfold sortedlist_update.
  induction iterable as [|x it IH]; intros l; cbn.
  - by rewrite app_nil_r.
  - rewrite IH, insort_perm. cbn. apply Permutation_middle.
Qed.

Lemma sortedlist_update_canonical iterable : ∀ l,
  canonical l → canonical (sortedlist_update l iterable).
Proof.
  unfold sortedlist_update.
  induction iterable as [|x it IH]; intros l Hl; cbn; [done|].
  by apply IH, insort_canonical.
Qed.

Lemma init_canonical iterable : canonical (__init__ iterable).
Proof. apply sortedlist_update_canonical. constructor. Qed.

Lemma init_perm iterable : __init__ iterable ≡ₚ iterable.
Proof. unfold __init__, extend. by rewrite sortedlist_update_perm. Qed.

Lemma StronglySorted_sublist {A} (R : relation A) l k :
  k `sublist_of` l → StronglySorted R l → StronglySorted R k.
Proof.
  induction 1 as [|x k l Hkl IH|x k l Hkl IH]; [done| |].
  - rewrite !StronglySorted_cons. intros [Hx Hl]. split; [|by apply IH].
    apply Forall_forall. intros y Hy.
    apply (proj1 (Forall_forall _ _) Hx). by apply (sublist_subseteq k l).
  - rewrite StronglySorted_cons. intros [_ Hl]. by apply IH.
Qed.



(** Two sorted lists with the same contents are the same list as soon
    as equal keys mean equal elements. *)
Lemma canonical_unique l1 l2 :
  key_injective_on l1 → canonical l1 → canonical l2 → l1 ≡ₚ l2 → l1 = l2.
Proof.
  intros Hinj Hl1 Hl2 Hperm.
  apply (Sorted_unique_strong key_le); try done.
  intros x1 x2 Hx1 Hx2 H12 H21. apply Hinj; [done| |].
  - by rewrite Hperm.
  - by apply key_le_antisym.
Qed.

End KeyOrder.

(** ** Iteration order of a multiset *)

Section Canonical.

Import Multiset.

Lemma pyval_nested_ind (P : pyval → Prop) :
  (∀ z, P (PInt z)) →
  (∀ xs, Forall P xs → P (PTuple xs)) →
  (∀ h s, P (PStr h s)) →
  (∀ h id, P (PObj h id)) →
  ∀ x, P x.
Proof.
  intros Hint Htuple Hstr Hobj. fix IH 1.
  intros [z|xs|h s|h id]; [apply Hint| |apply Hstr|apply Hobj].
  apply Htuple. induction xs as [|x xs IHxs]; constructor; [apply IH|apply IHxs].
Qed.

(** On values without objects the universal key loses nothing. *)
Lemma hashable_universal_key_inj x : ∀ y,
  object_free x = true → object_free y = true →
  hashable_universal_key x = hashable_universal_key y → x = y.
Proof.
  induction x as [z|xs IH|h s|h id] using pyval_nested_ind;
    intros [z'|ys|h' s'|h' id']; cbn; try done.
  - by intros _ _ [= ->].
  - intros Hxs Hys [= Hkeys]. f_equal.
    revert ys Hxs Hys Hkeys.
    induction IH as [|x xs Hx _ IHxs]; intros [|y ys]; cbn; try done.
    intros [Hx' Hxs']%andb_prop [Hy' Hys']%andb_prop [= Hk Hks].
    f_equal; [by apply Hx|by apply IHxs].
Qed.

Lemma object_free_key_injective l :
  Forall (λ x, object_free x = true) l → key_injective_on l.
Proof.
  intros Hl x y Hx Hy. rewrite Forall_forall in Hl.
  apply hashable_universal_key_inj; by apply Hl.
Qed.






End Canonical.




(** ** Set algebra on operands that do not compare *)

(** C8. [joint_groupby] is called without a key, so the heads of the
    operands are compared with their own [<]: with a number in one
    operand and a tuple in the other every operation of the set algebra
    raises [TypeError]. *)
Theorem set_algebra_heterogeneous_operands :
  Multiset.union [Multiset.PInt 1]
    [[Multiset.PTuple [Multiset.PInt 1; Multiset.PInt 2]]]
  = Raise TypeError
  ∧ Multiset.intersection [Multiset.PInt 1]
      [[Multiset.PTuple [Multiset.PInt 1; Multiset.PInt 2]]]
    = Raise TypeError
  ∧ Multiset.difference [Multiset.PInt 1]
      [[Multiset.PTuple [Multiset.PInt 1; Multiset.PInt 2]]]
    = Raise TypeError
  ∧ Multiset.symmetric_difference [Multiset.PInt 1]
      [Multiset.PTuple [Multiset.PInt 1; Multiset.PInt 2]]
    = Raise TypeError
  ∧ Multiset.issubset [Multiset.PInt 1]
      [Multiset.PTuple [Multiset.PInt 1; Multiset.PInt 2]]
    = Raise TypeError
  ∧ Multiset.issuperset [Multiset.PInt 1]
      [Multiset.PTuple [Multiset.PInt 1; Multiset.PInt 2]]
    = Raise TypeError.
Proof. repeat split. Qed.

(** C4. The merge walk takes the least buffered head by the values'
    own [<], while the operands are sorted by universal key.  Where
    ["b"] hashes below ["a"], [Multiset("ab")] iterates b, a; against
    [Multiset("a")] the walk meets "a" twice, and the union holds it
    twice (the claim: [max 1 1 = 1]), the intersection not at all (the
    claim: [min 1 1 = 1]), the difference once (the claim:
    [max 0 (1 - 1) = 0]), and [{a}] is not found to be a subset.  On
    plain objects, which have no [<], the operations raise. *)
Theorem set_algebra_unordered_elements :
  Multiset.__iter__ (Multiset.__init__ [str_a; str_b]) = [str_b; str_a]
  ∧ Multiset.count (Multiset.__init__ [str_a; str_b]) str_a = 1
  ∧ Multiset.count (Multiset.__init__ [str_a]) str_a = 1
  ∧ (∃ U, Multiset.union (Multiset.__init__ [str_a; str_b])
            [Multiset.__init__ [str_a]] = Ret U
          ∧ Multiset.count U str_a = 2)
  ∧ (∃ I, Multiset.intersection (Multiset.__init__ [str_a; str_b])
            [Multiset.__init__ [str_a]] = Ret I
          ∧ Multiset.count I str_a = 0)
  ∧ (∃ D, Multiset.difference (Multiset.__init__ [str_a; str_b])
            [Multiset.__init__ [str_a]] = Ret D
          ∧ Multiset.count D str_a = 1)
  ∧ Multiset.issubset (Multiset.__init__ [str_a]) (Multiset.__init__ [str_a; str_b])
    = Ret false
  ∧ Multiset.union (Multiset.__init__ [twin_a]) [Multiset.__init__ [twin_b]]
    = Raise TypeError
  ∧ Multiset.intersection (Multiset.__init__ [twin_a]) [Multiset.__init__ [twin_b]]
    = Raise TypeError
  ∧ Multiset.difference (Multiset.__init__ [twin_a]) [Multiset.__init__ [twin_b]]
    = Raise TypeError
  ∧ Multiset.issubset (Multiset.__init__ [twin_a]) (Multiset.__init__ [twin_b])
    = Raise TypeError.
Proof.
  split; [done|]. split; [done|]. split; [done|].
  split; [by eexists|]. split; [by eexists|]. split; [by eexists|].
  repeat split.
Qed.

(** C5. Three of the four in-place variants raise where the pure
    operation returns: [symmetric_difference_update] reads the unbound
    name [counts], and [__remove_quantity], behind
    [intersection_update] and [difference_update], unpacks the element
    itself into the arguments of [remove]. *)
Theorem inplace_variants_raise :
  Multiset.symmetric_difference [Multiset.PInt 1] [Multiset.PInt 1] = Ret []
  ∧ Multiset.symmetric_difference_update [Multiset.PInt 1] [Multiset.PInt 1]
    = Raise NameError
  ∧ Multiset.intersection [Multiset.PInt 1] [[]] = Ret []
  ∧ Multiset.intersection_update [Multiset.PInt 1] [[]] = Raise TypeError
  ∧ Multiset.difference [Multiset.PInt 1] [[Multiset.PInt 1]] = Ret []
  ∧ Multiset.difference_update [Multiset.PInt 1] [[Multiset.PInt 1]]
    = Raise TypeError.
Proof. repeat split. Qed.

(** The scenario of the specification: union takes the larger
    multiplicity, [update] reaches the same multiset in place. *)
Example union_scenario :
  Multiset.union (Multiset.__init__ [Multiset.PInt 1; Multiset.PInt 1; Multiset.PInt 2])
    [Multiset.__init__ [Multiset.PInt 1; Multiset.PInt 2; Multiset.PInt 2]]
  = Ret (Multiset.__init__
           [Multiset.PInt 1; Multiset.PInt 1; Multiset.PInt 2; Multiset.PInt 2])
  ∧ Multiset.update
      (Multiset.__init__ [Multiset.PInt 1; Multiset.PInt 1; Multiset.PInt 2])
      [Multiset.__init__ [Multiset.PInt 1; Multiset.PInt 2; Multiset.PInt 2]]
    = Ret (Multiset.__init__
             [Multiset.PInt 1; Multiset.PInt 1; Multiset.PInt 2; Multiset.PInt 2]).
Proof. repeat split. Qed.


(** ** A round of the merge walk

    A round of [joint_groupby] takes at least the head it chose out
    of the operands. *)

Section WalkEnds.

Import Multiset.

Lemma pyval_eqb_refl x : pyval_eqb x x = true.
Proof.
  induction x as [z|xs IH|h s|h id] using pyval_nested_ind; cbn.
  - apply Z.eqb_refl.
  - induction IH as [|x xs Hx _ IHxs]; cbn; [done|]. by rewrite Hx, IHxs.
  - apply String.eqb_refl.
  - by rewrite Z.eqb_refl, Nat.eqb_refl.
Qed.

Lemma min_from_elem vals : ∀ best r,
  min_from best vals = Ret r → r = best ∨ r ∈ vals.
Proof.
  induction vals as [|v vals IH]; intros best r; cbn.
  - intros [= <-]. by left.
  - destruct (choice_key_lt v best) as [[|]| |]; cbn; try done;
      intros [->|Hr]%IH; try (by left); right; by (left || right).
Qed.

Lemma _choice_elem buffer tgtval :
  _choice buffer = Ret (Some tgtval) → Some tgtval ∈ buffer.
Proof.
  destruct buffer as [|v vals]; cbn; [done|].
  intros [->|Hr]%min_from_elem; [left|by right].
Qed.

Lemma _grouper_length tgtkey it :
  (length (_grouper tgtkey it).2 ≤ length it)%nat.
Proof.
  induction it as [|x it IH]; cbn; [done|].
  destruct (pyval_eqb x tgtkey); [|done].
  destruct (_grouper tgtkey it). cbn in *. lia.
Qed.

Lemma _grouper_length_head tgtkey it :
  head it = Some tgtkey →
  (length (_grouper tgtkey it).2 < length it)%nat.
Proof.
  destruct it as [|x it]; cbn; [done|]. intros [= ->].
  rewrite pyval_eqb_refl. pose proof (_grouper_length tgtkey it).
  destruct (_grouper tgtkey it). cbn in *. lia.
Qed.

Lemma round_length tgtval iterables :
  Some tgtval ∈ map head iterables →
  (length (concat (map snd (map (_grouper tgtval) iterables)))
   < length (concat iterables))%nat.
Proof.
  induction iterables as [|it its IH]; cbn.
  - by intros ?%elem_of_nil.
  - rewrite !length_app. intros [Hhead|Hin]%elem_of_cons.
    + pose proof (_grouper_length_head tgtval it (eq_sym Hhead)).
      assert (length (concat (map snd (map (_grouper tgtval) its)))
              ≤ length (concat its))%nat; [|lia].
      clear. induction its as [|it its IH]; cbn; [done|].
      rewrite !length_app. pose proof (_grouper_length tgtval it). lia.
    + pose proof (_grouper_length tgtval it). specialize (IH Hin). lia.
Qed.

End WalkEnds.

(** ** The set algebra on multisets of integers

    Integers compare with [<] the way their keys do, so on them the
    merge walk of [joint_groupby] visits every distinct value once, in
    ascending order, and hands each operation the right counts. *)

Section IntegerMultisets.

Import Multiset.

Implicit Types (zs : list Z) (zss : list (list Z)).

Lemma pyval_eqb_int x y : pyval_eqb (PInt x) (PInt y) = (x =? y).
Proof. reflexivity. Qed.

Lemma min_from_int (vals : list (option Z)) : ∀ best : option Z,
  min_from (PInt <$> best) ((λ v : option Z, PInt <$> v) <$> vals)
  = Ret (PInt <$> foldl omin best vals).
Proof.
  induction vals as [|v vals IH]; intros best; [done|].
  cbn [fmap list_fmap min_from foldl].
  destruct v as [x|], best as [y|]; cbn.
  - destruct (Z.eqb_spec x y) as [->|Hne]; cbn.
    + rewrite Z.ltb_irrefl. apply (IH (Some y)).
    + destruct (x <? y); [apply (IH (Some x))|apply (IH (Some y))].
  - apply (IH (Some x)).
  - apply (IH (Some y)).
  - apply (IH None).
Qed.

Lemma choice_int (heads : list (option Z)) :
  _choice ((λ v : option Z, PInt <$> v) <$> heads)
  = Ret (PInt <$> foldl omin None heads).
Proof.
  destruct heads as [|v vals]; [done|].
  cbn [fmap list_fmap _choice foldl]. rewrite min_from_int.
  by destruct v.
Qed.

Lemma omin_cases (best v : option Z) :
  (omin best v = best ∨ omin best v = v)
  ∧ (omin best v = None → best = None ∧ v = None)
  ∧ (∀ y, best = Some y ∨ v = Some y →
       ∃ z, omin best v = Some z ∧ z ≤ y).
Proof.
  destruct v as [x|], best as [b|]; cbn.
  - destruct (Z.ltb_spec x b).
    + split; [by right|]. split; [done|].
      intros y [[= <-]|[= <-]]; exists x; split; (done || lia).
    + split; [by left|]. split; [done|].
      intros y [[= <-]|[= <-]]; exists b; split; (done || lia).
  - split; [by right|]. split; [done|].
    intros y [|[= <-]]; [done|]. exists x. split; (done || lia).
  - split; [by left|]. split; [done|].
    intros y [[= <-]|]; [|done]. exists b. split; (done || lia).
  - split; [by left|]. split; [done|]. by intros y [|].
Qed.

Lemma foldl_omin_None (vals : list (option Z)) : ∀ best,
  foldl omin best vals = None → best = None ∧ Forall (λ v, v = None) vals.
Proof.
  induction vals as [|v vals IH]; intros best; cbn; [done|].
  intros [Hstep Hvals]%IH.
  destruct (omin_cases best v) as (_ & Hnone & _).
  destruct (Hnone Hstep) as [-> ->]. split; [done|by constructor].
Qed.

Lemma foldl_omin_Some (vals : list (option Z)) : ∀ best m,
  foldl omin best vals = Some m →
  (best = Some m ∨ Some m ∈ vals)
  ∧ (∀ y, best = Some y ∨ Some y ∈ vals → m ≤ y).
Proof.
  induction vals as [|v vals IH]; intros best m; cbn.
  - intros ->. split; [by left|]. intros y [[= ->]|Hy]; [lia|].
    by apply elem_of_nil in Hy.
  - intros [Hin Hmin]%IH.
    destruct (omin_cases best v) as (Hpick & _ & Hle). split.
    + destruct Hin as [Hin|Hin]; [|right; by right].
      destruct Hpick as [Hpick|Hpick]; rewrite Hpick in Hin.
      * by left.
      * right. rewrite Hin. left.
    + intros y [Hy|[Hy|Hy]%elem_of_cons].
      * destruct (Hle y (or_introl Hy)) as (z & Hz & Hzy).
        pose proof (Hmin z (or_introl Hz)). lia.
      * destruct (Hle y (or_intror (eq_sym Hy))) as (z & Hz & Hzy).
        pose proof (Hmin z (or_introl Hz)). lia.
      * apply Hmin. by right.
Qed.

Lemma filter_none {A} (P : A → Prop) `{∀ x, Decision (P x)} (l : list A) :
  Forall (λ x, ¬ P x) l → filter P l = [].
Proof.
  induction 1 as [|x l Hx _ IH]; [done|]. by rewrite filter_cons_False.
Qed.

Lemma filter_all {A} (P : A → Prop) `{∀ x, Decision (P x)} (l : list A) :
  Forall P l → filter P l = l.
Proof.
  induction 1 as [|x l Hx _ IH]; [done|]. by rewrite filter_cons_True, IH.
Qed.

(** On an ascending list bounded below by [m], the grouper takes the
    copies of [m] and leaves the rest. *)
Lemma grouper_int m zs :
  StronglySorted Z.le zs → Forall (λ z, m ≤ z) zs →
  _grouper (PInt m) (PInt <$> zs)
  = (PInt <$> filter (λ z, z = m) zs, PInt <$> filter (λ z, z ≠ m) zs).
Proof.
  induction 1 as [|z zs Hzs IH Hz]; intros Hm; [done|].
  apply Forall_cons in Hm as [Hmz Hm].
  cbn [fmap list_fmap _grouper]. rewrite pyval_eqb_int.
  destruct (Z.eqb_spec z m) as [->|Hne].
  - rewrite (IH Hm). rewrite filter_cons_True by done.
    by rewrite filter_cons_False by (intros H; by apply H).
  - assert (Forall (λ y, y ≠ m) (z :: zs)) as Hall.
    { constructor; [done|]. apply Forall_forall. intros y Hy.
      pose proof (proj1 (Forall_forall _ _) Hz y Hy). lia. }
    rewrite filter_none, filter_all; [done|done|].
    apply Forall_impl with (P := λ y, y ≠ m); [done|]. by intros y Hy Hy'.
Qed.

Lemma heads_int zss :
  head <$> ((λ zs, PInt <$> zs) <$> zss)
  = (λ v : option Z, PInt <$> v) <$> (head <$> zss).
Proof.
  induction zss as [|zs zss IH]; [done|]. cbn. rewrite IH. by destruct zs.
Qed.

Lemma elem_of_concat {A} (x : A) (ls : list (list A)) :
  x ∈ concat ls ↔ ∃ l, x ∈ l ∧ l ∈ ls.
Proof.
  induction ls as [|l ls IH]; cbn.
  - split; [by intros ?%elem_of_nil|]. by intros (l & _ & ?%elem_of_nil).
  - rewrite elem_of_app, IH. split.
    + intros [Hx|(l' & Hx & Hl')]; [exists l|exists l']; split; try done.
      * left.
      * by right.
    + intros (l' & Hx & [->|Hl']%elem_of_cons); [by left|right; by exists l'].
Qed.

Lemma elem_of_concat_filter {A} (P : A → Prop) `{∀ x, Decision (P x)}
    (x : A) (ls : list (list A)) :
  x ∈ concat (filter P <$> ls) ↔ P x ∧ x ∈ concat ls.
Proof.
  rewrite !elem_of_concat. split.
  - intros (l & Hx & (l' & -> & Hl')%list_elem_of_fmap).
    apply list_elem_of_filter in Hx as [HP Hx]. split; [done|by exists l'].
  - intros (HP & l & Hx & Hl). exists (filter P l). split.
    + by apply list_elem_of_filter.
    + apply list_elem_of_fmap. by exists l.
Qed.

Lemma length_concat_filter {A} (P : A → Prop) `{∀ x, Decision (P x)}
    (x : A) (ls : list (list A)) :
  x ∈ concat ls → ¬ P x →
  (length (concat (filter P <$> ls)) < length (concat ls))%nat.
Proof.
  intros Hx HP. induction ls as [|l ls IH]; cbn in *.
  - by apply elem_of_nil in Hx.
  - rewrite !length_app. apply elem_of_app in Hx as [Hx|Hx].
    + pose proof (length_filter_lt P l x Hx HP).
      assert (length (concat (filter P <$> ls)) ≤ length (concat ls))%nat;
        [|lia].
      clear. induction ls as [|l' ls IH]; cbn; [done|].
      rewrite !length_app. pose proof (length_filter P l'). lia.
    + pose proof (length_filter P l). specialize (IH Hx). lia.
Qed.

Lemma sorted_lower_bound m zs :
  StronglySorted Z.le zs → (∀ y, head zs = Some y → m ≤ y) →
  Forall (λ z, m ≤ z) zs.
Proof.
  intros Hzs Hhead. destruct Hzs as [|z zs Hzs Hz]; [done|].
  specialize (Hhead z eq_refl). constructor; [done|].
  apply Forall_impl with (P := Z.le z); [done|]. intros y Hy. lia.
Qed.

Lemma distinct_keys_nil zss :
  Forall (λ zs, zs = []) zss → distinct_keys zss = [].
Proof.
  intros Hall. unfold distinct_keys.
  replace (concat zss) with (@nil Z); [apply sorted_elements_empty|].
  induction Hall as [|zs zss -> _ IH]; [done|]. by cbn.
Qed.

Lemma distinct_keys_cons m zss :
  m ∈ concat zss → (∀ z, z ∈ concat zss → m ≤ z) →
  distinct_keys zss = m :: distinct_keys (filter (λ z, z ≠ m) <$> zss).
Proof.
  intros Hm Hmin. unfold distinct_keys.
  rewrite <-sorted_insert_min.
  - f_equal. f_equal. apply set_eq. intros x.
    rewrite elem_of_union, elem_of_singleton, !elem_of_list_to_set.
    rewrite elem_of_concat_filter.
    destruct (decide (x = m)) as [->|Hne]; [by split; [left|]|].
    split; [by right|]. by intros [|[_ ?]].
  - intros x [Hne Hx]%elem_of_list_to_set%elem_of_concat_filter.
    specialize (Hmin x Hx). lia.
Qed.

Lemma elem_of_distinct_keys x zss : x ∈ distinct_keys zss ↔ x ∈ concat zss.
Proof.
  unfold distinct_keys.
  by rewrite sorted_perm, elem_of_elements, elem_of_list_to_set.
Qed.

Lemma NoDup_distinct_keys zss : NoDup (distinct_keys zss).
Proof. unfold distinct_keys. rewrite sorted_perm. apply NoDup_elements. Qed.

(** The merge walk over ascending lists of integers: one round per
    distinct value, ascending, each with the copies found in every
    operand. *)
Lemma joint_groupby_loop_int fuel : ∀ zss,
  Forall (StronglySorted Z.le) zss →
  (length (concat zss) ≤ fuel)%nat →
  joint_groupby_loop fuel ((λ zs, PInt <$> zs) <$> zss)
  = Gen ((λ z, (PInt z, (λ zs, PInt <$> filter (λ y, y = z) zs) <$> zss))
           <$> distinct_keys zss)
        (Ret ()).
Proof.
  induction fuel as [|fuel IH]; intros zss Hsorted Hfuel;
    cbn [joint_groupby_loop];
    change (map head ((λ zs, PInt <$> zs) <$> zss))
      with (head <$> ((λ zs, PInt <$> zs) <$> zss));
    rewrite heads_int, choice_int;
    destruct (foldl omin None (head <$> zss)) as [m|] eqn:Hmin; cbn.
  1,3: apply foldl_omin_Some in Hmin as [[|Hin] Hle]; [done|];
       apply list_elem_of_fmap in Hin as (zs0 & Hhead & Hzs0);
       assert (m ∈ concat zss) as Hm
         by (apply elem_of_concat; exists zs0; split; [|done];
             destruct zs0; [done|]; injection Hhead as ->; left).
  - destruct (concat zss); [by apply elem_of_nil in Hm|cbn in Hfuel; lia].
  - assert (∀ zs, zs ∈ zss → Forall (λ z, m ≤ z) zs) as Hlow.
    { intros zs Hzs. apply sorted_lower_bound.
      - by apply (proj1 (Forall_forall _ _) Hsorted).
      - intros y Hy. apply Hle. right. apply list_elem_of_fmap. by exists zs. }
    assert (map (_grouper (PInt m)) ((λ zs, PInt <$> zs) <$> zss)
            = (λ zs, (PInt <$> filter (λ z, z = m) zs,
                      PInt <$> filter (λ z, z ≠ m) zs)) <$> zss) as ->.
    { change (map (_grouper (PInt m)) ((λ zs, PInt <$> zs) <$> zss))
        with (_grouper (PInt m) <$> ((λ zs, PInt <$> zs) <$> zss)).
      rewrite <-list_fmap_compose. apply Forall_fmap_ext_1.
      apply Forall_forall. intros zs Hzs. cbn. apply grouper_int.
      - by apply (proj1 (Forall_forall _ _) Hsorted).
      - by apply Hlow. }
    change (map fst ?l) with (fst <$> l). change (map snd ?l) with (snd <$> l).
    rewrite <-!list_fmap_compose.
    change (snd ∘ _) with (λ zs, PInt <$> filter (λ z, z ≠ m) zs).
    change (fst ∘ _) with (λ zs, PInt <$> filter (λ z, z = m) zs).
    assert (((λ zs, PInt <$> filter (λ z, z ≠ m) zs) <$> zss)
            = (λ zs, PInt <$> zs) <$> (filter (λ z, z ≠ m) <$> zss)) as ->
      by (by rewrite <-list_fmap_compose).
    rewrite IH; first last.
    + pose proof (length_concat_filter (λ z, z ≠ m) m zss Hm
                    ltac:(by intros H; apply H)). lia.
    + apply Forall_fmap, Forall_forall. intros zs Hzs. cbn.
      apply (StronglySorted_sublist _ zs); [apply sublist_filter|].
      by apply (proj1 (Forall_forall _ _) Hsorted).
    + unfold gen_cons. cbn. f_equal.
      rewrite (distinct_keys_cons m zss); first last.
      { intros z (zs & Hz & Hzs)%elem_of_concat.
        by apply (proj1 (Forall_forall _ _) (Hlow zs Hzs)). }
      { done. }
      cbn [fmap list_fmap]. f_equal.
      apply Forall_fmap_ext_1, Forall_forall. intros z Hz. f_equal.
      apply elem_of_distinct_keys, elem_of_concat_filter in Hz as [Hne _].
      rewrite <-list_fmap_compose. apply Forall_fmap_ext_1, Forall_forall.
      intros zs _. cbn. f_equal. apply list_filter_filter_l.
      by intros y ->.
  - apply foldl_omin_None in Hmin as [_ Hnone].
    rewrite distinct_keys_nil; [done|].
    apply Forall_forall. intros zs Hzs.
    assert (head zs = None) as Hhead.
    { apply (proj1 (Forall_forall _ _) Hnone). apply list_elem_of_fmap. by exists zs. }
    by destruct zs.
  - apply foldl_omin_None in Hmin as [_ Hnone].
    rewrite distinct_keys_nil; [done|].
    apply Forall_forall. intros zs Hzs.
    assert (head zs = None) as Hhead.
    { apply (proj1 (Forall_forall _ _) Hnone). apply list_elem_of_fmap. by exists zs. }
    by destruct zs.
Qed.

Lemma length_concat_int zss :
  length (concat ((λ zs, PInt <$> zs) <$> zss)) = length (concat zss).
Proof.
  induction zss as [|zs zss IH]; [done|]. cbn.
  by rewrite !length_app, length_fmap, IH.
Qed.

Lemma gen_filter_map_list_total {A B} (f : A → outcome (option B))
    (g : A → B) (l : list A) fin :
  (∀ a, f a = Ret (Some (g a))) →
  gen_filter_map_list f l fin = Gen (g <$> l) fin.
Proof.
  intros Hf. induction l as [|a l IH]; [done|]. cbn. by rewrite Hf, IH.
Qed.

Lemma joint_group_count_int zss :
  Forall (StronglySorted Z.le) zss →
  joint_group_count ((λ zs, PInt <$> zs) <$> zss)
  = Gen ((λ z, (PInt z, (λ zs, occurrences zs z) <$> zss))
           <$> distinct_keys zss)
        (Ret ()).
Proof.
  intros Hsorted. unfold joint_group_count, joint_groupby, gen_filter_map.
  rewrite joint_groupby_loop_int by (by rewrite ?length_concat_int).
  cbn [yielded finish].
  rewrite (gen_filter_map_list_total _
             (λ '(x, groups), (x, map (λ group, Z.of_nat (length group)) groups)))
    by (by intros [x groups]).
  rewrite <-list_fmap_compose. f_equal.
  apply Forall_fmap_ext_1, Forall_forall. intros z _. cbn. f_equal.
  change (map ?f ?l) with (f <$> l). rewrite <-list_fmap_compose.
  apply Forall_fmap_ext_1, Forall_forall. intros zs _. cbn.
  by rewrite length_fmap.
Qed.

(** A generator expression over the walk keeps the keys that pass its
    condition. *)
Lemma gen_filter_map_keys {B} (f : pyval * list Z → outcome (option B))
    (cs : Z → list Z) (cond : Z → Prop) `{∀ z, Decision (cond z)}
    (h : Z → B) (keys : list Z) :
  (∀ z, f (PInt z, cs z) = Ret (if decide (cond z) then Some (h z) else None)) →
  gen_filter_map f (Gen ((λ z, (PInt z, cs z)) <$> keys) (Ret ()))
  = Gen (h <$> filter cond keys) (Ret ()).
Proof.
  intros Hf. unfold gen_filter_map. cbn [yielded finish].
  induction keys as [|z keys IH]; [done|].
  cbn [fmap list_fmap gen_filter_map_list]. rewrite Hf, IH.
  rewrite filter_cons. by destruct (decide (cond z)).
Qed.

(** *** Counting in lists of integers *)

Lemma count_int zs x : count (PInt <$> zs) (PInt x) = occurrences zs x.
Proof.
  unfold count, occurrences. f_equal.
  induction zs as [|z zs IH]; [done|]. cbn [fmap list_fmap].
  rewrite !filter_cons, pyval_eqb_int.
  destruct (Z.eqb_spec z x) as [->|Hne].
  - rewrite !decide_True by done. cbn. by rewrite IH.
  - rewrite !decide_False by done. done.
Qed.

Lemma count_int_other zs x :
  (∀ z, x ≠ PInt z) → count (PInt <$> zs) x = 0.
Proof.
  intros Hx. unfold count. rewrite filter_none; [done|].
  apply Forall_fmap, Forall_forall. intros z _. cbn.
  destruct x; [by destruct (Hx z0)|done|done|done].
Qed.

Lemma occurrences_nonneg zs x : 0 ≤ occurrences zs x.
Proof. unfold occurrences. lia. Qed.

Lemma occurrences_perm zs zs' x :
  zs ≡ₚ zs' → occurrences zs x = occurrences zs' x.
Proof. intros Hperm. unfold occurrences. by rewrite Hperm. Qed.

Lemma occurrences_app zs zs' x :
  occurrences (zs ++ zs') x = occurrences zs x + occurrences zs' x.
Proof. unfold occurrences. rewrite filter_app, length_app. lia. Qed.

Lemma occurrences_absent zs x : x ∉ zs → occurrences zs x = 0.
Proof.
  intros Hx. unfold occurrences. rewrite filter_none; [done|].
  apply Forall_forall. by intros z Hz ->.
Qed.

Lemma occurrences_replicate n z x :
  occurrences (replicate n z) x = if decide (z = x) then Z.of_nat n else 0.
Proof.
  unfold occurrences. induction n as [|n IH]; cbn [replicate].
  - by destruct (decide (z = x)).
  - rewrite filter_cons. destruct (decide (z = x)); cbn; [|done]. lia.
Qed.

(** The multiplicities written by [from_multiplicities]. *)
Lemma occurrences_expand (g : Z → Z) keys x :
  NoDup keys → (∀ z, 0 ≤ g z) →
  occurrences (concat ((λ z, replicate (Z.to_nat (g z)) z) <$> keys)) x
  = if decide (x ∈ keys) then g x else 0.
Proof.
  intros Hnd Hg. induction Hnd as [|z keys Hz Hnd IH]; cbn.
  - by rewrite decide_False by apply not_elem_of_nil.
  - rewrite occurrences_app, occurrences_replicate, IH.
    destruct (decide (z = x)) as [->|Hne].
    + rewrite (decide_False (P := x ∈ keys)) by done.
      rewrite (decide_True (P := x ∈ x :: keys)) by left.
      specialize (Hg x). lia.
    + destruct (decide (x ∈ keys)) as [Hin|Hout].
      * rewrite (decide_True (P := x ∈ z :: keys)) by (by right). lia.
      * rewrite (decide_False (P := x ∈ z :: keys)); [lia|].
        by intros [->|?]%elem_of_cons.
Qed.

(** *** A multiset of integers is the ascending list of them *)

Lemma key_le_int a b : key_le (PInt a) (PInt b) ↔ a ≤ b.
Proof.
  unfold key_le, key_lt. cbn.
  destruct (Z.compare_spec b a); split; (done || lia).
Qed.

Lemma canonical_int zs : Sorted Z.le zs → canonical (PInt <$> zs).
Proof.
  unfold canonical. induction 1 as [|z zs Hzs IH Hz]; cbn; constructor; [done|].
  destruct Hz as [|y zs Hzy]; cbn; constructor. by apply key_le_int.
Qed.

Lemma init_int zs : __init__ (PInt <$> zs) = PInt <$> Macaulay.sorted zs.
Proof.
  apply canonical_unique.
  - apply object_free_key_injective. apply Forall_forall. intros x Hx.
    rewrite init_perm in Hx. by apply list_elem_of_fmap in Hx as (z & -> & _).
  - apply init_canonical.
  - apply canonical_int, sorted_Sorted.
  - by rewrite init_perm, sorted_perm.
Qed.

Lemma sorted_StronglySorted zs : StronglySorted Z.le (Macaulay.sorted zs).
Proof. apply Sorted_StronglySorted; [apply _|apply sorted_Sorted]. Qed.

Lemma from_multiplicities_int (g : Z → Z) keys :
  from_multiplicities (Gen ((λ z, (PInt z, g z)) <$> keys) (Ret ()))
  = Ret (PInt <$> Macaulay.sorted
           (concat ((λ z, replicate (Z.to_nat (g z)) z) <$> keys))).
Proof.
  unfold from_multiplicities, gen_collect. cbn. f_equal.
  rewrite <-init_int. f_equal.
  induction keys as [|z keys IH]; [done|]. cbn.
  rewrite fmap_app, fmap_replicate. f_equal. apply IH.
Qed.

Lemma gen_any_finished {A} (l : list A) :
  gen_any (Gen l (Ret ())) = Ret (nonempty l).
Proof. by destruct l. Qed.

Lemma nonempty_fmap {A B} (f : A → B) (l : list A) :
  nonempty (f <$> l) = nonempty l.
Proof. by destruct l. Qed.

Lemma nonempty_filter_keys (P : Z → Prop) `{∀ z, Decision (P z)} zss :
  (∀ z, z ∉ concat zss → ¬ P z) →
  nonempty (filter P (distinct_keys zss)) = false ↔ ∀ z, ¬ P z.
Proof.
  intros Hout. split.
  - intros Hempty z Hz.
    destruct (decide (z ∈ concat zss)) as [Hin|Hnotin]; [|by apply (Hout z)].
    assert (z ∈ filter P (distinct_keys zss)) as Hfz.
    { apply list_elem_of_filter. split; [done|]. by apply elem_of_distinct_keys. }
    destruct (filter P (distinct_keys zss)); [by apply elem_of_nil in Hfz|done].
  - intros Hall. rewrite filter_none; [done|].
    apply Forall_forall. intros z _. apply Hall.
Qed.

Lemma occurrences_outside za zb z :
  z ∉ concat [za; zb] → occurrences za z = 0 ∧ occurrences zb z = 0.
Proof.
  cbn. rewrite app_nil_r, elem_of_app. intros Hz.
  split; apply occurrences_absent; tauto.
Qed.

(** The multiplicity of [x] after [from_multiplicities] over the keys
    that pass the condition of an operation. *)
Lemma occurrences_expand_keys (g : Z → Z) (cond : Z → Prop)
    `{∀ z, Decision (cond z)} za zb x :
  (∀ z, 0 ≤ g z) → (∀ z, ¬ cond z → g z = 0) →
  (∀ z, z ∉ concat [za; zb] → g z = 0) →
  occurrences
    (concat ((λ z, replicate (Z.to_nat (g z)) z)
               <$> filter cond (distinct_keys [za; zb]))) x
  = g x.
Proof.
  intros Hg Hcond Hout.
  rewrite occurrences_expand; [|apply NoDup_filter, NoDup_distinct_keys|done].
  destruct (decide (x ∈ filter cond (distinct_keys [za; zb]))) as [|Hx];
    [done|].
  symmetry. destruct (decide (cond x)) as [Hc|Hc]; [|by apply Hcond].
  apply Hout. intros Hin. apply Hx, list_elem_of_filter.
  split; [done|]. by apply elem_of_distinct_keys.
Qed.

Lemma occurrences_expand_sorted (g : Z → Z) (cond : Z → Prop)
    `{∀ z, Decision (cond z)} za zb x :
  (∀ z, 0 ≤ g z) → (∀ z, ¬ cond z → g z = 0) →
  (∀ z, z ∉ concat [za; zb] → g z = 0) →
  occurrences
    (Macaulay.sorted
       (concat ((λ z, replicate (Z.to_nat (g z)) z)
                  <$> filter cond (distinct_keys [za; zb])))) x
  = g x.
Proof.
  intros Hg Hcond Hout.
  rewrite (occurrences_perm _ _ _ (sorted_perm _)).
  by apply occurrences_expand_keys.
Qed.

Section Binary.

Variables za zb : list Z.
Hypothesis Hza : StronglySorted Z.le za.
Hypothesis Hzb : StronglySorted Z.le zb.

Let keys := distinct_keys [za; zb].
Let a z := occurrences za z.
Let b z := occurrences zb z.

Lemma binary_walk :
  joint_group_count [PInt <$> za; PInt <$> zb]
  = Gen ((λ z, (PInt z, [a z; b z])) <$> keys) (Ret ()).
Proof. by apply (joint_group_count_int [za; zb]); repeat constructor. Qed.

Lemma union_int :
  union (PInt <$> za) [PInt <$> zb]
  = Ret (PInt <$> Macaulay.sorted
           (concat ((λ z, replicate (Z.to_nat (Z.max (a z) (b z))) z)
                      <$> filter (λ z, Z.max (a z) (b z) > 0) keys))).
Proof.
  unfold union, __union_items. unfold __iter__; cbn [negb map]. rewrite binary_walk.
  rewrite (gen_filter_map_keys _ (λ z, [a z; b z])
             (λ z, Z.max (a z) (b z) > 0) (λ z, (PInt z, Z.max (a z) (b z)))).
  - apply from_multiplicities_int.
  - intros z. cbn. by repeat case_decide; case_match; try lia.
Qed.

Lemma intersection_int :
  intersection (PInt <$> za) [PInt <$> zb]
  = Ret (PInt <$> Macaulay.sorted
           (concat ((λ z, replicate (Z.to_nat (Z.min (a z) (b z))) z)
                      <$> filter (λ z, Z.min (a z) (b z) > 0) keys))).
Proof.
  unfold intersection, __intersection_items. unfold __iter__; cbn [negb map].
  rewrite binary_walk.
  rewrite (gen_filter_map_keys _ (λ z, [a z; b z])
             (λ z, Z.min (a z) (b z) > 0) (λ z, (PInt z, Z.min (a z) (b z)))).
  - apply from_multiplicities_int.
  - intros z. cbn. by repeat case_decide; case_match; try lia.
Qed.

Lemma difference_int :
  difference (PInt <$> za) [PInt <$> zb]
  = Ret (PInt <$> Macaulay.sorted
           (concat ((λ z, replicate (Z.to_nat (soft_diff (a z) (b z))) z)
                      <$> filter (λ z, soft_diff (a z) (b z) > 0) keys))).
Proof.
  unfold difference, __difference_items. unfold __iter__; cbn [negb map].
  rewrite binary_walk.
  rewrite (gen_filter_map_keys _ (λ z, [a z; b z])
             (λ z, soft_diff (a z) (b z) > 0)
             (λ z, (PInt z, soft_diff (a z) (b z)))).
  - apply from_multiplicities_int.
  - intros z. cbn. by repeat case_decide; case_match; try lia.
Qed.

Lemma issubset_int :
  issubset (PInt <$> za) (PInt <$> zb)
  = Ret (negb (nonempty (filter (λ z, Z.min (a z) (b z) < a z) keys))).
Proof.
  unfold issubset, __intersection_items. unfold __iter__; cbn [negb map].
  rewrite binary_walk.
  rewrite (gen_filter_map_keys _ (λ z, [a z; b z])
             (λ z, Z.min (a z) (b z) < a z)
             (λ z, (PInt z, a z - Z.min (a z) (b z)))).
  - by rewrite gen_any_finished, nonempty_fmap.
  - intros z. cbn. by repeat case_decide; case_match; try lia.
Qed.

Lemma eq_int :
  __eq__ (PInt <$> za) (PInt <$> zb)
  = Ret (negb (nonempty (filter (λ z, a z ≠ b z) keys))).
Proof.
  unfold __eq__, __symmetric_difference_items, __iter__. cbn [negb].
  rewrite binary_walk.
  rewrite (gen_filter_map_keys _ (λ z, [a z; b z])
             (λ z, a z ≠ b z) (λ z, (PInt z, symm_diff (a z) (b z)))).
  - by rewrite gen_any_finished, nonempty_fmap.
  - intros z. cbn. by repeat case_decide; case_match; try lia.
Qed.

End Binary.

Lemma bool_eq_false_iff (b1 b2 : bool) : (b1 = false ↔ b2 = false) → b1 = b2.
Proof. destruct b1, b2; intuition. Qed.

(** X26. On two multisets of integers the operations return, with
    the multiplicities of the specification: the maximum, the minimum
    and the floored difference; and [issubset] answers what comparing
    the union with the second operand answers. *)
Lemma integer_multiset_algebra (la lb : list Z) :
  ∃ U I D sub,
    union (__init__ (PInt <$> la)) [__init__ (PInt <$> lb)] = Ret U
    ∧ intersection (__init__ (PInt <$> la)) [__init__ (PInt <$> lb)] = Ret I
    ∧ difference (__init__ (PInt <$> la)) [__init__ (PInt <$> lb)] = Ret D
    ∧ (∀ x, count U x
            = Z.max (count (__init__ (PInt <$> la)) x) (count (__init__ (PInt <$> lb)) x))
    ∧ (∀ x, count I x
            = Z.min (count (__init__ (PInt <$> la)) x) (count (__init__ (PInt <$> lb)) x))
    ∧ (∀ x, count D x
            = Z.max 0 (count (__init__ (PInt <$> la)) x
                       - count (__init__ (PInt <$> lb)) x))
    ∧ issubset (__init__ (PInt <$> la)) (__init__ (PInt <$> lb)) = Ret sub
    ∧ __eq__ U (__init__ (PInt <$> lb)) = Ret sub.
Proof.
  rewrite !init_int.
  pose proof (sorted_StronglySorted la) as Hza.
  pose proof (sorted_StronglySorted lb) as Hzb.
  set (za := Macaulay.sorted la) in *. set (zb := Macaulay.sorted lb) in *.
  assert (∀ z, z ∉ concat [za; zb] →
               occurrences za z = 0 ∧ occurrences zb z = 0) as Hout
    by apply occurrences_outside.
  pose proof (occurrences_nonneg za) as Ha.
  pose proof (occurrences_nonneg zb) as Hb.
  rewrite union_int, intersection_int, difference_int, issubset_int by done.
  eexists _, _, _, _.
  split; [done|]. split; [done|]. split; [done|].
  split; [|split; [|split; [|split; [done|]]]].
  - intros [x|xs|h s|h id]; [|by rewrite !count_int_other..].
    rewrite !count_int.
    apply (occurrences_expand_sorted
             (λ z, Z.max (occurrences za z) (occurrences zb z))).
    + intros z. specialize (Ha z). lia.
    + intros z. specialize (Ha z). specialize (Hb z). lia.
    + intros z [-> ->]%Hout. done.
  - intros [x|xs|h s|h id]; [|by rewrite !count_int_other..].
    rewrite !count_int.
    apply (occurrences_expand_sorted
             (λ z, Z.min (occurrences za z) (occurrences zb z))).
    + intros z. specialize (Ha z). specialize (Hb z). lia.
    + intros z. specialize (Ha z). specialize (Hb z). lia.
    + intros z [-> ->]%Hout. done.
  - intros [x|xs|h s|h id]; [|by rewrite !count_int_other..].
    rewrite !count_int.
    apply (occurrences_expand_sorted
             (λ z, soft_diff (occurrences za z) (occurrences zb z))).
    + intros z. unfold soft_diff. lia.
    + intros z. unfold soft_diff. lia.
    + intros z [-> ->]%Hout. done.
  - rewrite eq_int by (done || apply sorted_StronglySorted).
    f_equal. f_equal. apply bool_eq_false_iff.
    set (zu := Macaulay.sorted _).
    assert (∀ z, occurrences zu z
                 = Z.max (occurrences za z) (occurrences zb z)) as Hu.
    { intros z. unfold zu.
      apply (occurrences_expand_sorted
               (λ z, Z.max (occurrences za z) (occurrences zb z))).
      - intros y. specialize (Ha y). lia.
      - intros y. specialize (Ha y). specialize (Hb y). lia.
      - intros y [-> ->]%Hout. done. }
    rewrite !nonempty_filter_keys.
    + split; intros H z; specialize (H z); rewrite ?Hu in *; lia.
    + intros z [-> ->]%Hout. lia.
    + intros z [Hz ->]%occurrences_outside. lia.
Qed.

(** *** The in-place union *)

Lemma occurrences_cons z zs x :
  occurrences (z :: zs) x
  = (if decide (z = x) then 1 else 0) + occurrences zs x.
Proof.
  unfold occurrences. rewrite filter_cons.
  destruct (decide (z = x)); cbn [length]; lia.
Qed.

Lemma occurrences_eq_perm zs : ∀ zs',
  (∀ x, occurrences zs x = occurrences zs' x) → zs ≡ₚ zs'.
Proof.
  induction zs as [|z zs IH]; intros zs' Hocc.
  - destruct zs' as [|y zs']; [done|].
    specialize (Hocc y). rewrite occurrences_cons, decide_True in Hocc by done.
    pose proof (occurrences_nonneg zs' y).
    change (occurrences [] y) with 0 in Hocc. lia.
  - assert (z ∈ zs') as Hz.
    { destruct (decide (z ∈ zs')) as [|Hnotin]; [done|].
      specialize (Hocc z).
      rewrite occurrences_cons, decide_True, (occurrences_absent zs') in Hocc
        by done.
      pose proof (occurrences_nonneg zs z). lia. }
    apply elem_of_Permutation in Hz as [rest Hrest].
    rewrite Hrest. constructor. apply IH. intros x.
    specialize (Hocc x).
    rewrite (occurrences_perm zs' (z :: rest)), !occurrences_cons in Hocc
      by done.
    lia.
Qed.

Lemma apply_deltas_add self : ∀ deltas,
  apply_deltas (λ s e n, Ret (__add_quantity s e n)) self deltas
  = Ret (sortedlist_update self
           (concat (map (λ '(elem, n), replicate (Z.to_nat n) elem) deltas))).
Proof.
  intros deltas. revert self.
  induction deltas as [|[elem n] deltas IH]; intros self; [done|].
  cbn [apply_deltas map concat]. cbn. rewrite IH.
  unfold __add_quantity, extend, sortedlist_update. by rewrite foldl_app.
Qed.

Lemma expand_int (g : Z → Z) keys :
  concat (map (λ '(elem, n), replicate (Z.to_nat n) elem)
            ((λ z, (PInt z, g z)) <$> keys))
  = PInt <$> concat ((λ z, replicate (Z.to_nat (g z)) z) <$> keys).
Proof.
  induction keys as [|z keys IH]; [done|]. cbn.
  by rewrite fmap_app, fmap_replicate, <-IH.
Qed.

(** X27. On multisets of integers [update] leaves what [union]
    returns. *)
Lemma update_int (la lb : list Z) :
  ∃ U, union (__init__ (PInt <$> la)) [__init__ (PInt <$> lb)] = Ret U
       ∧ update (__init__ (PInt <$> la)) [__init__ (PInt <$> lb)] = Ret U.
Proof.
  rewrite !init_int.
  pose proof (sorted_StronglySorted la) as Hza.
  pose proof (sorted_StronglySorted lb) as Hzb.
  set (za := Macaulay.sorted la) in *. set (zb := Macaulay.sorted lb) in *.
  pose proof (occurrences_nonneg za) as Ha.
  pose proof (occurrences_nonneg zb) as Hb.
  rewrite union_int by done. eexists. split; [done|].
  unfold update, __union_items, __iter__. cbn [negb map].
  rewrite binary_walk by done.
  rewrite (gen_filter_map_keys _
             (λ z, [occurrences za z; occurrences zb z])
             (λ z, Z.max (occurrences za z) (occurrences zb z)
                   > occurrences za z)
             (λ z, (PInt z, Z.max (occurrences za z) (occurrences zb z)
                            - occurrences za z)));
    last first.
  { intros z. cbn. by repeat case_decide; case_match; try lia. }
  unfold gen_collect. cbn [finish yielded]. cbn.
  rewrite apply_deltas_add. f_equal.
  rewrite (expand_int (λ z, Z.max (occurrences za z) (occurrences zb z)
                            - occurrences za z)).
  apply canonical_unique.
  - apply object_free_key_injective, Forall_forall. intros x Hx.
    rewrite sortedlist_update_perm, <-fmap_app in Hx.
    by apply list_elem_of_fmap in Hx as (z & -> & _).
  - apply sortedlist_update_canonical, canonical_int.
    by apply StronglySorted_Sorted.
  - apply canonical_int, sorted_Sorted.
  - rewrite sortedlist_update_perm, <-fmap_app. apply fmap_Permutation.
    apply occurrences_eq_perm. intros x.
    rewrite occurrences_app.
    rewrite (occurrences_expand_sorted
               (λ z, Z.max (occurrences za z) (occurrences zb z))).
    + rewrite (occurrences_expand_keys
                 (λ z, Z.max (occurrences za z) (occurrences zb z)
                       - occurrences za z)); [lia| | |].
      * intros z. lia.
      * intros z. specialize (Ha z). lia.
      * intros z [-> ->]%occurrences_outside. done.
    + intros z. specialize (Ha z). lia.
    + intros z. specialize (Ha z). specialize (Hb z). lia.
    + intros z [-> ->]%occurrences_outside. done.
Qed.

End IntegerMultisets.

(** * Further properties *)

(** ** What [fit_to_epoch] returns *)

Section FitToEpochSound.

Import Util.

Variable epochs : epochs_arg.
Variable sizes : nat → Z.
Hypothesis Hsizes : ∀ n r, epochs_next epochs n = Some r → r = Ret (sizes n).

Lemma fit_loop_sound i fuel : ∀ idx e off,
  fit_loop fuel i epochs idx (prefix_sum sizes idx) = Ret (e, off) →
  (∀ e', (e' < idx)%nat → prefix_sum sizes (S e') < i) →
  ∃ n, e = Z.of_nat n ∧ off = prefix_sum sizes n
       ∧ (∀ e', (e' < n)%nat → prefix_sum sizes (S e') < i)
       ∧ i ≤ prefix_sum sizes (S n).
Proof.
  induction fuel as [|fuel IH]; intros idx e off; cbn [fit_loop];
    destruct (epochs_next epochs idx) as [r|] eqn:Hnext; try done;
    rewrite (Hsizes idx r Hnext); cbn;
    destruct (Z.gtb_spec (i - prefix_sum sizes idx) (sizes idx)) as [Hgt|Hle];
    try done.
  - intros [= <- <-] Hbefore. exists idx. cbn [prefix_sum].
    split; [done|]. split; [done|]. split; [done|lia].
  - intros Hrun Hbefore. apply (IH (S idx)); [done|].
    intros e' He'. destruct (decide (e' = idx)) as [->|Hne].
    + cbn [prefix_sum]. lia.
    + apply Hbefore. lia.
  - intros [= <- <-] Hbefore. exists idx. cbn [prefix_sum].
    split; [done|]. split; [done|]. split; [done|lia].
Qed.

Lemma fit_to_epoch_sound i fuel e off :
  fit_to_epoch fuel i epochs = Ret (e, off) →
  ∃ n, e = Z.of_nat n ∧ off = prefix_sum sizes n
       ∧ (∀ e', (e' < n)%nat → prefix_sum sizes (S e') < i)
       ∧ i ≤ prefix_sum sizes (S n).
Proof.
  intros Hrun. apply (fit_loop_sound i fuel 0%nat); [done|]. intros e' He'. lia.
Qed.

End FitToEpochSound.

(** ** The bijection between integers and strings *)

Section Strings.

Import Util.

Variable k : Z.
Hypothesis Hk : 1 ≤ k.

Lemma prefix_sum_shift (f : nat → Z) n : ∀ j,
  prefix_sum (λ l, f (j + l)%nat) (S n)
  = f j + prefix_sum (λ l, f (S j + l)%nat) n.
Proof.
  induction n as [|n IH]; intros j.
  - cbn. rewrite Nat.add_0_r. lia.
  - change (prefix_sum (λ l, f (j + l)%nat) (S (S n)))
      with (prefix_sum (λ l, f (j + l)%nat) (S n) + f (j + S n)%nat).
    rewrite IH. cbn [prefix_sum].
    replace (S j + n)%nat with (j + S n)%nat by lia. lia.
Qed.

Section Ord.

Context {A : Type}.
Variable ord : A → outcome Z.
Variable code : A → Z.
Hypothesis Hord : ∀ a, ord a = Ret (code a).

Lemma string_rank_loop_value (s : list A) : ∀ (j : nat) i offset,
  Forall (λ a, 0 ≤ code a < k) s →
  string_rank_loop ord s k (Z.of_nat j) i offset
  = Ret (foldl (λ acc c, acc * k + c) i (code <$> s)
         + (offset + prefix_sum (λ l, k ^ Z.of_nat (j + l)) (length s))).
Proof.
  induction s as [|a s IH]; intros j i offset Hs.
  - cbn. f_equal. lia.
  - apply Forall_cons in Hs as [Hc Hs].
    cbn [string_rank_loop]. rewrite Hord. cbn [mbind outcome_bind].
    assert (((0 <=? code a) && (code a <? k)) = true) as -> by lia.
    replace (Z.of_nat j + 1) with (Z.of_nat (S j)) by lia.
    rewrite IH by done. f_equal. cbn [foldl length fmap list_fmap].
    rewrite (prefix_sum_shift (λ l, k ^ Z.of_nat l)). lia.
Qed.

Lemma string_rank_value (s : list A) :
  Forall (λ a, 0 ≤ code a < k) s →
  string_rank ord s k
  = Ret (string_value k (code <$> s) + shorter_strings k (length s)).
Proof.
  intros Hs. unfold string_rank.
  rewrite (string_rank_loop_value s 0%nat) by done. f_equal.
Qed.

Lemma string_rank_loop_out_of_range (s : list A) : ∀ j i offset,
  ¬ Forall (λ a, 0 ≤ code a < k) s →
  string_rank_loop ord s k j i offset = Raise AssertionError.
Proof.
  induction s as [|a s IH]; intros j i offset Hs.
  - destruct Hs. constructor.
  - cbn [string_rank_loop]. rewrite Hord. cbn [mbind outcome_bind].
    destruct ((0 <=? code a) && (code a <? k)) eqn:Hc; [|done].
    apply IH. intros Hrest. apply Hs. constructor; [lia|done].
Qed.

End Ord.

Lemma radix_pow_pos n : 1 ≤ k ^ Z.of_nat n.
Proof. pose proof (Z.pow_le_mono_l 1 k (Z.of_nat n)). rewrite Z.pow_1_l in *; lia. Qed.

Lemma shorter_strings_succ n :
  shorter_strings k (S n) = shorter_strings k n + k ^ Z.of_nat n.
Proof. reflexivity. Qed.

Lemma shorter_strings_mono n m :
  (n ≤ m)%nat → shorter_strings k n ≤ shorter_strings k m.
Proof.
  induction 1 as [|m _ IH]; [done|].
  rewrite shorter_strings_succ. pose proof (radix_pow_pos m). lia.
Qed.

Lemma string_value_snoc s c :
  string_value k (s ++ [c]) = string_value k s * k + c.
Proof. unfold string_value. by rewrite foldl_app. Qed.

Lemma string_value_bound s :
  Forall (λ c, 0 ≤ c < k) s →
  0 ≤ string_value k s < k ^ Z.of_nat (length s).
Proof.
  induction s as [|c s IH] using rev_ind; intros Hs.
  - cbn. lia.
  - apply Forall_app in Hs as [Hs [Hc _]%Forall_cons].
    specialize (IH Hs). rewrite string_value_snoc, length_app. cbn [length].
    replace (Z.of_nat (length s + 1)) with (Z.succ (Z.of_nat (length s))) by lia.
    rewrite Z.pow_succ_r by lia. nia.
Qed.

Lemma string_value_positive s :
  Forall (λ c, 0 ≤ c < k) s → Exists (λ c, c ≠ 0) s → 1 ≤ string_value k s.
Proof.
  induction s as [|c s IH] using rev_ind; intros Hs Hex.
  - by apply Exists_nil in Hex.
  - apply Forall_app in Hs as [Hs [Hc _]%Forall_cons].
    rewrite string_value_snoc.
    pose proof (string_value_bound s Hs) as [Hv _].
    apply Exists_app in Hex as [Hex|Hex].
    + specialize (IH Hs Hex). nia.
    + apply Exists_cons in Hex as [Hex|Hex]; [nia|by apply Exists_nil in Hex].
Qed.

Lemma string_value_zeros n : string_value k (replicate n 0) = 0.
Proof.
  induction n as [|n IH]; [done|].
  rewrite replicate_S_end, string_value_snoc, IH. lia.
Qed.

Lemma py_divmod_digit v c :
  0 ≤ c < k → py_divmod (v * k + c) k = Ret (v, c).
Proof.
  intros Hc. unfold py_divmod.
  assert ((k =? 0) = false) as -> by lia. f_equal. f_equal.
  - symmetry. apply (Z.div_unique_pos _ _ _ c); lia.
  - symmetry. apply (Z.mod_unique_pos _ _ v); lia.
Qed.

(** The digits of the value of a string are the string, last digit
    first. *)
Lemma string_unrank_loop_digits s : ∀ l,
  Forall (λ c, 0 ≤ c < k) s →
  string_unrank_loop (length s) (string_value k s) k l
  = Ret (0, l ++ reverse s).
Proof.
  induction s as [|c s IH] using rev_ind; intros l Hs.
  - cbn. by rewrite app_nil_r.
  - apply Forall_app in Hs as [Hs [Hc _]%Forall_cons].
    rewrite length_app. cbn [length].
    replace (length s + 1)%nat with (S (length s)) by lia.
    cbn [string_unrank_loop].
    rewrite string_value_snoc, py_divmod_digit by done. cbn.
    rewrite IH by done. by rewrite reverse_snoc, <-app_assoc.
Qed.

(** Whatever the loop is given, it appends digits within the radix,
    and they account for what it took off the integer. *)
Lemma string_unrank_loop_inv n : ∀ v l q l',
  string_unrank_loop n v k l = Ret (q, l') →
  ∃ ds, l' = l ++ ds ∧ length ds = n ∧ Forall (λ c, 0 ≤ c < k) ds
        ∧ v = q * k ^ Z.of_nat n + string_value k (reverse ds).
Proof.
  induction n as [|n IH]; intros v l q l'.
  - cbn. intros [= <- <-]. exists []. rewrite app_nil_r. cbn.
    split; [done|]. split; [done|]. split; [constructor|lia].
  - cbn [string_unrank_loop]. unfold py_divmod.
    assert ((k =? 0) = false) as -> by lia. cbn.
    intros (ds & -> & Hlen & Hds & Hv)%IH.
    exists (v `mod` k :: ds). rewrite <-app_assoc. split; [done|].
    split; [cbn; lia|].
    split; [constructor; [apply Z.mod_pos_bound; lia|done]|].
    rewrite reverse_cons, string_value_snoc.
    replace (Z.of_nat (S n)) with (Z.succ (Z.of_nat n)) by lia.
    rewrite Z.pow_succ_r by lia.
    pose proof (Z.div_mod v k ltac:(lia)). nia.
Qed.

Lemma string_unrank_loop_power m : ∀ l,
  string_unrank_loop m (k ^ Z.of_nat m) k l = Ret (1, l ++ replicate m 0).
Proof.
  induction m as [|m IH]; intros l.
  - cbn. by rewrite app_nil_r.
  - cbn [string_unrank_loop].
    replace (Z.of_nat (S m)) with (Z.succ (Z.of_nat m)) by lia.
    rewrite Z.pow_succ_r by lia.
    replace (k * k ^ Z.of_nat m) with (k ^ Z.of_nat m * k + 0) by lia.
    rewrite py_divmod_digit by lia. cbn.
    rewrite IH, <-app_assoc. done.
Qed.

(** The length that [fit_to_epoch] reports for an index. *)
Lemma fit_to_epoch_strings fuel i n :
  (n ≤ fuel)%nat →
  (n = 0%nat ∨ shorter_strings k n < i) →
  i ≤ shorter_strings k (S n) →
  fit_to_epoch fuel i (Callable (λ l, Ret (k ^ l)))
  = Ret (Z.of_nat n, shorter_strings k n).
Proof.
  intros Hfuel Hlow Hhigh.
  apply (fit_loop_spec _ (λ l, k ^ Z.of_nat l) i n n fuel 0%nat);
    [done|lia|done| |done].
  intros e' He'.
  pose proof (shorter_strings_mono (S e') n ltac:(lia)).
  fold (shorter_strings k (S e')). lia.
Qed.

Lemma string_unrank_value {B} (t : list Z → outcome B) fuel s :
  Forall (λ c, 0 ≤ c < k) s →
  s = [] ∨ Exists (λ c, c ≠ 0) s →
  (length s ≤ fuel)%nat →
  string_unrank t fuel (string_value k s + shorter_strings k (length s)) k
  = t s.
Proof.
  intros Hs Hnz Hfuel. unfold string_unrank.
  pose proof (string_value_bound s Hs) as Hv.
  rewrite (fit_to_epoch_strings fuel _ (length s)); [|done| |].
  - cbn. rewrite Nat2Z.id.
    replace (string_value k s + shorter_strings k (length s)
             - shorter_strings k (length s)) with (string_value k s) by lia.
    rewrite string_unrank_loop_digits by done. cbn.
    change (rev_append (reverse s) []) with (reverse (reverse s)).
    by rewrite reverse_involutive.
  - destruct Hnz as [->|Hnz]; [by left|right].
    pose proof (string_value_positive s Hs Hnz). lia.
  - rewrite shorter_strings_succ. lia.
Qed.

Lemma string_unrank_zeros {B} (t : list Z → outcome B) fuel m :
  (m ≤ fuel)%nat →
  string_unrank t fuel
    (string_value k (replicate (S m) 0)
     + shorter_strings k (length (replicate (S m) 0))) k
  = Raise AssertionError.
Proof.
  intros Hfuel. unfold string_unrank.
  rewrite string_value_zeros, length_replicate, shorter_strings_succ.
  pose proof (radix_pow_pos m) as Hpow.
  rewrite (fit_to_epoch_strings fuel _ m); [|done| |].
  - cbn. rewrite Nat2Z.id.
    replace (0 + (shorter_strings k m + k ^ Z.of_nat m) - shorter_strings k m)
      with (k ^ Z.of_nat m) by lia.
    by rewrite string_unrank_loop_power.
  - right. lia.
  - rewrite shorter_strings_succ. lia.
Qed.

End Strings.

(** X5. [string_unrank] undoes [string_rank]: a string over [k]
    symbols that is empty or holds a symbol other than the first of the
    alphabet is ranked to an integer from which [string_unrank] rebuilds
    its digits and hands them to [t]. *)
Theorem string_unrank_rank {A B} (ord : A → outcome Z) (code : A → Z)
    (t : list Z → outcome B) (fuel : nat) (k : Z) (s : list A) :
  (∀ a, ord a = Ret (code a)) →
  1 ≤ k →
  Forall (λ a, 0 ≤ code a < k) s →
  s = [] ∨ Exists (λ a, code a ≠ 0) s →
  (length s ≤ fuel)%nat →
  ∃ i, Util.string_rank ord s k = Ret i
       ∧ Util.string_unrank t fuel i k = t (code <$> s).
Proof.
  intros Hord Hk Hs Hnz Hfuel.
  exists (string_value k (code <$> s) + shorter_strings k (length s)).
  split; [by apply string_rank_value|].
  rewrite <-(length_fmap code s).
  apply string_unrank_value; [done|by apply Forall_fmap| |by rewrite length_fmap].
  destruct Hnz as [->|Hnz]; [by left|right]. by apply Exists_fmap.
Qed.

Lemma string_unrank_rank_witness :
  ∃ i, Util.string_rank Util.py_int [104; 105] 256 = Ret i
       ∧ Util.string_unrank Ret 5 i 256 = Ret ((λ c, c) <$> [104; 105]).
Proof.
  apply (string_unrank_rank Util.py_int (λ c, c) Ret 5 256 [104; 105]).
  - done.
  - lia.
  - repeat constructor; lia.
  - right. apply Exists_cons_hd. lia.
  - simpl. lia.
Defined.

(** X6. A non-empty string of the first symbol only is ranked to the
    cumulative end of the epoch of the shorter strings, where
    [fit_to_epoch] reports one symbol less: the digits then leave 1
    behind and [string_unrank] fails its [assert i == 0]. *)
Theorem string_unrank_rank_zeros {A B} (ord : A → outcome Z) (code : A → Z)
    (t : list Z → outcome B) (fuel : nat) (k : Z) (s : list A) :
  (∀ a, ord a = Ret (code a)) →
  1 ≤ k →
  s ≠ [] → Forall (λ a, code a = 0) s →
  (length s ≤ S fuel)%nat →
  ∃ i, Util.string_rank ord s k = Ret i
       ∧ Util.string_unrank t fuel i k = Raise AssertionError.
Proof.
  intros Hord Hk Hne Hs Hfuel.
  exists (string_value k (code <$> s) + shorter_strings k (length s)).
  split.
  - apply string_rank_value; [done|].
    eapply Forall_impl; [exact Hs|]. intros a Ha. cbn in Ha. lia.
  - assert (code <$> s = replicate (length s) 0) as ->.
    { clear Hne Hfuel. induction Hs as [|a s Ha Hs IH]; [done|].
      cbn [fmap list_fmap length replicate]. by rewrite Ha, <-IH. }
    destruct s as [|a s]; [done|]. cbn [length] in *.
    rewrite <-(length_replicate (S (length s)) 0) at 2.
    apply string_unrank_zeros; [done|lia].
Qed.

Lemma string_unrank_rank_zeros_witness :
  ∃ i, Util.string_rank Util.py_int [0; 0] 256 = Ret i
       ∧ Util.string_unrank Ret 5 i 256 = Raise AssertionError.
Proof.
  apply (string_unrank_rank_zeros Util.py_int (λ c, c) Ret 5 256 [0; 0]).
  - done.
  - lia.
  - done.
  - repeat constructor.
  - simpl. lia.
Defined.

(** X7. Whatever list of digits [string_unrank] returns for an integer,
    [string_rank] maps it back to that integer. *)
Theorem string_rank_unrank (fuel : nat) (i k : Z) (s : list Z) :
  1 ≤ k →
  Util.string_unrank Ret fuel i k = Ret s →
  Util.string_rank Util.py_int s k = Ret i.
Proof.
  intros Hk. unfold Util.string_unrank.
  destruct (Util.fit_to_epoch fuel i _) as [[e off]| |] eqn:Hfit; try done.
  apply (fit_to_epoch_sound _ (λ l, k ^ Z.of_nat l)) in Hfit
    as (n & -> & -> & _); last first.
  { intros m r [= <-]. done. }
  cbn. rewrite Nat2Z.id.
  destruct (Util.string_unrank_loop n _ k []) as [[q l]| |] eqn:Hloop;
    try done.
  apply string_unrank_loop_inv in Hloop as (ds & -> & Hlen & Hds & Hv);
    [|done].
  cbn. destruct (Z.eqb_spec q 0) as [->|]; [|done]. cbn.
  intros [= <-].
  rewrite (string_rank_value k Util.py_int (λ c, c)); [| done |].
  - rewrite list_fmap_id. f_equal.
    change (rev_append ds []) with (reverse ds) in *.
    rewrite length_reverse, Hlen. unfold shorter_strings. lia.
  - change (rev_append ds []) with (reverse ds). by apply Forall_reverse.
Qed.

Lemma string_rank_unrank_witness :
  Util.string_rank Util.py_int [104; 105] 256 = Ret 26986.
Proof. apply (string_rank_unrank 5 26986 256); [lia|reflexivity]. Defined.

(** X8. The octet strings of [rank_octetstring] and
    [unrank_octetstring]: a [bytes] object that is empty or holds a
    non-zero octet is rebuilt from its rank; one made of NUL octets
    only is not, the decoder fails its [assert i == 0]. *)
Theorem unrank_octetstring_rank (fuel : nat) (s : list Z) :
  Forall (λ c, 0 ≤ c < 256) s →
  (length s ≤ fuel)%nat →
  ∃ i, Util.rank_octetstring s = Ret i
       ∧ Util.unrank_octetstring fuel i
         = if decide (s = [] ∨ Exists (λ c, c ≠ 0) s) then Ret s
           else Raise AssertionError.
Proof.
  intros Hs Hfuel. unfold Util.rank_octetstring, Util.unrank_octetstring.
  change (2 ^ 8) with 256.
  exists (string_value 256 s + shorter_strings 256 (length s)). split.
  - rewrite (string_rank_value 256 Util.py_int (λ c, c)) by done.
    by rewrite list_fmap_id.
  - destruct (decide (s = [] ∨ Exists (λ c, c ≠ 0) s)) as [Hnz|Hz].
    + rewrite string_unrank_value by (done || lia).
      unfold Util.py_bytes.
      assert (forallb (λ c, (0 <=? c) && (c <? 256)) s = true) as ->; [|done].
      apply forallb_forall. intros c Hc%list_elem_of_In.
      apply (proj1 (Forall_forall _ _) Hs) in Hc. lia.
    + destruct s as [|c s]; [destruct Hz; by left|].
      assert (c :: s = replicate (S (length s)) 0) as Hzeros.
      { assert (Forall (λ c, c = 0) (c :: s)) as Hall.
        { apply Forall_forall. intros x Hx.
          destruct (decide (x = 0)) as [|Hne]; [done|].
          destruct Hz. right. apply Exists_exists. by exists x. }
        clear -Hall. change (S (length s)) with (length (c :: s)).
        induction Hall as [|x l Hx Hl IH]; [done|].
        cbn [length replicate]. by rewrite Hx, <-IH. }
      rewrite Hzeros at 1 2. cbn [length] in Hfuel.
      apply string_unrank_zeros; lia.
Qed.

Lemma unrank_octetstring_rank_witness :
  ∃ i, Util.rank_octetstring [104; 105] = Ret i
       ∧ Util.unrank_octetstring 5 i
         = if decide ([104; 105] = [] ∨ Exists (λ c, c ≠ 0) [104; 105])
           then Ret [104; 105] else Raise AssertionError.
Proof.
  apply (unrank_octetstring_rank 5 [104; 105]).
  - repeat constructor; lia.
  - simpl. lia.
Defined.

(** ** [last_qualified] *)

Section LastQualified.

Import Util.

Context {A : Type}.
Variable predicate : A → outcome bool.
Variable p : A → bool.
Hypothesis Hpure : ∀ a, predicate a = Ret (p a).

Lemma last_qualified_loop_returns rie x (iterator : list A) : ∀ prev,
  last_qualified_loop predicate iterator prev rie = Ret x
  ↔ ∃ pre post, iterator = pre ++ post ∧ Forall (λ a, p a = true) pre
                ∧ last (prev :: pre) = Some x ∧ run_ends p post rie.
Proof.
  induction iterator as [|cur it IH]; intros prev; cbn [last_qualified_loop].
  - split.
    + destruct rie; [|done]. intros [= <-]. by exists [], [].
    + intros (pre & post & Heq & _ & Hlast & Hend).
      symmetry in Heq. apply app_eq_nil in Heq as [-> ->].
      cbn in Hlast, Hend. rewrite Hend. congruence.
  - rewrite Hpure. cbn [mbind outcome_bind].
    destruct (p cur) eqn:Hcur; cbn [negb].
    + rewrite IH. split.
      * intros (pre & post & -> & Hpre & Hlast & Hend).
        exists (cur :: pre), post. split; [done|].
        split; [by constructor|]. done.
      * intros (pre & post & Heq & Hpre & Hlast & Hend).
        destruct pre as [|a pre].
        { cbn in Heq. subst post. cbn in Hend. congruence. }
        injection Heq as <- ->. apply Forall_cons in Hpre as [_ Hpre].
        by exists pre, post.
    + split.
      * intros [= <-]. exists [], (cur :: it). repeat split; done.
      * intros (pre & post & Heq & Hpre & Hlast & Hend).
        destruct pre as [|a pre].
        { cbn in Hlast. congruence. }
        injection Heq as <- ->. apply Forall_cons in Hpre as [Ha _]. congruence.
Qed.

Lemma last_qualified_loop_raises rie e (iterator : list A) : ∀ prev,
  last_qualified_loop predicate iterator prev rie = Raise e
  ↔ e = ValueError ∧ Forall (λ a, p a = true) iterator ∧ rie = false.
Proof.
  induction iterator as [|cur it IH]; intros prev; cbn [last_qualified_loop].
  - destruct rie; split; try done.
    + by intros (_ & _ & ?).
    + by intros [= <-].
    + by intros (-> & _ & _).
  - rewrite Hpure. cbn [mbind outcome_bind].
    destruct (p cur) eqn:Hcur; cbn [negb].
    + rewrite IH. rewrite Forall_cons. tauto.
    + split; [done|]. rewrite Forall_cons. intros (_ & [? _] & _). congruence.
Qed.

End LastQualified.

(** X9. [last_qualified] returns [x] exactly when [x] is the last item
    of a non-empty leading run of qualifying items that is followed by
    an item that does not qualify or, [return_if_exhausted] being set,
    by the end of the iterable. *)
Theorem last_qualified_returns {A} (predicate : A → outcome bool)
    (p : A → bool) (iterable : list A) (return_if_exhausted : bool) (x : A) :
  (∀ a, predicate a = Ret (p a)) →
  Util.last_qualified predicate iterable return_if_exhausted = Ret x
  ↔ ∃ pre post, iterable = pre ++ post ∧ Forall (λ a, p a = true) pre
                ∧ last pre = Some x ∧ run_ends p post return_if_exhausted.
Proof.
  intros Hpure. unfold Util.last_qualified.
  destruct iterable as [|cur it].
  - split; [done|]. intros (pre & post & Heq & _ & Hlast & _).
    symmetry in Heq. apply app_eq_nil in Heq as [-> ->]. done.
  - rewrite Hpure. cbn [mbind outcome_bind].
    destruct (p cur) eqn:Hcur; cbn [negb].
    + rewrite (last_qualified_loop_returns predicate p Hpure). split.
      * intros (pre & post & -> & Hpre & Hlast & Hend).
        exists (cur :: pre), post. split; [done|]. split; [by constructor|done].
      * intros (pre & post & Heq & Hpre & Hlast & Hend).
        destruct pre as [|a pre]; [done|].
        injection Heq as <- ->. apply Forall_cons in Hpre as [_ Hpre].
        by exists pre, post.
    + split; [done|]. intros (pre & post & Heq & Hpre & Hlast & Hend).
      destruct pre as [|a pre]; [done|].
      injection Heq as <- ->. apply Forall_cons in Hpre as [Ha _]. congruence.
Qed.

Lemma last_qualified_returns_witness :
  Util.last_qualified (λ n, Ret (n <? 10)) [1; 5; 12; 3] false = Ret 5.
Proof.
  apply (last_qualified_returns _ (λ n, n <? 10)); [done|].
  exists [1; 5], [12; 3]. repeat split; repeat constructor.
Defined.

(** X10. [last_qualified] raises, and then [ValueError], exactly when
    the iterable is empty, when its first item does not qualify, or
    when every item qualifies and [return_if_exhausted] is off. *)
Theorem last_qualified_raises {A} (predicate : A → outcome bool)
    (p : A → bool) (iterable : list A) (return_if_exhausted : bool) (e : exn) :
  (∀ a, predicate a = Ret (p a)) →
  Util.last_qualified predicate iterable return_if_exhausted = Raise e
  ↔ e = ValueError
    ∧ (iterable = []
       ∨ (∃ a, head iterable = Some a ∧ p a = false)
       ∨ (Forall (λ a, p a = true) iterable ∧ return_if_exhausted = false)).
Proof.
  intros Hpure. unfold Util.last_qualified.
  destruct iterable as [|cur it].
  - split; [intros [= <-]; by split; [|left]|by intros [-> _]].
  - rewrite Hpure. cbn [mbind outcome_bind head].
    destruct (p cur) eqn:Hcur; cbn [negb].
    + rewrite (last_qualified_loop_raises predicate p Hpure).
      rewrite Forall_cons. split.
      * intros (-> & Hit & ->). split; [done|]. right. right. done.
      * intros (-> & [?|[(a & [= <-] & Ha)|[[_ Hit] ->]]]); [done|congruence|done].
    + split; [intros [= <-]|by intros [-> _]].
      split; [done|]. right. left. by exists cur.
Qed.

Lemma last_qualified_raises_witness :
  Util.last_qualified (λ n, Ret (n <? 10)) [1; 5] false = Raise ValueError.
Proof.
  apply (last_qualified_raises _ (λ n, n <? 10)); [done|].
  split; [done|]. right. right. split; [repeat constructor|done].
Defined.

(** ** [MixedBase.to_int] is an injection into the integers below [order] *)

Lemma to_int_loop_digits bs : ∀ ds i r,
  Util.MixedBase.to_int_loop bs ds i = Ret r → digits_in_range bs ds.
Proof.
  induction bs as [|b bs IH]; intros [|d ds] i r; cbn; try done.
  - intros _. constructor.
  - destruct ((0 <=? d) && (d <? b)) eqn:Hd; [|done].
    intros Hrun. constructor; [lia|]. by eapply IH.
Qed.

Lemma msd_fold_bounds bs : ∀ ds i,
  digits_in_range bs ds → 0 ≤ i →
  0 ≤ foldr Z.mul 1 bs
  ∧ i * foldr Z.mul 1 bs
    ≤ foldl (λ acc '(b, d), acc * b + d) i (zip bs ds)
    < (i + 1) * foldr Z.mul 1 bs.
Proof.
  induction bs as [|b bs IH]; intros ds i Hds Hi.
  - apply Forall2_nil_inv_l in Hds as ->. cbn. lia.
  - apply Forall2_cons_inv_l in Hds as (d & ds' & Hd & Hds & ->).
    cbn [zip zip_with foldl foldr].
    destruct (IH ds' (i * b + d) Hds ltac:(nia)) as (Hprod & Hlow & Hhigh).
    split; [nia|]. split; nia.
Qed.

Lemma msd_fold_inj bs : ∀ ds ds' i i',
  digits_in_range bs ds → digits_in_range bs ds' → 0 ≤ i → 0 ≤ i' →
  foldl (λ acc '(b, d), acc * b + d) i (zip bs ds)
  = foldl (λ acc '(b, d), acc * b + d) i' (zip bs ds') →
  i = i' ∧ ds = ds'.
Proof.
  induction bs as [|b bs IH]; intros ds ds' i i' Hds Hds' Hi Hi'.
  - apply Forall2_nil_inv_l in Hds as ->.
    apply Forall2_nil_inv_l in Hds' as ->. done.
  - apply Forall2_cons_inv_l in Hds as (d & ds1 & Hd & Hds & ->).
    apply Forall2_cons_inv_l in Hds' as (d' & ds1' & Hd' & Hds' & ->).
    cbn [zip zip_with foldl]. intros Heq.
    apply IH in Heq as [Hacc ->]; [|done|done|nia|nia].
    assert (i = i') by nia. subst i'.
    assert (d = d') by lia. by subst d'.
Qed.

Lemma product_reverse bs : foldr Z.mul 1 (reverse bs) = foldr Z.mul 1 bs.
Proof.
  induction bs as [|b bs IH]; [done|].
  rewrite reverse_cons, foldr_app. cbn [foldr].
  rewrite <-IH. generalize (reverse bs). intros l.
  induction l as [|x l IHl]; cbn [foldr]; [lia|]. rewrite IHl. lia.
Qed.

(** X11. Whenever [to_int] returns, the integer lies between 0 and
    [self.max], and no other digit tuple is mapped to it. *)
Theorem to_int_injective (self : Util.MixedBase.t) (value : list Z) (i : Z) :
  Util.MixedBase.to_int self value = Ret i →
  0 ≤ i ≤ Util.MixedBase.max self
  ∧ ∀ value', Util.MixedBase.to_int self value' = Ret i → value' = value.
Proof.
  unfold Util.MixedBase.to_int, Util.MixedBase.max, Util.MixedBase.order.
  intros Hrun.
  pose proof (to_int_loop_digits _ _ _ _ Hrun) as Hds.
  rewrite to_int_loop_in_range in Hrun by done. injection Hrun as <-.
  split.
  - destruct (msd_fold_bounds _ _ 0 Hds ltac:(lia)) as (_ & Hlow & Hhigh).
    rewrite product_reverse in Hlow, Hhigh. lia.
  - intros value' Hrun'.
    pose proof (to_int_loop_digits _ _ _ _ Hrun') as Hds'.
    rewrite to_int_loop_in_range in Hrun' by done. injection Hrun' as Heq.
    by apply msd_fold_inj in Heq as [_ ->].
Qed.

Lemma to_int_injective_witness :
  0 ≤ 5 ≤ Util.MixedBase.max (Util.MixedBase.MixedBase [2; 3])
  ∧ ∀ value',
      Util.MixedBase.to_int (Util.MixedBase.MixedBase [2; 3]) value' = Ret 5 →
      value' = [2; 1].
Proof. apply to_int_injective. reflexivity. Defined.

(** ** Combinations as multisets *)

Section Shift.

Import Multiset Macaulay.

Lemma shift_up_down l : ∀ start, shift_up start (shift_down start l) = l.
Proof.
  induction l as [|x l IH]; intros start; [done|].
  unfold shift_up, shift_down in *. cbn. rewrite IH. f_equal. lia.
Qed.

Lemma shift_down_up l : ∀ start, shift_down start (shift_up start l) = l.
Proof.
  induction l as [|x l IH]; intros start; [done|].
  unfold shift_up, shift_down in *. cbn. rewrite IH. f_equal. lia.
Qed.

Lemma shift_down_length l : ∀ start, length (shift_down start l) = length l.
Proof.
  intros start. unfold shift_down. rewrite length_fmap. revert start.
  induction l as [|x l IH]; intros start; cbn; [done|]. by rewrite IH.
Qed.

Lemma shift_up_length l : ∀ start, length (shift_up start l) = length l.
Proof.
  intros start. unfold shift_up. rewrite length_fmap. revert start.
  induction l as [|x l IH]; intros start; cbn; [done|]. by rewrite IH.
Qed.

Lemma shift_down_lower l : ∀ start b,
  StronglySorted Z.lt l → Forall (λ y, b ≤ y) l →
  Forall (λ y, b - start ≤ y) (shift_down start l).
Proof.
  induction l as [|x l IH]; intros start b Hsorted Hl; [constructor|].
  apply Forall_cons in Hl as [Hx Hl].
  apply StronglySorted_cons in Hsorted as [Hxl Hsorted].
  unfold shift_down in *. cbn. constructor; [lia|].
  replace (b - start) with ((b + 1) - (start + 1)) by lia.
  apply IH; [done|]. eapply Forall_impl; [exact Hxl|]. intros y Hy. cbn in Hy. lia.
Qed.

Lemma shift_down_sorted l : ∀ start,
  StronglySorted Z.lt l → StronglySorted Z.le (shift_down start l).
Proof.
  induction l as [|x l IH]; intros start Hsorted; [constructor|].
  apply StronglySorted_cons in Hsorted as [Hxl Hsorted].
  change (shift_down start (x :: l))
    with ((x - start) :: shift_down (start + 1) l).
  constructor; [by apply IH|].
  replace (x - start) with ((x + 1) - (start + 1)) by lia.
  apply shift_down_lower; [done|].
  eapply Forall_impl; [exact Hxl|]. intros y Hy. cbn in Hy. lia.
Qed.

Lemma shift_up_lower l : ∀ start b,
  Forall (λ y, b ≤ y) l → 0 ≤ start →
  Forall (λ y, b + start ≤ y) (shift_up start l).
Proof.
  induction l as [|x l IH]; intros start b Hl Hstart; [constructor|].
  apply Forall_cons in Hl as [Hx Hl].
  change (shift_up start (x :: l)) with ((x + start) :: shift_up (start + 1) l).
  constructor; [lia|].
  eapply Forall_impl; [apply (IH (start + 1) b); [done|lia]|].
  intros y Hy. cbn in Hy. lia.
Qed.

Lemma shift_up_sorted l : ∀ start,
  0 ≤ start → StronglySorted Z.le l → StronglySorted Z.lt (shift_up start l).
Proof.
  induction l as [|x l IH]; intros start Hstart Hsorted; [constructor|].
  apply StronglySorted_cons in Hsorted as [Hxl Hsorted].
  change (shift_up start (x :: l)) with ((x + start) :: shift_up (start + 1) l).
  constructor; [apply IH; [lia|done]|].
  eapply Forall_impl; [apply (shift_up_lower l (start + 1) x); [done|lia]|].
  intros y Hy. cbn in Hy. lia.
Qed.

Lemma sorted_fixed l : Sorted Z.le l → sorted l = l.
Proof.
  intros Hl. apply (Sorted_unique Z.le); [apply sorted_Sorted|done|].
  apply sorted_perm.
Qed.

Lemma sorted_elements_list l :
  StronglySorted Z.lt l → sorted (elements (list_to_set l : gset Z)) = l.
Proof.
  intros Hl. apply (Sorted_unique Z.le).
  - apply sorted_Sorted.
  - apply StronglySorted_Sorted.
    clear -Hl. induction Hl as [|x l Hl IH Hx]; constructor; [done|].
    eapply Forall_impl; [exact Hx|]. intros y Hy. cbn in Hy. lia.
  - rewrite sorted_perm. apply elements_list_to_set.
    clear -Hl. induction Hl as [|x l Hl IH Hx]; constructor; [|done].
    intros Hin. apply (proj1 (Forall_forall _ _) Hx) in Hin. lia.
Qed.

Lemma as_integers_int zs : as_integers (PInt <$> zs) = Ret zs.
Proof. induction zs as [|z zs IH]; [done|]. cbn. by rewrite IH. Qed.

Lemma combination_to_multiset_int (s : gset Z) :
  combination_to_multiset s = PInt <$> shift_down 0 (sorted (elements s)).
Proof.
  unfold combination_to_multiset.
  assert (∀ l start,
            (λ '(offset, elem), PInt (elem - offset)) <$> enumerate start l
            = PInt <$> shift_down start l) as ->.
  { induction l as [|x l IH]; intros start; [done|].
    cbn. rewrite IH. done. }
  rewrite init_int, sorted_fixed; [done|].
  apply StronglySorted_Sorted, shift_down_sorted, sorted_elements_strict.
Qed.

Lemma multiset_to_combination_int zs :
  Sorted Z.le zs →
  multiset_to_combination (PInt <$> zs) = Ret (list_to_set (shift_up 0 zs)).
Proof.
  intros Hzs. unfold multiset_to_combination, __iter__.
  rewrite as_integers_int. cbn. by rewrite sorted_fixed.
Qed.

End Shift.

(** X12. A combination survives the passage through its multiset:
    [multiset_to_combination] undoes [combination_to_multiset] on
    every finite set of integers, and the multiset has as many
    elements as the set. *)
Theorem multiset_to_combination_of_combination (s : gset Z) :
  Macaulay.multiset_to_combination (Macaulay.combination_to_multiset s) = Ret s
  ∧ Multiset.__len__ (Macaulay.combination_to_multiset s) = Z.of_nat (size s).
Proof.
  rewrite combination_to_multiset_int. split.
  - rewrite multiset_to_combination_int.
    + by rewrite shift_up_down, sorted_elements_set.
    + apply StronglySorted_Sorted, shift_down_sorted, sorted_elements_strict.
  - unfold Multiset.__len__.
    by rewrite length_fmap, shift_down_length, sorted_elements_length.
Qed.

(** X13. A multiset of integers survives the passage through its
    combination: [multiset_to_combination] returns a set of as many
    elements, from which [combination_to_multiset] rebuilds the
    multiset. *)
Theorem combination_to_multiset_of_multiset (l : list Z) :
  ∃ s : gset Z,
    Macaulay.multiset_to_combination (Multiset.__init__ (Multiset.PInt <$> l))
    = Ret s
    ∧ size s = length l
    ∧ Macaulay.combination_to_multiset s
      = Multiset.__init__ (Multiset.PInt <$> l).
Proof.
  rewrite init_int.
  pose proof (sorted_StronglySorted l) as Hsorted.
  assert (length (Macaulay.sorted l) = length l) as Hlen
    by (by rewrite sorted_perm).
  set (zs := Macaulay.sorted l) in *.
  pose proof (shift_up_sorted zs 0 ltac:(lia) Hsorted) as Hup.
  exists (list_to_set (shift_up 0 zs)). split; [|split].
  - apply multiset_to_combination_int. by apply StronglySorted_Sorted.
  - rewrite <-sorted_elements_length, sorted_elements_list by done.
    by rewrite shift_up_length.
  - rewrite combination_to_multiset_int, sorted_elements_list by done.
    by rewrite shift_down_up.
Qed.

(** ** Integers as multisets of a given size *)

Section MultisetRank.

Import Multiset Macaulay.

(** Decoding the rank of a known combination, in full. *)
Lemma integer_to_combination_known fuel (s : gset Z) :
  set_Forall (λ x, 0 ≤ x) s →
  (Z.to_nat (rank 1 (sorted (elements s))) + size s + 64 ≤ fuel)%nat →
  integer_to_combination fuel (rank 1 (sorted (elements s))) (Z.of_nat (size s))
  = Ret s.
Proof.
  intros Hs Hfuel. unfold integer_to_combination.
  pose proof (rank_nonneg (sorted (elements s)) 1) as Hr.
  assert ((rank 1 (sorted (elements s)) <? 0) = false) as -> by lia.
  destruct (decide (size s = 0%nat)) as [Hempty|Hne].
  - apply size_empty_inv in Hempty. apply leibniz_equiv in Hempty as ->.
    rewrite size_empty, sorted_elements_empty. reflexivity.
  - assert (((Z.of_nat (size s) <? 1) && (rank 1 (sorted (elements s)) >? 0))
            = false) as -> by lia.
    rewrite <-sorted_elements_length.
    rewrite loop_decode_known.
    + cbn. by rewrite sorted_elements_set, (right_id_L ∅ (∪)).
    + apply sorted_elements_strict.
    + by apply sorted_elements_Forall.
    + set_solver.
    + rewrite sorted_elements_length. lia.
Qed.

Lemma multiset_to_integer_combination (s : gset Z) :
  set_Forall (λ x, 0 ≤ x) s →
  multiset_to_integer (combination_to_multiset s)
  = Ret (rank 1 (sorted (elements s))).
Proof.
  intros Hs. unfold multiset_to_integer.
  rewrite combination_to_multiset_int, multiset_to_combination_int.
  - cbn. rewrite shift_up_down, sorted_elements_set.
    by apply combination_to_integer_rank.
  - apply StronglySorted_Sorted, shift_down_sorted, sorted_elements_strict.
Qed.

End MultisetRank.

(** X14. Decoding [i >= 0] into a multiset of [k >= 1] elements and
    encoding the result gives [i] back; the multiset holds [k]
    non-negative integers. *)
Theorem multiset_to_integer_of_integer (fuel : nat) (i k : Z) :
  0 ≤ i → (1 ≤ k ∨ i = 0) →
  (Z.to_nat i + Z.to_nat k + 64 ≤ fuel)%nat →
  ∃ zs, Macaulay.integer_to_multiset fuel i k = Ret (Multiset.PInt <$> zs)
        ∧ Multiset.__len__ (Multiset.PInt <$> zs) = Z.max 0 k
        ∧ Forall (λ z, 0 ≤ z) zs
        ∧ Macaulay.multiset_to_integer (Multiset.PInt <$> zs) = Ret i.
Proof.
  intros Hi Hk Hfuel.
  destruct (integer_to_combination_decode fuel i k Hi Hk Hfuel)
    as (s & _ & Hrun & Hsize & Hnonneg & Hrank).
  exists (shift_down 0 (Macaulay.sorted (elements s))).
  unfold Macaulay.integer_to_multiset. rewrite Hrun. cbn [mbind outcome_bind].
  rewrite <-combination_to_multiset_int. split; [done|]. split; [|split].
  - rewrite combination_to_multiset_int. unfold Multiset.__len__.
    rewrite length_fmap, shift_down_length, sorted_elements_length. lia.
  - apply (shift_down_lower _ 0 0); [apply sorted_elements_strict|].
    by apply sorted_elements_Forall.
  - by rewrite multiset_to_integer_combination, Hrank.
Qed.

Lemma multiset_to_integer_of_integer_witness :
  ∃ zs, Macaulay.integer_to_multiset 141 72 5 = Ret (Multiset.PInt <$> zs)
        ∧ Multiset.__len__ (Multiset.PInt <$> zs) = Z.max 0 5
        ∧ Forall (λ z, 0 ≤ z) zs
        ∧ Macaulay.multiset_to_integer (Multiset.PInt <$> zs) = Ret 72.
Proof. apply multiset_to_integer_of_integer; lia. Defined.

(** X15. Encoding a multiset of non-negative integers and decoding the
    rank into as many elements gives the multiset back. *)
Theorem integer_to_multiset_of_multiset (l : list Z) :
  Forall (λ z, 0 ≤ z) l →
  ∃ i, Macaulay.multiset_to_integer (Multiset.__init__ (Multiset.PInt <$> l))
       = Ret i
       ∧ 0 ≤ i
       ∧ ∀ fuel, (Z.to_nat i + length l + 64 ≤ fuel)%nat →
           Macaulay.integer_to_multiset fuel i
             (Multiset.__len__ (Multiset.__init__ (Multiset.PInt <$> l)))
           = Ret (Multiset.__init__ (Multiset.PInt <$> l)).
Proof.
  intros Hl. rewrite init_int.
  pose proof (sorted_StronglySorted l) as Hsorted.
  assert (length (Macaulay.sorted l) = length l) as Hlen
    by (by rewrite sorted_perm).
  assert (Forall (λ z, 0 ≤ z) (Macaulay.sorted l)) as Hnonneg
    by (by rewrite sorted_perm).
  set (zs := Macaulay.sorted l) in *.
  pose proof (shift_up_sorted zs 0 ltac:(lia) Hsorted) as Hup.
  set (s := list_to_set (shift_up 0 zs) : gset Z).
  assert (Macaulay.sorted (elements s) = shift_up 0 zs) as Hs
    by (by apply sorted_elements_list).
  assert (set_Forall (λ x, 0 ≤ x) s) as Hs0.
  { apply sorted_elements_Forall. rewrite Hs.
    by apply (shift_up_lower zs 0 0). }
  assert (Macaulay.combination_to_multiset s = Multiset.PInt <$> zs) as Hms
    by (by rewrite combination_to_multiset_int, Hs, shift_down_up).
  exists (rank 1 (Macaulay.sorted (elements s))).
  split; [by rewrite <-Hms, multiset_to_integer_combination|].
  split; [apply rank_nonneg|].
  intros fuel Hfuel. unfold Macaulay.integer_to_multiset, Multiset.__len__.
  rewrite length_fmap.
  assert (size s = length zs) as Hsize
    by (by rewrite <-sorted_elements_length, Hs, shift_up_length).
  rewrite <-Hsize, integer_to_combination_known by (done || lia).
  cbn. by rewrite Hms.
Qed.

Lemma integer_to_multiset_of_multiset_witness :
  ∃ i, Macaulay.multiset_to_integer
         (Multiset.__init__ (Multiset.PInt <$> [2; 0; 2]))
       = Ret i
       ∧ 0 ≤ i
       ∧ ∀ fuel, (Z.to_nat i + length [2; 0; 2] + 64 ≤ fuel)%nat →
           Macaulay.integer_to_multiset fuel i
             (Multiset.__len__ (Multiset.__init__ (Multiset.PInt <$> [2; 0; 2])))
           = Ret (Multiset.__init__ (Multiset.PInt <$> [2; 0; 2])).
Proof. apply integer_to_multiset_of_multiset. repeat constructor; lia. Defined.

(** ** Integers as multisets of any size *)

Section VarMultiset.

Import Util Multiset Macaulay.

Variable n : Z.
Hypothesis Hn : 1 ≤ n.

Lemma multicomb_choose (j : nat) :
  multicomb n (Z.of_nat j) = Ret (multisets_of_size n j).
Proof. unfold multicomb. apply comb_choose. lia. Qed.

Lemma multisets_of_size_pos (j : nat) : 1 ≤ multisets_of_size n j.
Proof.
  unfold multisets_of_size, choose.
  pose proof (binomial_pos (Z.to_nat (n + Z.of_nat j - 1)) j ltac:(lia)). lia.
Qed.

Lemma prefix_sum_multisets_lower e :
  Z.of_nat e ≤ prefix_sum (multisets_of_size n) e.
Proof.
  induction e as [|e IH]; [done|]. cbn [prefix_sum].
  pose proof (multisets_of_size_pos e). lia.
Qed.

Lemma prefix_sum_multisets_mono e e' :
  (e ≤ e')%nat →
  prefix_sum (multisets_of_size n) e ≤ prefix_sum (multisets_of_size n) e'.
Proof.
  induction 1 as [|m _ IH]; [done|]. cbn [prefix_sum].
  pose proof (multisets_of_size_pos m). lia.
Qed.

(** Every positive index has its epoch. *)
Lemma epoch_exists i :
  1 ≤ i →
  ∃ e, (e < Z.to_nat i)%nat
       ∧ prefix_sum (multisets_of_size n) e < i
         ≤ prefix_sum (multisets_of_size n) (S e).
Proof.
  intros Hi.
  assert (∀ m, prefix_sum (multisets_of_size n) m < i
               ∨ ∃ e, (e < m)%nat
                      ∧ prefix_sum (multisets_of_size n) e < i
                        ≤ prefix_sum (multisets_of_size n) (S e)) as Hsearch.
  { induction m as [|m [IH|(e & He & Hfit)]].
    - left. cbn. lia.
    - destruct (Z.le_gt_cases i (prefix_sum (multisets_of_size n) (S m)));
        [right; exists m; split; [lia|done]|left; lia].
    - right. exists e. split; [lia|done]. }
  destruct (Hsearch (Z.to_nat i)) as [Hlow|Hfound]; [|done].
  pose proof (prefix_sum_multisets_lower (Z.to_nat i)). lia.
Qed.

Lemma py_sum_multicomb e :
  py_sum (λ k, multicomb n k) (range (Z.of_nat e))
  = Ret (prefix_sum (multisets_of_size n) e).
Proof.
  unfold range. rewrite Nat2Z.id.
  assert (∀ m l acc,
            py_sum (λ k, multicomb n k) l = Ret acc →
            py_sum (λ k, multicomb n k) (l ++ [Z.of_nat m])
            = Ret (acc + multisets_of_size n m)) as Hsnoc.
  { intros m l. induction l as [|x l IH]; intros acc.
    - cbn [py_sum app]. intros [= <-]. rewrite multicomb_choose. cbn.
      f_equal. lia.
    - cbn [py_sum app].
      destruct (multicomb n x) as [c| |]; cbn; try done.
      destruct (py_sum _ l) as [rest| |] eqn:Hrest; cbn; try done.
      intros [= <-]. rewrite (IH rest) by done. cbn. f_equal. lia. }
  induction e as [|e IH]; [done|].
  rewrite seq_S, fmap_app. cbn [fmap list_fmap Nat.add].
  by apply Hsnoc.
Qed.

(** Decoding an index within the epoch [e] and encoding the result. *)
Lemma varmultiset_epoch fuel i e :
  (∀ e', (e' < e)%nat → prefix_sum (multisets_of_size n) (S e') < i) →
  i ≤ prefix_sum (multisets_of_size n) (S e) →
  (1 ≤ e)%nat ∧ prefix_sum (multisets_of_size n) e ≤ i
  ∨ i = prefix_sum (multisets_of_size n) e →
  (Z.to_nat i + e + 64 ≤ fuel)%nat →
  ∃ ms, integer_to_varmultiset fuel i n = Ret ms
        ∧ __len__ ms = Z.of_nat e
        ∧ varmultiset_to_integer ms n = Ret i.
Proof.
  intros Hbefore Hfit He Hfuel.
  pose proof (prefix_sum_multisets_lower e) as Hlow.
  unfold integer_to_varmultiset, fit_to_epoch.
  rewrite (fit_loop_spec _ (multisets_of_size n) i e e fuel 0%nat);
    [|intros m _; cbn; by rewrite multicomb_choose|lia|lia| |done];
    last first.
  { intros e' He'. apply Hbefore. lia. }
  cbn [mbind outcome_bind].
  destruct (integer_to_combination_decode fuel
              (i - prefix_sum (multisets_of_size n) e) (Z.of_nat e))
    as (s & _ & Hrun & Hsize & Hnonneg & Hrank); [lia|lia|lia|].
  unfold integer_to_multiset. rewrite Hrun. cbn [mbind outcome_bind].
  exists (combination_to_multiset s).
  assert (__len__ (combination_to_multiset s) = Z.of_nat e) as Hlen.
  { rewrite combination_to_multiset_int. unfold __len__.
    rewrite length_fmap, shift_down_length, sorted_elements_length. lia. }
  split; [done|]. split; [done|].
  unfold varmultiset_to_integer.
  rewrite Hlen, py_sum_multicomb. cbn [mbind outcome_bind].
  rewrite multiset_to_integer_combination, Hrank by done.
  cbn. f_equal. lia.
Qed.

End VarMultiset.

(** X16. Over an alphabet of [n >= 1] symbols, every index other than
    1 makes the round trip: [integer_to_varmultiset] returns a
    multiset, and [varmultiset_to_integer] maps that multiset back to
    the index. *)
Theorem varmultiset_to_integer_of_integer (fuel : nat) (i n : Z) :
  1 ≤ n → 0 ≤ i → i ≠ 1 →
  (2 * Z.to_nat i + 64 ≤ fuel)%nat →
  ∃ ms, Macaulay.integer_to_varmultiset fuel i n = Ret ms
        ∧ Macaulay.varmultiset_to_integer ms n = Ret i.
Proof.
  intros Hn Hi Hi1 Hfuel.
  destruct (decide (i = 0)) as [->|Hi0].
  - destruct (varmultiset_epoch n Hn fuel 0 0) as (ms & Hrun & _ & Hback);
      [lia|cbn; pose proof (multisets_of_size_pos n Hn 0); lia|by right|lia|].
    by exists ms.
  - destruct (epoch_exists n Hn i ltac:(lia)) as (e & He & Hlow & Hhigh).
    assert (e ≠ 0%nat) as He0.
    { intros ->. cbn in Hhigh. unfold multisets_of_size in Hhigh.
      rewrite choose_0_r in Hhigh. lia. }
    destruct (varmultiset_epoch n Hn fuel i e) as (ms & Hrun & _ & Hback);
      [|done|left; lia|lia|by exists ms].
    intros e' He'.
    pose proof (prefix_sum_multisets_mono n Hn (S e') e ltac:(lia)). lia.
Qed.

Lemma varmultiset_to_integer_of_integer_witness :
  ∃ ms, Macaulay.integer_to_varmultiset 100 7 6 = Ret ms
        ∧ Macaulay.varmultiset_to_integer ms 6 = Ret 7.
Proof. apply varmultiset_to_integer_of_integer; lia. Defined.

(** ** [integer_to_varcombination] beyond the last subset *)

Section VarCombination.

Import Util Macaulay.

Lemma binomial_row_pascal (n : nat) : ∀ e,
  prefix_sum (λ k, Z.of_nat (binomial (S n) k)) (S e)
  = prefix_sum (λ k, Z.of_nat (binomial n k)) (S e)
    + prefix_sum (λ k, Z.of_nat (binomial n k)) e.
Proof.
  induction e as [|e IH].
  - cbn [prefix_sum]. rewrite !binomial_0_r. lia.
  - change (prefix_sum ?f (S (S e))) with (prefix_sum f (S e) + f (S e)).
    rewrite IH, binomial_succ. cbn [prefix_sum]. lia.
Qed.

Lemma binomial_row_mono (n e : nat) :
  prefix_sum (λ k, Z.of_nat (binomial n k)) e
  ≤ prefix_sum (λ k, Z.of_nat (binomial n k)) (S e).
Proof. cbn [prefix_sum]. lia. Qed.

(** The subsets of up to [e - 1] elements are at most all subsets. *)
Lemma binomial_row_sum (n : nat) : ∀ e,
  prefix_sum (λ k, Z.of_nat (binomial n k)) e ≤ 2 ^ Z.of_nat n.
Proof.
  induction n as [|n IH]; intros e.
  - destruct e as [|e]; [done|].
    induction e as [|e IHe]; [done|].
    change (prefix_sum ?f (S (S e))) with (prefix_sum f (S e) + f (S e)).
    cbn beta. change (binomial 0 (S e)) with 0%nat. lia.
  - destruct e as [|e].
    + cbn [prefix_sum]. lia.
    + rewrite binomial_row_pascal.
      pose proof (IH (S e)). pose proof (IH e).
      replace (Z.of_nat (S n)) with (Z.succ (Z.of_nat n)) by lia.
      rewrite Z.pow_succ_r by lia. lia.
Qed.

Lemma fit_loop_past_subsets (n : nat) i fuel : ∀ idx,
  2 ^ Z.of_nat n < i →
  fit_loop fuel i (Callable (λ k, comb (Z.of_nat n) k)) idx
    (prefix_sum (λ k, Z.of_nat (binomial n k)) idx)
  = OutOfFuel.
Proof.
  induction fuel as [|fuel IH]; intros idx Hi; cbn [fit_loop epochs_next];
    rewrite comb_choose by lia; cbn [mbind outcome_bind];
    pose proof (binomial_row_sum n (S idx)) as Hsum;
    cbn [prefix_sum] in Hsum; unfold choose; rewrite Nat2Z.id;
    assert ((i - prefix_sum (λ k, Z.of_nat (binomial n k)) idx
             >? Z.of_nat (binomial n idx)) = true) as -> by lia;
    [done|].
  by apply (IH (S idx)).
Qed.

End VarCombination.

(** X17. [integer_to_varcombination] does not return for an index
    above the number of subsets of the [n] symbols: the sizes
    [comb(n, k)] are 0 from [k = n + 1] on, their cumulative sum stays
    at [2 ** n], and the loop of [fit_to_epoch] over
    [itertools.count()] goes on for ever. *)
Theorem integer_to_varcombination_diverges (i n : Z) :
  0 ≤ n → 2 ^ n < i →
  ∀ fuel, Macaulay.integer_to_varcombination fuel i n = OutOfFuel.
Proof.
  intros Hn Hi fuel.
  unfold Macaulay.integer_to_varcombination, Util.fit_to_epoch.
  rewrite <-(Z2Nat.id n) in Hi |- * by done.
  pose proof (fit_loop_past_subsets (Z.to_nat n) i fuel 0%nat Hi) as Hloop.
  cbn [prefix_sum] in Hloop. by rewrite Hloop.
Qed.

Lemma integer_to_varcombination_diverges_witness :
  Macaulay.integer_to_varcombination 50 9 3 = OutOfFuel.
Proof. apply (integer_to_varcombination_diverges 9 3); [lia|reflexivity]. Defined.

(** ** Elements of a multiset: adding, counting, discarding *)

Section Elements.

Import Multiset.

Lemma pyval_eqb_sym x : ∀ y, pyval_eqb x y = pyval_eqb y x.
Proof.
  induction x as [z|xs IH|h s|h id] using pyval_nested_ind;
    intros [z'|ys|h' s'|h' id']; cbn; try done.
  - apply Z.eqb_sym.
  - revert ys. induction IH as [|x xs Hx _ IHxs]; intros [|y ys]; cbn; try done.
    by rewrite Hx, IHxs.
  - apply String.eqb_sym.
  - by rewrite Z.eqb_sym, Nat.eqb_sym.
Qed.

Lemma pyval_eqb_trans x : ∀ y z,
  pyval_eqb x y = true → pyval_eqb y z = true → pyval_eqb x z = true.
Proof.
  induction x as [a|xs IH|h s|h id] using pyval_nested_ind;
    intros [b|ys|h' s'|h' id'] [c|zs|h'' s''|h'' id'']; cbn; try done.
  - lia.
  - revert ys zs.
    induction IH as [|x xs Hx _ IHxs]; intros [|y ys] [|z zs]; cbn; try done.
    intros [Hxy Hxs]%andb_prop [Hyz Hys]%andb_prop.
    by rewrite (Hx y z), (IHxs ys zs).
  - intros H1%String.eqb_eq H2%String.eqb_eq. apply String.eqb_eq. congruence.
  - intros [H1 H2]%andb_prop [H3 H4]%andb_prop.
    apply Nat.eqb_eq in H2, H4. apply andb_true_intro. split; [lia|].
    apply Nat.eqb_eq. congruence.
Qed.

Lemma count_perm l l' x : l ≡ₚ l' → count l x = count l' x.
Proof. intros Hperm. unfold count. by rewrite Hperm. Qed.

Lemma count_app l l' x : count (l ++ l') x = count l x + count l' x.
Proof. unfold count. rewrite filter_app, length_app. lia. Qed.

Lemma count_cons y l x :
  count (y :: l) x = (if pyval_eqb y x then 1 else 0) + count l x.
Proof.
  unfold count. rewrite filter_cons.
  destruct (pyval_eqb y x) eqn:Hyx.
  - rewrite decide_True by done. cbn [length]. lia.
  - rewrite decide_False by congruence. lia.
Qed.

Lemma count_nonneg l x : 0 ≤ count l x.
Proof. unfold count. lia. Qed.

Lemma contains_count l x : __contains__ l x = (0 <? count l x).
Proof.
  unfold __contains__, sortedlist_contains.
  induction l as [|y l IH]; [done|].
  cbn [existsb]. rewrite count_cons, IH.
  pose proof (count_nonneg l x). destruct (pyval_eqb y x); cbn; lia.
Qed.

Lemma sortedlist_discard_length l x :
  __contains__ l x = true →
  S (length (sortedlist_discard l x)) = length l.
Proof.
  unfold __contains__, sortedlist_contains.
  induction l as [|y l IH]; cbn; [done|].
  destruct (pyval_eqb y x); cbn; [done|]. intros H. by rewrite IH.
Qed.

Lemma sortedlist_discard_others l x :
  filter (λ y, pyval_eqb y x = false) (sortedlist_discard l x)
  = filter (λ y, pyval_eqb y x = false) l.
Proof.
  induction l as [|y l IH]; [done|]. cbn [sortedlist_discard].
  destruct (pyval_eqb y x) eqn:Hyx.
  - by rewrite filter_cons_False by congruence.
  - by rewrite !filter_cons_True, IH by done.
Qed.

Lemma discard_loop_filter fuel x : ∀ l,
  (length l ≤ fuel)%nat →
  discard_loop fuel l x = Ret (discard l x).
Proof.
  unfold discard.
  induction fuel as [|fuel IH]; intros l Hfuel; cbn [discard_loop];
    destruct (__contains__ l x) eqn:Hin.
  - destruct l; [done|cbn in Hfuel; lia].
  - f_equal. symmetry. apply filter_all, Forall_forall. intros y Hy.
    unfold __contains__, sortedlist_contains in Hin.
    destruct (pyval_eqb y x) eqn:Hyx; [|done].
    assert (existsb (λ y, pyval_eqb y x) l = true); [|congruence].
    apply existsb_exists. exists y. split; [by apply list_elem_of_In|done].
  - pose proof (sortedlist_discard_length l x Hin).
    rewrite IH by lia. by rewrite sortedlist_discard_others.
  - f_equal. symmetry. apply filter_all, Forall_forall. intros y Hy.
    unfold __contains__, sortedlist_contains in Hin.
    destruct (pyval_eqb y x) eqn:Hyx; [|done].
    assert (existsb (λ y, pyval_eqb y x) l = true); [|congruence].
    apply existsb_exists. exists y. split; [by apply list_elem_of_In|done].
Qed.

End Elements.

(** X18. [discard(elem)] ends, whatever the multiset holds, and takes
    every occurrence of [elem] out: [elem] is no longer counted nor
    contained, and the count of every value that does not equal [elem]
    is what it was. *)
Theorem discard_removes_all (fuel : nat) (self : list Multiset.pyval)
    (elem : Multiset.pyval) :
  (length self ≤ fuel)%nat →
  Multiset.discard_loop fuel self elem = Ret (Multiset.discard self elem)
  ∧ Multiset.count (Multiset.discard self elem) elem = 0
  ∧ Multiset.__contains__ (Multiset.discard self elem) elem = false
  ∧ ∀ x, Multiset.pyval_eqb x elem = false →
         Multiset.count (Multiset.discard self elem) x = Multiset.count self x.
Proof.
  intros Hfuel. split; [by apply discard_loop_filter|].
  assert (Multiset.count (Multiset.discard self elem) elem = 0) as Hzero.
  { unfold Multiset.count, Multiset.discard.
    rewrite filter_none; [done|].
    apply Forall_forall. intros y [Hy _]%list_elem_of_filter. congruence. }
  split; [done|]. split; [by rewrite contains_count, Hzero|].
  intros x Hx. unfold Multiset.count, Multiset.discard. do 2 f_equal.
  clear Hfuel Hzero. induction self as [|y l IH]; [done|].
  rewrite !filter_cons.
  destruct (Multiset.pyval_eqb y elem) eqn:Hye.
  - rewrite (decide_False (P := true = false)) by done.
    rewrite decide_False; [apply IH|].
    intros Hyx. rewrite pyval_eqb_sym in Hyx.
    by rewrite (pyval_eqb_trans x y elem Hyx Hye) in Hx.
  - rewrite (decide_True (P := false = false)) by done.
    rewrite filter_cons. destruct (decide (Multiset.pyval_eqb y x = true));
      [f_equal|]; apply IH.
Qed.

Lemma discard_removes_all_witness :
  Multiset.discard_loop 3
    [Multiset.PInt 1; Multiset.PInt 2; Multiset.PInt 2] (Multiset.PInt 2)
  = Ret (Multiset.discard
           [Multiset.PInt 1; Multiset.PInt 2; Multiset.PInt 2] (Multiset.PInt 2))
  ∧ Multiset.count
      (Multiset.discard
         [Multiset.PInt 1; Multiset.PInt 2; Multiset.PInt 2] (Multiset.PInt 2))
      (Multiset.PInt 2) = 0
  ∧ Multiset.__contains__
      (Multiset.discard
         [Multiset.PInt 1; Multiset.PInt 2; Multiset.PInt 2] (Multiset.PInt 2))
      (Multiset.PInt 2) = false
  ∧ ∀ x, Multiset.pyval_eqb x (Multiset.PInt 2) = false →
         Multiset.count
           (Multiset.discard
              [Multiset.PInt 1; Multiset.PInt 2; Multiset.PInt 2] (Multiset.PInt 2))
           x
         = Multiset.count [Multiset.PInt 1; Multiset.PInt 2; Multiset.PInt 2] x.
Proof. apply discard_removes_all. simpl. lia. Defined.

Section SortedUpdate.

Import Multiset.

Lemma insort_last x l :
  Forall (λ y, key_le y x) l → insort x l = l ++ [x].
Proof.
  induction 1 as [|y l Hy _ IH]; [done|].
  cbn [insort app]. unfold key_le in Hy. by rewrite Hy, IH.
Qed.

Lemma canonical_app_cons l x l' :
  canonical (l ++ x :: l') → Forall (λ y, key_le y x) l.
Proof.
  intros Hsorted. apply Sorted_StronglySorted in Hsorted; [|apply key_le_transitive].
  apply StronglySorted_app in Hsorted as (Hcross & _ & _).
  apply Forall_forall. intros y Hy. apply Hcross; [done|left].
Qed.

(** Sorting what is sorted changes nothing. *)
Lemma sortedlist_update_sorted iterable : ∀ l,
  canonical (l ++ iterable) → sortedlist_update l iterable = l ++ iterable.
Proof.
  unfold sortedlist_update.
  induction iterable as [|x it IH]; intros l Hsorted; cbn [foldl].
  - by rewrite app_nil_r.
  - rewrite insort_last by (by eapply canonical_app_cons).
    rewrite IH; rewrite <-app_assoc; done.
Qed.

End SortedUpdate.

(** X19. On a multiset of integers [add(elem)] of an integer leaves
    the multiset of the integers with [elem] among them: one element
    larger, [elem] contained, the count of [elem] one higher and every
    other count as it was. *)
Theorem add_counts (l : list Z) (z : Z) :
  Multiset.add (Multiset.__init__ (Multiset.PInt <$> l)) (Multiset.PInt z)
  = Multiset.__init__ (Multiset.PInt <$> (l ++ [z]))
  ∧ Multiset.__len__
      (Multiset.add (Multiset.__init__ (Multiset.PInt <$> l)) (Multiset.PInt z))
    = Multiset.__len__ (Multiset.__init__ (Multiset.PInt <$> l)) + 1
  ∧ Multiset.__contains__
      (Multiset.add (Multiset.__init__ (Multiset.PInt <$> l)) (Multiset.PInt z))
      (Multiset.PInt z) = true
  ∧ ∀ x : Z,
      Multiset.count
        (Multiset.add (Multiset.__init__ (Multiset.PInt <$> l)) (Multiset.PInt z))
        (Multiset.PInt x)
      = Multiset.count (Multiset.__init__ (Multiset.PInt <$> l)) (Multiset.PInt x)
        + (if decide (z = x) then 1 else 0).
Proof.
  assert (Multiset.add (Multiset.__init__ (Multiset.PInt <$> l)) (Multiset.PInt z)
          = Multiset.__init__ (Multiset.PInt <$> (l ++ [z]))) as Hadd.
  { unfold Multiset.add, Multiset.__init__, Multiset.extend,
      Multiset.sortedlist_update.
    by rewrite fmap_app, foldl_app. }
  rewrite Hadd, !init_int. split; [done|].
  assert (∀ x, occurrences (Macaulay.sorted (l ++ [z])) x
               = occurrences (Macaulay.sorted l) x
                 + (if decide (z = x) then 1 else 0)) as Hcount.
  { intros x. rewrite !(occurrences_perm _ _ _ (sorted_perm _)).
    rewrite occurrences_app, occurrences_cons.
    change (occurrences [] x) with 0. lia. }
  split; [|split].
  - unfold Multiset.__len__. rewrite !length_fmap, !sorted_perm, length_app.
    cbn [length]. lia.
  - rewrite contains_count, count_int, Hcount, decide_True by done.
    pose proof (occurrences_nonneg (Macaulay.sorted l) z). lia.
  - intros x. by rewrite !count_int, Hcount.
Qed.

(** X20. On multisets of integers [self + other] is the multiset of
    the integers of both operands: it holds every integer as many
    times as the two operands together. *)
Theorem add_operator_counts (la lb : list Z) :
  Multiset.__add__ (Multiset.__init__ (Multiset.PInt <$> la))
    (Multiset.__init__ (Multiset.PInt <$> lb))
  = Multiset.__init__ (Multiset.PInt <$> (la ++ lb))
  ∧ Multiset.__len__
      (Multiset.__add__ (Multiset.__init__ (Multiset.PInt <$> la))
         (Multiset.__init__ (Multiset.PInt <$> lb)))
    = Multiset.__len__ (Multiset.__init__ (Multiset.PInt <$> la))
      + Multiset.__len__ (Multiset.__init__ (Multiset.PInt <$> lb))
  ∧ ∀ x : Z,
      Multiset.count
        (Multiset.__add__ (Multiset.__init__ (Multiset.PInt <$> la))
           (Multiset.__init__ (Multiset.PInt <$> lb)))
        (Multiset.PInt x)
      = Multiset.count (Multiset.__init__ (Multiset.PInt <$> la)) (Multiset.PInt x)
        + Multiset.count (Multiset.__init__ (Multiset.PInt <$> lb))
            (Multiset.PInt x).
Proof.
  assert (Multiset.__add__ (Multiset.__init__ (Multiset.PInt <$> la))
            (Multiset.__init__ (Multiset.PInt <$> lb))
          = Multiset.__init__ (Multiset.PInt <$> (la ++ lb))) as Hadd.
  { apply canonical_unique.
    - apply object_free_key_injective, Forall_forall. intros x Hx.
      unfold Multiset.__add__, Multiset.extend, Multiset.copy,
        Multiset.__iter__ in Hx.
      rewrite sortedlist_update_perm, !init_perm, <-fmap_app in Hx.
      by apply list_elem_of_fmap in Hx as (y & -> & _).
    - apply sortedlist_update_canonical, init_canonical.
    - apply init_canonical.
    - unfold Multiset.__add__, Multiset.extend, Multiset.copy,
        Multiset.__iter__.
      by rewrite sortedlist_update_perm, !init_perm, fmap_app. }
  rewrite Hadd, !init_int. split; [done|]. split.
  - unfold Multiset.__len__. rewrite !length_fmap, !sorted_perm, length_app.
    lia.
  - intros x. rewrite !count_int.
    rewrite !(occurrences_perm _ _ _ (sorted_perm _)). apply occurrences_app.
Qed.

(** X21. [copy()] of a multiset iterates exactly as the multiset. *)
Theorem copy_same (self : list Multiset.pyval) :
  canonical self → Multiset.copy self = self.
Proof.
  intros Hself.
  unfold Multiset.copy, Multiset.__init__, Multiset.extend, Multiset.__iter__.
  by rewrite sortedlist_update_sorted.
Qed.

Lemma copy_same_witness :
  Multiset.copy (Multiset.__init__ [Multiset.PInt 2; twin_a; Multiset.PInt 1])
  = Multiset.__init__ [Multiset.PInt 2; twin_a; Multiset.PInt 1].
Proof. apply copy_same. apply init_canonical. Defined.

(** X22. [pop()] on the empty multiset raises [KeyError]; on a
    multiset of integers it returns the first element in iteration
    order, which is the least of the integers, and leaves the others,
    in ascending order. *)
Theorem pop_least (l : list Z) :
  match Multiset.pop (Multiset.__init__ (Multiset.PInt <$> l)) with
  | Ret (x, rest) =>
      ∃ m zs, x = Multiset.PInt m ∧ rest = Multiset.PInt <$> zs
              ∧ m :: zs ≡ₚ l ∧ Sorted Z.le zs ∧ ∀ z, z ∈ l → m ≤ z
  | Raise e => e = KeyError ∧ l = []
  | OutOfFuel => False
  end.
Proof.
  rewrite init_int.
  pose proof (sorted_perm l) as Hperm.
  pose proof (sorted_StronglySorted l) as Hsorted.
  destruct (Macaulay.sorted l) as [|m zs]; cbn.
  - split; [done|]. by apply Permutation_nil_l in Hperm.
  - apply StronglySorted_cons in Hsorted as [Hm Hzs].
    exists m, zs. split; [done|]. split; [done|]. split; [done|].
    split; [by apply StronglySorted_Sorted|].
    intros z Hz. rewrite <-Hperm in Hz.
    apply elem_of_cons in Hz as [->|Hz]; [lia|].
    by apply (proj1 (Forall_forall _ _) Hm).
Qed.

(** ** Comparisons of multisets of integers *)

Section Comparisons.

Import Multiset.

Section SortedOperands.

Variables za zb : list Z.
Hypothesis Hza : StronglySorted Z.le za.
Hypothesis Hzb : StronglySorted Z.le zb.

Let keys := distinct_keys [za; zb].
Let a z := occurrences za z.
Let b z := occurrences zb z.

Lemma isdisjoint_int :
  isdisjoint (PInt <$> za) (PInt <$> zb)
  = Ret (negb (nonempty (filter (λ z, Z.min (a z) (b z) > 0) keys))).
Proof.
  unfold isdisjoint, __intersection_items. unfold __iter__; cbn [negb map].
  rewrite binary_walk by done.
  rewrite (gen_filter_map_keys _ (λ z, [a z; b z])
             (λ z, Z.min (a z) (b z) > 0) (λ z, (PInt z, Z.min (a z) (b z)))).
  - by rewrite gen_any_finished, nonempty_fmap.
  - intros z. cbn. by repeat case_decide; case_match; try lia.
Qed.

Lemma issuperset_int :
  issuperset (PInt <$> za) (PInt <$> zb)
  = Ret (negb (nonempty (filter (λ z, Z.max (a z) (b z) > a z) keys))).
Proof.
  unfold issuperset, __union_items. unfold __iter__; cbn [negb map].
  rewrite binary_walk by done.
  rewrite (gen_filter_map_keys _ (λ z, [a z; b z])
             (λ z, Z.max (a z) (b z) > a z)
             (λ z, (PInt z, Z.max (a z) (b z) - a z))).
  - by rewrite gen_any_finished, nonempty_fmap.
  - intros z. cbn. by repeat case_decide; case_match; try lia.
Qed.

Lemma symmetric_difference_int :
  symmetric_difference (PInt <$> za) (PInt <$> zb)
  = Ret (PInt <$> Macaulay.sorted
           (concat ((λ z, replicate (Z.to_nat (symm_diff (a z) (b z))) z)
                      <$> filter (λ z, a z ≠ b z) keys))).
Proof.
  unfold symmetric_difference, __symmetric_difference_items, __iter__.
  cbn [negb]. rewrite binary_walk by done.
  rewrite (gen_filter_map_keys _ (λ z, [a z; b z])
             (λ z, a z ≠ b z) (λ z, (PInt z, symm_diff (a z) (b z)))).
  - apply from_multiplicities_int.
  - intros z. cbn. by repeat case_decide; case_match; try lia.
Qed.

End SortedOperands.

(** Counting any value in multisets of integers comes down to
    counting integers. *)
Lemma count_le_int za zb :
  (∀ x, count (PInt <$> za) x ≤ count (PInt <$> zb) x)
  ↔ ∀ z, occurrences za z ≤ occurrences zb z.
Proof.
  split.
  - intros H z. specialize (H (PInt z)). by rewrite !count_int in H.
  - intros H [z|xs|h s|h id]; [|by rewrite !count_int_other..].
    rewrite !count_int. apply H.
Qed.

Lemma occurrences_eq_perm_iff za zb :
  (∀ z, occurrences za z = occurrences zb z) ↔ za ≡ₚ zb.
Proof.
  split; [apply occurrences_eq_perm|].
  intros Hperm z. by apply occurrences_perm.
Qed.

Lemma negb_nonempty_true {A} (l : list A) :
  negb (nonempty l) = true ↔ nonempty l = false.
Proof. by destruct l. Qed.

End Comparisons.

(** X23. On multisets of integers [==] and [!=] return, and [==]
    answers whether the two multisets hold the same integers the same
    number of times. *)
Theorem eq_same_contents (la lb : list Z) :
  ∃ b : bool,
    Multiset.__eq__ (Multiset.__init__ (Multiset.PInt <$> la))
      (Multiset.__init__ (Multiset.PInt <$> lb)) = Ret b
    ∧ Multiset.__ne__ (Multiset.__init__ (Multiset.PInt <$> la))
        (Multiset.__init__ (Multiset.PInt <$> lb)) = Ret (negb b)
    ∧ (b = true ↔ la ≡ₚ lb).
Proof.
  unfold Multiset.__ne__. rewrite !init_int.
  rewrite eq_int by apply sorted_StronglySorted.
  eexists. split; [done|]. split; [done|].
  rewrite negb_nonempty_true, nonempty_filter_keys.
  - rewrite <-occurrences_eq_perm_iff.
    split; intros H z; specialize (H z);
      rewrite !(occurrences_perm _ _ _ (sorted_perm _)) in *; lia.
  - intros z [-> ->]%occurrences_outside. lia.
Qed.

(** X24. On multisets of integers [<=] and [>=] return, and answer
    whether every multiplicity of the one operand is within that of
    the other; [<] and [>] add that the operands differ. *)
Theorem order_comparisons (la lb : list Z) :
  ∃ le ge eq : bool,
    Multiset.__le__ (Multiset.__init__ (Multiset.PInt <$> la))
      (Multiset.__init__ (Multiset.PInt <$> lb)) = Ret le
    ∧ Multiset.__ge__ (Multiset.__init__ (Multiset.PInt <$> la))
        (Multiset.__init__ (Multiset.PInt <$> lb)) = Ret ge
    ∧ Multiset.__eq__ (Multiset.__init__ (Multiset.PInt <$> la))
        (Multiset.__init__ (Multiset.PInt <$> lb)) = Ret eq
    ∧ Multiset.__lt__ (Multiset.__init__ (Multiset.PInt <$> la))
        (Multiset.__init__ (Multiset.PInt <$> lb)) = Ret (le && negb eq)
    ∧ Multiset.__gt__ (Multiset.__init__ (Multiset.PInt <$> la))
        (Multiset.__init__ (Multiset.PInt <$> lb)) = Ret (ge && negb eq)
    ∧ (le = true
       ↔ ∀ x, Multiset.count (Multiset.__init__ (Multiset.PInt <$> la)) x
              ≤ Multiset.count (Multiset.__init__ (Multiset.PInt <$> lb)) x)
    ∧ (ge = true
       ↔ ∀ x, Multiset.count (Multiset.__init__ (Multiset.PInt <$> lb)) x
              ≤ Multiset.count (Multiset.__init__ (Multiset.PInt <$> la)) x).
Proof.
  unfold Multiset.__lt__, Multiset.__gt__, Multiset.__ne__,
    Multiset.__le__, Multiset.__ge__.
  rewrite !init_int.
  pose proof (sorted_StronglySorted la) as Hza.
  pose proof (sorted_StronglySorted lb) as Hzb.
  set (za := Macaulay.sorted la) in *. set (zb := Macaulay.sorted lb) in *.
  pose proof (occurrences_nonneg za) as Ha.
  pose proof (occurrences_nonneg zb) as Hb.
  rewrite issubset_int, issuperset_int, eq_int by done.
  eexists _, _, _.
  split; [done|]. split; [done|]. split; [done|].
  split; [cbn; by case_match|]. split; [cbn; by case_match|].
  rewrite !negb_nonempty_true, !count_le_int, !nonempty_filter_keys.
  - split; split; intros H z; specialize (H z); lia.
  - intros z [-> ->]%occurrences_outside. lia.
  - intros z [-> ->]%occurrences_outside. lia.
Qed.

(** X25. On multisets of integers the symmetric difference returns,
    with the absolute difference of the multiplicities; and
    [isdisjoint] answers whether no integer is held by both. *)
Theorem symmetric_difference_counts (la lb : list Z) :
  ∃ (X : list Multiset.pyval) (d : bool),
    Multiset.symmetric_difference (Multiset.__init__ (Multiset.PInt <$> la))
      (Multiset.__init__ (Multiset.PInt <$> lb)) = Ret X
    ∧ (∀ x, Multiset.count X x
            = Z.abs (Multiset.count (Multiset.__init__ (Multiset.PInt <$> la)) x
                     - Multiset.count (Multiset.__init__ (Multiset.PInt <$> lb)) x))
    ∧ Multiset.isdisjoint (Multiset.__init__ (Multiset.PInt <$> la))
        (Multiset.__init__ (Multiset.PInt <$> lb)) = Ret d
    ∧ (d = true ↔ ∀ z, z ∈ la → z ∉ lb).
Proof.
  rewrite !init_int.
  pose proof (sorted_StronglySorted la) as Hza.
  pose proof (sorted_StronglySorted lb) as Hzb.
  pose proof (sorted_perm la) as Hpa. pose proof (sorted_perm lb) as Hpb.
  set (za := Macaulay.sorted la) in *. set (zb := Macaulay.sorted lb) in *.
  pose proof (occurrences_nonneg za) as Ha.
  pose proof (occurrences_nonneg zb) as Hb.
  rewrite symmetric_difference_int, isdisjoint_int by done.
  eexists _, _. split; [done|]. split; [|split; [done|]].
  - intros [x|xs|h s|h id]; [|by rewrite !count_int_other..].
    rewrite !count_int.
    apply (occurrences_expand_sorted
             (λ z, Multiset.symm_diff (occurrences za z) (occurrences zb z))).
    + intros z. unfold Multiset.symm_diff. lia.
    + intros z. unfold Multiset.symm_diff. lia.
    + intros z [-> ->]%occurrences_outside. done.
  - rewrite negb_nonempty_true, nonempty_filter_keys.
    + split.
      * intros H z Hz Hz'. specialize (H z).
        rewrite <-Hpa in Hz. rewrite <-Hpb in Hz'.
        assert (0 < occurrences za z ∧ 0 < occurrences zb z) as []; [|lia].
        split.
        -- destruct (decide (occurrences za z = 0)) as [H0|]; [|specialize (Ha z); lia].
           exfalso. unfold occurrences in H0.
           assert (z ∈ filter (λ y, y = z) za) as Hin
             by (by apply list_elem_of_filter).
           destruct (filter (λ y, y = z) za); [by apply elem_of_nil in Hin|done].
        -- destruct (decide (occurrences zb z = 0)) as [H0|]; [|specialize (Hb z); lia].
           exfalso. unfold occurrences in H0.
           assert (z ∈ filter (λ y, y = z) zb) as Hin
             by (by apply list_elem_of_filter).
           destruct (filter (λ y, y = z) zb); [by apply elem_of_nil in Hin|done].
      * intros H z Hz.
        destruct (decide (z ∈ la)) as [Hin|Hout].
        -- specialize (H z Hin). rewrite <-Hpb in H.
           rewrite (occurrences_absent zb z H) in Hz. specialize (Ha z). lia.
        -- rewrite <-Hpa in Hout.
           rewrite (occurrences_absent za z Hout) in Hz. specialize (Hb z). lia.
    + intros z [-> ->]%occurrences_outside. lia.
Qed.

(** ** The dictionary of a multiset of integers *)

Section AsDict.

Import Multiset.

Lemma dict_setitem_new (d : list (pyval * Z)) k v :
  Forall (λ '(k', _), pyval_eqb k' k = false) d →
  dict_setitem d k v = d ++ [(k, v)].
Proof.
  induction 1 as [|[k' v'] d Hk _ IH]; [done|].
  cbn [dict_setitem app]. by rewrite Hk, IH.
Qed.

Lemma dict_of_distinct (g : Z → Z) keys : ∀ d,
  NoDup keys →
  Forall (λ '(k', _), ∀ z, z ∈ keys → pyval_eqb k' (PInt z) = false) d →
  foldl (λ d '(elem, n), dict_setitem d elem n) d
    ((λ z, (PInt z, g z)) <$> keys)
  = d ++ ((λ z, (PInt z, g z)) <$> keys).
Proof.
  induction keys as [|z keys IH]; intros d Hnd Hd; cbn [fmap list_fmap foldl].
  - by rewrite app_nil_r.
  - apply NoDup_cons in Hnd as [Hz Hnd].
    rewrite dict_setitem_new; last first.
    { eapply Forall_impl; [exact Hd|]. intros [k' v'] Hk. apply Hk. left. }
    rewrite IH, <-app_assoc; [done|done|].
    apply Forall_app. split.
    + eapply Forall_impl; [exact Hd|]. intros [k' v'] Hk y Hy. apply Hk. by right.
    + constructor; [|constructor]. intros y Hy. cbn.
      apply Z.eqb_neq. by intros ->.
Qed.

Lemma asdict_int zs :
  StronglySorted Z.le zs →
  _asdict (PInt <$> zs)
  = Ret ((λ z, (PInt z, occurrences zs z)) <$> distinct_keys [zs]).
Proof.
  intros Hzs. unfold _asdict, __difference_items, __iter__. cbn [negb map].
  pose proof (joint_group_count_int [zs] ltac:(by constructor)) as Hwalk.
  cbn [fmap list_fmap] in Hwalk. rewrite Hwalk.
  rewrite (gen_filter_map_keys _ (λ z, [occurrences zs z])
             (λ z, occurrences zs z > 0)
             (λ z, (PInt z, occurrences zs z))); last first.
  { intros z. cbn. by repeat case_decide; case_match; try lia. }
  rewrite filter_all; last first.
  { apply Forall_forall. intros z Hz%elem_of_distinct_keys.
    cbn in Hz. rewrite app_nil_r in Hz.
    unfold occurrences.
    assert (z ∈ filter (λ y, y = z) zs) as Hin by (by apply list_elem_of_filter).
    destruct (filter (λ y, y = z) zs); [by apply elem_of_nil in Hin|].
    cbn [length]. lia. }
  unfold gen_collect. cbn [finish yielded mbind outcome_bind]. f_equal.
  apply (dict_of_distinct _ _ []); [apply NoDup_distinct_keys|constructor].
Qed.

End AsDict.

(** X28. The dictionary that [_asdict] builds from a multiset of
    integers lists each distinct integer once, in ascending order,
    with its multiplicity; and [from_counter] rebuilds the multiset
    from it. *)
Theorem from_counter_asdict (l : list Z) :
  ∃ d, Multiset._asdict (Multiset.__init__ (Multiset.PInt <$> l)) = Ret d
       ∧ d = (λ z, (Multiset.PInt z,
                    Multiset.count (Multiset.__init__ (Multiset.PInt <$> l))
                      (Multiset.PInt z)))
             <$> distinct_keys [l]
       ∧ Multiset.from_counter d
         = Ret (Multiset.__init__ (Multiset.PInt <$> l)).
Proof.
  rewrite init_int.
  pose proof (sorted_StronglySorted l) as Hzs.
  assert (distinct_keys [l] = distinct_keys [Macaulay.sorted l]) as ->.
  { unfold distinct_keys. cbn [concat]. rewrite !app_nil_r.
    f_equal. f_equal. apply set_eq. intros z.
    by rewrite !elem_of_list_to_set, sorted_perm. }
  set (zs := Macaulay.sorted l) in *.
  rewrite asdict_int by done. eexists. split; [done|]. split.
  - apply list_fmap_ext. intros _ z _. by rewrite count_int.
  - unfold Multiset.from_counter. rewrite from_multiplicities_int. f_equal.
    f_equal. apply (Sorted_unique Z.le).
    + apply sorted_Sorted.
    + by apply StronglySorted_Sorted.
    + rewrite sorted_perm. apply occurrences_eq_perm. intros x.
      rewrite occurrences_expand;
        [|apply NoDup_distinct_keys|apply occurrences_nonneg].
      destruct (decide (x ∈ distinct_keys [zs])) as [|Hout]; [done|].
      symmetry. apply occurrences_absent. intros Hin. apply Hout.
      apply elem_of_distinct_keys. cbn. by rewrite app_nil_r.
Qed.

(** ** The in-place removals on multisets of integers *)

Section InPlaceRemovals.

Import Multiset.

(** The first delta of an integer stops [__remove_quantity]: [starmap]
    cannot unpack the integer into arguments. *)
Lemma apply_deltas_remove_int (g : Z → Z) self keys :
  Forall (λ z, 0 < g z) keys →
  apply_deltas __remove_quantity self ((λ z, (PInt z, g z)) <$> keys)
  = if nonempty keys then Raise TypeError else Ret self.
Proof.
  intros Hkeys. destruct Hkeys as [|z keys Hz _]; [done|].
  cbn [fmap list_fmap apply_deltas nonempty]. unfold __remove_quantity.
  destruct (Z.to_nat (g z)) as [|n] eqn:Hn; [lia|]. done.
Qed.

Variables za zb : list Z.
Hypothesis Hza : StronglySorted Z.le za.
Hypothesis Hzb : StronglySorted Z.le zb.

Lemma intersection_update_int :
  intersection_update (PInt <$> za) [PInt <$> zb]
  = if nonempty (filter (λ z, Z.min (occurrences za z) (occurrences zb z)
                              < occurrences za z)
                   (distinct_keys [za; zb]))
    then Raise TypeError else Ret (PInt <$> za).
Proof.
  unfold intersection_update, __intersection_items. unfold __iter__.
  cbn [negb map]. rewrite binary_walk by done.
  rewrite (gen_filter_map_keys _
             (λ z, [occurrences za z; occurrences zb z])
             (λ z, Z.min (occurrences za z) (occurrences zb z)
                   < occurrences za z)
             (λ z, (PInt z, occurrences za z
                            - Z.min (occurrences za z) (occurrences zb z))));
    last first.
  { intros z. cbn. by repeat case_decide; case_match; try lia. }
  unfold gen_collect. cbn [finish yielded mbind outcome_bind].
  apply (apply_deltas_remove_int
           (λ z, occurrences za z
                 - Z.min (occurrences za z) (occurrences zb z))).
  apply Forall_forall. intros z [Hz _]%list_elem_of_filter. lia.
Qed.

Lemma difference_update_int :
  difference_update (PInt <$> za) [PInt <$> zb]
  = if nonempty (filter (λ z, Z.min (occurrences za z) (occurrences zb z) > 0)
                   (distinct_keys [za; zb]))
    then Raise TypeError else Ret (PInt <$> za).
Proof.
  unfold difference_update, __difference_items. unfold __iter__.
  cbn [negb map]. rewrite binary_walk by done.
  rewrite (gen_filter_map_keys _
             (λ z, [occurrences za z; occurrences zb z])
             (λ z, Z.min (occurrences za z) (occurrences zb z) > 0)
             (λ z, (PInt z, occurrences za z
                            - soft_diff (occurrences za z) (occurrences zb z))));
    last first.
  { intros z. cbn. unfold soft_diff.
    by repeat case_decide; case_match; try lia. }
  unfold gen_collect. cbn [finish yielded mbind outcome_bind].
  apply (apply_deltas_remove_int
           (λ z, occurrences za z
                 - soft_diff (occurrences za z) (occurrences zb z))).
  apply Forall_forall. intros z [Hz _]%list_elem_of_filter.
  unfold soft_diff. lia.
Qed.

End InPlaceRemovals.

(** X30. On multisets of integers the in-place intersection and
    difference never remove an element: [intersection_update] returns,
    the multiset unchanged, when it is a subset of the operand, and
    [difference_update] when the two are disjoint; in every other case
    they raise [TypeError] at the first element to remove. *)
Theorem inplace_removals_never_remove (la lb : list Z) :
  ∃ sub dis : bool,
    Multiset.issubset (Multiset.__init__ (Multiset.PInt <$> la))
      (Multiset.__init__ (Multiset.PInt <$> lb)) = Ret sub
    ∧ Multiset.isdisjoint (Multiset.__init__ (Multiset.PInt <$> la))
        (Multiset.__init__ (Multiset.PInt <$> lb)) = Ret dis
    ∧ Multiset.intersection_update (Multiset.__init__ (Multiset.PInt <$> la))
        [Multiset.__init__ (Multiset.PInt <$> lb)]
      = (if sub then Ret (Multiset.__init__ (Multiset.PInt <$> la))
         else Raise TypeError)
    ∧ Multiset.difference_update (Multiset.__init__ (Multiset.PInt <$> la))
        [Multiset.__init__ (Multiset.PInt <$> lb)]
      = (if dis then Ret (Multiset.__init__ (Multiset.PInt <$> la))
         else Raise TypeError).
Proof.
  rewrite !init_int.
  pose proof (sorted_StronglySorted la) as Hza.
  pose proof (sorted_StronglySorted lb) as Hzb.
  rewrite issubset_int, isdisjoint_int, intersection_update_int,
    difference_update_int by done.
  eexists _, _. split; [done|]. split; [done|].
  split; by destruct (nonempty _).
Qed.

(** ** The merge walk over integers ends *)

Section WalkOfIntegers.

Import Multiset.

Implicit Types (zs rest : list Z) (zss rests : list (list Z)).

(** What a grouper leaves of a list of integers is a list of integers. *)
Lemma grouper_rest_int m zs :
  ∃ rest, (_grouper (PInt m) (PInt <$> zs)).2 = PInt <$> rest.
Proof.
  induction zs as [|z zs [rest IH]]; [by exists []|].
  cbn [fmap list_fmap _grouper].
  destruct (pyval_eqb (PInt z) (PInt m)).
  - exists rest. by destruct (_grouper (PInt m) (PInt <$> zs)).
  - by exists (z :: zs).
Qed.

Lemma groupers_rest_int m zss :
  ∃ rests, map snd (map (_grouper (PInt m)) ((λ zs, PInt <$> zs) <$> zss))
           = (λ zs, PInt <$> zs) <$> rests.
Proof.
  induction zss as [|zs zss [rests IH]]; [by exists []|].
  destruct (grouper_rest_int m zs) as [rest Hrest].
  exists (rest :: rests). cbn [fmap list_fmap map]. by rewrite Hrest, IH.
Qed.

Lemma joint_groupby_loop_integers fuel : ∀ zss,
  (length (concat zss) ≤ fuel)%nat →
  finish (joint_groupby_loop fuel ((λ zs, PInt <$> zs) <$> zss)) = Ret ()
  ∧ (length (yielded (joint_groupby_loop fuel ((λ zs, PInt <$> zs) <$> zss)))
     ≤ length (concat zss))%nat.
Proof.
  induction fuel as [|fuel IH]; intros zss Hfuel;
    cbn [joint_groupby_loop];
    change (map head ((λ zs, PInt <$> zs) <$> zss))
      with (head <$> ((λ zs, PInt <$> zs) <$> zss));
    rewrite heads_int, choice_int;
    destruct (foldl omin None (head <$> zss)) as [m|] eqn:Hmin; cbn;
    try (split; [done|lia]).
  - apply foldl_omin_Some in Hmin as [[|Hin] _]; [done|].
    assert (Some (PInt m) ∈ map head ((λ zs, PInt <$> zs) <$> zss)) as Hhead.
    { change (map head ?l) with (head <$> l). rewrite heads_int.
      apply list_elem_of_fmap. by exists (Some m). }
    pose proof (round_length _ _ Hhead) as Hround.
    rewrite length_concat_int in Hround. lia.
  - apply foldl_omin_Some in Hmin as [[|Hin] _]; [done|].
    assert (Some (PInt m) ∈ map head ((λ zs, PInt <$> zs) <$> zss)) as Hhead.
    { change (map head ?l) with (head <$> l). rewrite heads_int.
      apply list_elem_of_fmap. by exists (Some m). }
    pose proof (round_length _ _ Hhead) as Hround.
    destruct (groupers_rest_int m zss) as [rests Hrests].
    rewrite Hrests in Hround |- *. rewrite !length_concat_int in Hround.
    destruct (IH rests ltac:(lia)) as [Hfinish Hrounds].
    split; [done|]. lia.
Qed.

End WalkOfIntegers.

(** X29. The walk of [joint_groupby] over finite operands of integers,
    in whatever order they come, ends by exhaustion, without an
    exception, and makes no more rounds than the operands hold
    integers. *)
Theorem joint_groupby_integers_end (zss : list (list Z)) :
  Multiset.finish
    (Multiset.joint_groupby ((λ zs : list Z, Multiset.PInt <$> zs) <$> zss))
  = Ret ()
  ∧ (length
       (Multiset.yielded
          (Multiset.joint_groupby
             ((λ zs : list Z, Multiset.PInt <$> zs) <$> zss)))
     ≤ length (concat zss))%nat.
Proof.
  unfold Multiset.joint_groupby. rewrite length_concat_int.
  by apply joint_groupby_loop_integers.
Qed.
